(** * Entity resolution for company records: normalizer and resolver

    A shallow embedding of [src/normalizers/company_normalizer.py],
    [src/models/schemas.py] and [src/deduplication/entity_resolver.py],
    followed by the properties of the specification that concern them.

    Modelling conventions.
    - A Python [str] is a list of Unicode code points ([pystr]).  The
      character database (case mappings, [\w], [\s], [\d]) is written out for
      U+0000..U+017F (Basic Latin, Latin-1 Supplement, Latin Extended-A, which
      holds the Turkish alphabet) and for the four code points that the case
      mappings of that range produce (U+02BC, U+0307, U+039C, U+03BC); every
      other code point is treated as a caseless symbol.
    - A Python [float] is an exact rational ([Q]).
    - An exception ([IndexError], pydantic's [ValidationError]) is [None] in
      the [option] monad.
    - A [dict] whose iteration order the code relies on is an association
      list kept in insertion order.
    - [fuzzywuzzy] is an external library: its two comparators are the
      operations of the class [FuzzLib]. *)

From Stdlib Require Import ZArith NArith QArith List String Ascii Lia Lqa.
From stdpp Require Import base option list gmap.

Open Scope Z_scope.

(** ** Python strings *)

Module Py.

Definition char := N.
Definition pystr := list char.

(** Decoder for the UTF-8 bytes of a string literal of this file. *)
Fixpoint utf8_decode (bs : list N) (need : nat) (acc : N) : pystr :=
  match bs with
  | [] => []
  | b :: bs' =>
      match need with
      | O =>
          if (b <? 128)%N then b :: utf8_decode bs' 0 0%N
          else if (b <? 224)%N then utf8_decode bs' 1 (N.land b 31)
          else if (b <? 240)%N then utf8_decode bs' 2 (N.land b 15)
          else utf8_decode bs' 3 (N.land b 7)
      | S k =>
          let acc' := (acc * 64 + N.land b 63)%N in
          match k with
          | O => acc' :: utf8_decode bs' 0 0%N
          | S _ => utf8_decode bs' k acc'
          end
      end
  end.

Definition u (s : string) : pystr :=
  utf8_decode (List.map N_of_ascii (list_ascii_of_string s)) 0 0%N.

Definition ch (s : string) : char :=
  match u s with c :: _ => c | [] => 0%N end.

Definition in_range (lo hi c : N) : bool := ((lo <=? c) && (c <=? hi))%N.

Definition eqb (a b : pystr) : bool := bool_decide (a = b).

(** Truthiness of an [Optional[str]]: [None] and [""] are false. *)
Definition truthy (o : option pystr) : bool :=
  match o with Some (_ :: _) => true | _ => false end.

Definition of_opt (o : option pystr) : pystr := default [] o.

(** *** Character database *)

(** [str.isspace], also the class [\s] of [re] on [str] patterns. *)
Definition is_space (c : char) : bool :=
  in_range 9 13 c || in_range 28 32 c || (c =? 133)%N || (c =? 160)%N.

(** The class [\d]: decimal digits. *)
Definition is_digit (c : char) : bool := in_range 48 57 c.

(** The class [\w]: alphanumeric characters and the underscore. *)
Definition is_word (c : char) : bool :=
  in_range 48 57 c || in_range 65 90 c || (c =? 95)%N || in_range 97 122 c
  || (c =? 170)%N || in_range 178 179 c || (c =? 181)%N || in_range 185 186 c
  || in_range 188 190 c || in_range 192 214 c || in_range 216 246 c
  || in_range 248 383 c || (c =? 700)%N || (c =? 924)%N || (c =? 956)%N.

(** Characters with a case ([_PyUnicode_IsCased]). *)
Definition is_cased (c : char) : bool :=
  in_range 65 90 c || in_range 97 122 c || (c =? 170)%N || (c =? 181)%N
  || (c =? 186)%N || in_range 192 214 c || in_range 216 246 c
  || in_range 248 383 c || (c =? 924)%N || (c =? 956)%N.

(** Lower-case letters of Latin Extended-A whose upper case is the code point
    just before them. *)
Definition ext_a_lower (c : char) : bool :=
  (in_range 257 311 c && N.odd c && negb (c =? 305)%N)
  || (in_range 314 328 c && N.even c)
  || (in_range 331 375 c && N.odd c)
  || (in_range 378 382 c && N.even c).

Definition ext_a_upper (c : char) : bool :=
  (in_range 256 310 c && N.even c && negb (c =? 304)%N)
  || (in_range 313 327 c && N.odd c)
  || (in_range 330 374 c && N.even c)
  || (in_range 377 381 c && N.odd c).

(** Full upper-case mapping of one character ([str.upper]). *)
Definition upper_char (c : char) : pystr :=
  if in_range 97 122 c then [c - 32]%N
  else if (c =? 181)%N then [924%N]
  else if (c =? 223)%N then [83; 83]%N
  else if in_range 224 246 c || in_range 248 254 c then [c - 32]%N
  else if (c =? 255)%N then [376%N]
  else if (c =? 305)%N then [73%N]
  else if (c =? 329)%N then [700; 78]%N
  else if (c =? 383)%N then [83%N]
  else if (c =? 956)%N then [924%N]
  else if ext_a_lower c then [c - 1]%N
  else [c].

(** Full lower-case mapping of one character ([str.lower]). *)
Definition lower_char (c : char) : pystr :=
  if in_range 65 90 c then [c + 32]%N
  else if in_range 192 214 c || in_range 216 222 c then [c + 32]%N
  else if (c =? 304)%N then [105; 775]%N
  else if (c =? 376)%N then [255%N]
  else if (c =? 924)%N then [956%N]
  else if ext_a_upper c then [c + 1]%N
  else [c].

(** Title-case mapping of one character. *)
Definition title_char (c : char) : pystr :=
  if (c =? 223)%N then [83; 115]%N else upper_char c.

Definition upper (s : pystr) : pystr := flat_map upper_char s.
Definition lower (s : pystr) : pystr := flat_map lower_char s.

(** [str.title]: a character that follows a cased character is lowered, any
    other one is title-cased. *)
Fixpoint title_from (previous_is_cased : bool) (s : pystr) : pystr :=
  match s with
  | [] => []
  | c :: s' =>
      (if previous_is_cased then lower_char c else title_char c)
        ++ title_from (is_cased c) s'
  end.

Definition title (s : pystr) : pystr := title_from false s.

(** *** String methods *)

Fixpoint startswith (p s : pystr) : bool :=
  match p, s with
  | [], _ => true
  | a :: p', b :: s' => (a =? b)%N && startswith p' s'
  | _ :: _, [] => false
  end.

(** [c in s] for a one-character [c]. *)
Definition contains (c : char) (s : pystr) : bool := existsb (N.eqb c) s.

Fixpoint lstrip_by (f : char -> bool) (s : pystr) : pystr :=
  match s with
  | c :: s' => if f c then lstrip_by f s' else s
  | [] => []
  end.

Definition rstrip_by (f : char -> bool) (s : pystr) : pystr :=
  rev (lstrip_by f (rev s)).

(** [s.strip()] and [s.rstrip(c)]. *)
Definition strip (s : pystr) : pystr := rstrip_by is_space (lstrip_by is_space s).
Definition rstrip_char (c : char) (s : pystr) : pystr := rstrip_by (N.eqb c) s.

(** [s.split()]: the maximal runs of non-whitespace characters. *)
Fixpoint split_ws (s : pystr) : list pystr :=
  match s with
  | [] => []
  | c :: s' =>
      if is_space c then split_ws s'
      else match s' with
           | [] => [[c]]
           | d :: _ =>
               if is_space d then [c] :: split_ws s'
               else match split_ws s' with
                    | t :: ts => (c :: t) :: ts
                    | [] => [[c]]
                    end
           end
  end.

(** [s.split(sep)] for a one-character separator; never the empty list. *)
Fixpoint split_on (sep : char) (s : pystr) : list pystr :=
  match s with
  | [] => [[]]
  | c :: s' =>
      if (c =? sep)%N then [] :: split_on sep s'
      else match split_on sep s' with
           | t :: ts => (c :: t) :: ts
           | [] => [[c]]
           end
  end.

(** [sep.join(parts)]. *)
Fixpoint join (sep : pystr) (parts : list pystr) : pystr :=
  match parts with
  | [] => []
  | [p] => p
  | p :: ps => p ++ sep ++ join sep ps
  end.

(** [s.replace(old, new)]: the occurrences of [old] are replaced from left
    to right and do not overlap; [skip] counts the characters of the
    occurrence being replaced that are still to be dropped. *)
Fixpoint replace_from (old new s : pystr) (skip : nat) : pystr :=
  match s with
  | [] => []
  | c :: s' =>
      match skip with
      | S k => replace_from old new s' k
      | O =>
          if startswith old s then new ++ replace_from old new s' (length old - 1)
          else c :: replace_from old new s' 0
      end
  end.

Definition replace (old new s : pystr) : pystr :=
  match old with
  | [] => new ++ flat_map (fun c => c :: new) s
  | _ :: _ => replace_from old new s 0
  end.

(** [str(n)] for a non-negative integer. *)
Fixpoint digits_of (fuel : nat) (n : nat) (acc : pystr) : pystr :=
  match fuel with
  | O => acc
  | S fuel' =>
      let acc' := (48 + N.of_nat (n mod 10))%N :: acc in
      if (n <? 10)%nat then acc' else digits_of fuel' (n / 10) acc'
  end.

Definition str_of_nat (n : nat) : pystr := digits_of (S n) n [].

End Py.

(** ** The fragment of [re] used by the normalizer *)

Module Re.
Import Py.

(** One-character matchers: a literal, a bracketed set of literals, [\s]. *)
Inductive cset :=
  | CChar (c : char)
  | COneOf (cs : list char)
  | CSpace.

(** A pattern is a sequence of items: the assertion [\b], or a one-character
    matcher taken once, or under [?], [*] or [+] (all greedy). *)
Inductive item :=
  | IBoundary
  | IOne (s : cset)
  | IOpt (s : cset)
  | IStar (s : cset)
  | IPlus (s : cset).

Definition regex := list item.

(** *** Reading a pattern *)

Inductive pstate :=
  | PNormal
  | PEscape
  | PSet (acc : list char).

Definition quantify (q : cset -> item) (rev_items : list item) : list item :=
  match rev_items with
  | IOne s :: rest => q s :: rest
  | _ => rev_items
  end.

Fixpoint parse (st : pstate) (rev_items : list item) (p : pystr) : regex :=
  match p with
  | [] => rev rev_items
  | c :: p' =>
      match st with
      | PEscape =>
          if (c =? ch "b")%N then parse PNormal (IBoundary :: rev_items) p'
          else if (c =? ch "s")%N then parse PNormal (IOne CSpace :: rev_items) p'
          else parse PNormal (IOne (CChar c) :: rev_items) p'
      | PSet acc =>
          if (c =? ch "]")%N then parse PNormal (IOne (COneOf (rev acc)) :: rev_items) p'
          else parse (PSet (c :: acc)) rev_items p'
      | PNormal =>
          if (c =? 92)%N then parse PEscape rev_items p'
          else if (c =? ch "[")%N then parse (PSet []) rev_items p'
          else if (c =? ch "?")%N then parse PNormal (quantify IOpt rev_items) p'
          else if (c =? ch "*")%N then parse PNormal (quantify IStar rev_items) p'
          else if (c =? ch "+")%N then parse PNormal (quantify IPlus rev_items) p'
          else parse PNormal (IOne (CChar c) :: rev_items) p'
      end
  end.

(** [re.compile(p)] for a pattern [p] of the fragment. *)
Definition compile (p : pystr) : regex := parse PNormal [] p.

(** *** Matching *)

(** Simple lower-case mapping ([sre_lower_unicode]). *)
Definition simple_lower (c : char) : char :=
  match lower_char c with x :: _ => x | [] => c end.

(** The characters that [re.IGNORECASE] identifies beyond the simple
    lower-case mapping: dotless i with i, long s with s, micro with mu. *)
Definition fold_case (c : char) : char :=
  let l := simple_lower c in
  if (l =? 305)%N then 105%N
  else if (l =? 383)%N then 115%N
  else if (l =? 956)%N then 181%N
  else l.

(** A character with a case ([_sre.unicode_iscased]). *)
Definition sre_iscased (c : char) : bool :=
  negb (bool_decide (lower_char c = [c])) || negb (bool_decide (upper_char c = [c])).

Definition char_match (ignorecase : bool) (p c : char) : bool :=
  if ignorecase && sre_iscased p then (fold_case p =? fold_case c)%N
  else (p =? c)%N.

Definition cset_match (ignorecase : bool) (s : cset) (c : char) : bool :=
  match s with
  | CChar p => char_match ignorecase p c
  | COneOf ps => existsb (fun p => char_match ignorecase p c) ps
  | CSpace => is_space c
  end.

Definition is_word_opt (o : option char) : bool :=
  match o with Some c => is_word c | None => false end.

(** [\b] holds between [prev] and the head of [s] when exactly one of them is
    a word character. *)
Definition at_boundary (prev : option char) (s : pystr) : bool :=
  xorb (is_word_opt prev) (is_word_opt (head s)).

(** Greedy repetition of a one-character matcher followed by [k]: the longest
    run is tried first, then shorter ones. *)
Fixpoint greedy (ignorecase : bool) (cs : cset)
    (k : option char -> pystr -> option nat)
    (prev : option char) (s : pystr) : option nat :=
  match s with
  | c :: s' =>
      if cset_match ignorecase cs c then
        match greedy ignorecase cs k (Some c) s' with
        | Some n => Some (S n)
        | None => k prev s
        end
      else k prev s
  | [] => k prev s
  end.

(** The length of the match of [r] at the start of [s], the character before
    it being [prev]; the first match in backtracking order. *)
Fixpoint match_here (ignorecase : bool) (r : regex)
    (prev : option char) (s : pystr) {struct r} : option nat :=
  match r with
  | [] => Some O
  | IBoundary :: r' =>
      if at_boundary prev s then match_here ignorecase r' prev s else None
  | IOne cs :: r' =>
      match s with
      | c :: s' =>
          if cset_match ignorecase cs c
          then S <$> match_here ignorecase r' (Some c) s'
          else None
      | [] => None
      end
  | IOpt cs :: r' =>
      match s with
      | c :: s' =>
          if cset_match ignorecase cs c then
            match match_here ignorecase r' (Some c) s' with
            | Some n => Some (S n)
            | None => match_here ignorecase r' prev s
            end
          else match_here ignorecase r' prev s
      | [] => match_here ignorecase r' prev s
      end
  | IStar cs :: r' => greedy ignorecase cs (match_here ignorecase r') prev s
  | IPlus cs :: r' =>
      match s with
      | c :: s' =>
          if cset_match ignorecase cs c
          then S <$> greedy ignorecase cs (match_here ignorecase r') (Some c) s'
          else None
      | [] => None
      end
  end.

(** [re.search(r, s)] as a truth value. *)
Fixpoint search_from (ignorecase : bool) (r : regex)
    (prev : option char) (s : pystr) : bool :=
  match match_here ignorecase r prev s with
  | Some _ => true
  | None =>
      match s with
      | [] => false
      | c :: s' => search_from ignorecase r (Some c) s'
      end
  end.

Definition search (ignorecase : bool) (r : regex) (s : pystr) : bool :=
  search_from ignorecase r None s.

(** [re.sub(r, repl, s)]: matches are replaced from left to right; [skip]
    counts the characters of the current match still to be dropped. *)
Fixpoint sub_from (ignorecase : bool) (r : regex) (repl : pystr)
    (prev : option char) (s : pystr) (skip : nat) : pystr :=
  match s with
  | [] =>
      match skip, match_here ignorecase r prev [] with
      | O, Some _ => repl
      | _, _ => []
      end
  | c :: s' =>
      match skip with
      | S k => sub_from ignorecase r repl (Some c) s' k
      | O =>
          match match_here ignorecase r prev s with
          | Some (S n) => repl ++ sub_from ignorecase r repl (Some c) s' n
          | Some O => repl ++ c :: sub_from ignorecase r repl (Some c) s' 0
          | None => c :: sub_from ignorecase r repl (Some c) s' 0
          end
      end
  end.

Definition sub (ignorecase : bool) (r : regex) (repl s : pystr) : pystr :=
  sub_from ignorecase r repl None s 0.

End Re.

(** ** Schemas ([src/models/schemas.py]) *)

Import Py.

Inductive CompanyType :=
  | ANONIM | LIMITED | SAHIS | KOLEKTIF | KOMANDIT
  | KOOPERATIF | DERNEK | VAKIF | OTHER.

Record CompanyIdentity := {
  legal_name : pystr;
  trade_name : option pystr;
  company_type : option CompanyType;
  country : pystr;
  city : option pystr;
  district : option pystr;
  registration_hint : option pystr
}.

Record WebPresence := {
  website_url : option pystr;
  website_status_code : option Z;
  ssl_issuer : option pystr;
  first_seen_ts : option Z;
  last_seen_ts : option Z;
  social_links : list (pystr * option pystr);
  google_places : option (list (pystr * pystr))
}.

Record ContactInfo := {
  emails_public : list pystr;
  phones_public : list pystr;
  address_public : option pystr
}.

Record BusinessMeta := {
  industry_naics_guess : option pystr;
  sic_guess : option pystr;
  headcount_band_guess : option pystr;
  founding_year_guess : option Z;
  keywords : list pystr
}.

Record DataProvenance := {
  source_url : pystr;
  source_type : pystr;
  fetch_ts : Z;
  parser_version : pystr;
  hash : option pystr
}.

Record UnifiedCompany := {
  id : option pystr;
  identity : CompanyIdentity;
  web_presence : option WebPresence;
  contacts : option ContactInfo;
  business_meta : option BusinessMeta;
  provenance : list DataProvenance;
  canonical_id : option pystr;
  confidence_score : Q;
  gdpr_suppressed : bool
}.

Inductive MatchType := exact | fuzzy.

Record CompanyMatch := {
  company_a_id : pystr;
  company_b_id : pystr;
  match_score : Q;
  match_fields : list (pystr * Q);
  match_type : MatchType;
  requires_review : bool
}.

(** The constructor of [CompanyMatch] validates [match_score] against
    [ge=0.0, le=1.0] and raises otherwise. *)
Definition new_CompanyMatch (a b : pystr) (score : Q) (fields : list (pystr * Q))
    (ty : MatchType) (review : bool) : option CompanyMatch :=
  if Qle_bool 0 score && Qle_bool score 1
  then Some {| company_a_id := a; company_b_id := b; match_score := score;
               match_fields := fields; match_type := ty;
               requires_review := review |}
  else None.

(** ** The normalizer ([src/normalizers/company_normalizer.py]) *)

Module CompanyNormalizer.

(** [self.company_type_patterns], in the order of the dictionary. *)
Definition company_type_patterns : list (CompanyType * list pystr) :=
  [ (ANONIM,   [ u "\bA\.Ş\.?\b";
                 u "\bANONİM\s+ŞİRKET[İI]?\b";
                 u "\bA\.S\.?\b" ]);
    (LIMITED,  [ u "\bLTD\.?\s*ŞT[İI]\.?\b";
                 u "\bL[İI]M[İI]TED\s+ŞİRKET[İI]?\b";
                 u "\bLTD\.?\b" ]);
    (SAHIS,    [ u "\bŞAHIS\s+ŞİRKET[İI]?\b";
                 u "\bŞAHIS\b" ]);
    (KOLEKTIF, [ u "\bKOLEKT[İI]F\s+ŞİRKET[İI]?\b";
                 u "\bKOL\.?\s*ŞT[İI]\.?\b" ]);
    (KOMANDIT, [ u "\bKOMAND[İI]T\s+ŞİRKET[İI]?\b";
                 u "\bKOM\.?\s*ŞT[İI]\.?\b" ]) ].

(** [self.abbreviations]. *)
Definition abbreviations : list (pystr * pystr) :=
  [ (u "TIC", u "TİCARET"); (u "SAN", u "SANAYİ"); (u "PAZ", u "PAZARLAMA");
    (u "MÜH", u "MÜHENDİSLİK"); (u "İNŞ", u "İNŞAAT"); (u "BİLİŞ", u "BİLİŞİM");
    (u "TEK", u "TEKNOLOJİ"); (u "TURZ", u "TURİZM"); (u "LOJ", u "LOJİSTİK");
    (u "İTH", u "İTHALAT"); (u "İHR", u "İHRACAT") ].

(** [self.turkish_chars]. *)
Definition turkish_chars : list (pystr * pystr) :=
  [ (u "ı", u "i"); (u "İ", u "I"); (u "ğ", u "g"); (u "Ğ", u "G");
    (u "ü", u "u"); (u "Ü", u "U"); (u "ş", u "s"); (u "Ş", u "S");
    (u "ö", u "o"); (u "Ö", u "O"); (u "ç", u "c"); (u "Ç", u "C") ].

(** [' '.join(name.split())]. *)
Definition collapse_ws (s : pystr) : pystr := join (u " ") (split_ws s).

(** The loop over [self.abbreviations]. *)
Definition expand_abbreviations (name : pystr) : pystr :=
  fold_left (fun name '(abbr, full) =>
               Re.sub false (Re.compile (u "\b" ++ abbr ++ u "\b")) full name)
            abbreviations name.

(** The loop over [self.company_type_patterns]. *)
Definition remove_company_types (name : pystr) : pystr :=
  fold_left (fun name '(_, patterns) =>
               fold_left (fun name pattern =>
                            Re.sub true (Re.compile pattern) [] name)
                         patterns name)
            company_type_patterns name.

(** The characters outside the class [[^\w\s&-]]. *)
Definition kept (c : char) : bool :=
  is_word c || is_space c || (c =? ch "&")%N || (c =? ch "-")%N.

(** [re.sub(r'[^\w\s&-]', ' ', name)]: one character at a time. *)
Definition remove_punctuation (name : pystr) : pystr :=
  List.map (fun c => if kept c then c else ch " ") name.

Definition normalize_company_name (name : pystr) : pystr :=
  match name with
  | [] => []
  | _ :: _ =>
      let name := upper name in
      let name := collapse_ws name in
      let name := expand_abbreviations name in
      let name := remove_company_types name in
      let name := remove_punctuation name in
      let name := collapse_ws name in
      strip name
  end.

Definition normalize_for_matching (name : pystr) : pystr :=
  let name := normalize_company_name name in
  let name :=
    fold_left (fun name '(tr_char, ascii_char) => replace (upper tr_char) ascii_char name)
              turkish_chars name in
  (* re.sub(r'[^A-Z0-9]', '', name) *)
  List.filter (fun c => in_range 65 90 c || in_range 48 57 c) name.

(** The first legal form, in dictionary order, one of whose patterns is found
    in the upper-cased name. *)
Definition extract_company_type (name : pystr) : option CompanyType :=
  let name_upper := upper name in
  let hit '(company_type, patterns) :=
    existsb (fun pattern => Re.search true (Re.compile pattern) name_upper) patterns in
  fst <$> List.find hit company_type_patterns.

Definition normalize_phone (phone : pystr) : pystr :=
  match phone with
  | [] => []
  | _ :: _ =>
      (* re.sub(r'\D', '', phone) *)
      let phone := List.filter is_digit phone in
      if startswith (u "90") phone then u "+" ++ phone
      else if startswith (u "0") phone then u "+90" ++ drop 1 phone
      else if (length phone =? 10)%nat then u "+90" ++ phone
      else if negb (startswith (u "+") phone) then u "+90" ++ phone
      else phone
  end.

Definition normalize_email (email : pystr) : pystr :=
  match email with
  | [] => []
  | _ :: _ =>
      let email := strip (lower email) in
      let email := replace (u "mailto:") [] email in
      if negb (contains (ch "@") email)
         || negb (contains (ch ".") (default [] (split_on (ch "@") email !! 1%nat)))
      then []
      else email
  end.

Definition normalize_url (url : pystr) : pystr :=
  match url with
  | [] => []
  | _ :: _ =>
      let url := strip (lower url) in
      let url :=
        if negb (startswith (u "http://") url || startswith (u "https://") url)
        then u "https://" ++ url else url in
      let url := rstrip_char (ch "/") url in
      Re.sub false (Re.compile (u "://www\.")) (u "://") url
  end.

Definition city_mappings : list (pystr * pystr) :=
  [ (u "Istanbul", u "İstanbul"); (u "Ankara", u "Ankara"); (u "Izmir", u "İzmir");
    (u "Bursa", u "Bursa"); (u "Antalya", u "Antalya"); (u "Adana", u "Adana");
    (u "Konya", u "Konya"); (u "Gaziantep", u "Gaziantep");
    (u "Kocaeli", u "Kocaeli"); (u "Kayseri", u "Kayseri") ].

Definition normalize_city (city : pystr) : pystr :=
  match city with
  | [] => []
  | _ :: _ =>
      let city := title (strip city) in
      match List.find (fun '(variant, _) => Py.eqb (upper city) (upper variant)) city_mappings with
      | Some (_, normalized) => normalized
      | None => city
      end
  end.

Definition address_abbr : list (pystr * pystr) :=
  [ (u "Mah.", u "Mahallesi"); (u "Cad.", u "Caddesi"); (u "Sok.", u "Sokak");
    (u "Apt.", u "Apartmanı"); (u "Blok", u "Blok"); (u "Kat", u "Kat");
    (u "No:", u "No:") ].

(** The loop over [address_abbr]. *)
Definition expand_address (address : pystr) : pystr :=
  fold_left (fun address '(abbr, full) => replace abbr full address)
            address_abbr address.

Definition normalize_address (address : pystr) : pystr :=
  match address with
  | [] => []
  | _ :: _ =>
      let address := collapse_ws address in
      let address := expand_address address in
      strip address
  end.

End CompanyNormalizer.

(** Record-level normalization.  The Python method overwrites the fields of
    its argument and returns it; here the updated record is the result. *)

Module RecordNormalizer.
Import CompanyNormalizer.

Definition normalize_identity (i : CompanyIdentity) : CompanyIdentity :=
  (* the legal name is overwritten first; the later reads see the new value *)
  let legal_name' := normalize_company_name (legal_name i) in
  let trade_name' :=
    if truthy (trade_name i) then Some (normalize_company_name (of_opt (trade_name i)))
    else trade_name i in
  let city' :=
    if truthy (city i) then Some (normalize_city (of_opt (city i))) else city i in
  let company_type' :=
    match company_type i with
    | Some t => Some t
    | None => extract_company_type legal_name'
    end in
  {| legal_name := legal_name'; trade_name := trade_name';
     company_type := company_type'; country := country i; city := city';
     district := district i; registration_hint := registration_hint i |}.

Definition normalize_web_presence (w : WebPresence) : WebPresence :=
  let website_url' :=
    if truthy (website_url w) then Some (normalize_url (of_opt (website_url w)))
    else website_url w in
  let social_links' :=
    List.map (fun '(platform, link) =>
           (platform, if truthy link then Some (normalize_url (of_opt link)) else link))
        (social_links w) in
  {| website_url := website_url'; website_status_code := website_status_code w;
     ssl_issuer := ssl_issuer w; first_seen_ts := first_seen_ts w;
     last_seen_ts := last_seen_ts w; social_links := social_links';
     google_places := google_places w |}.

(** [[f(x) for x in xs if f(x)]] *)
Definition map_nonempty (f : pystr -> pystr) (xs : list pystr) : list pystr :=
  List.filter (fun y => negb (Py.eqb y [])) (List.map f xs).

Definition normalize_contacts (c : ContactInfo) : ContactInfo :=
  {| emails_public := map_nonempty normalize_email (emails_public c);
     phones_public := map_nonempty normalize_phone (phones_public c);
     address_public :=
       if truthy (address_public c)
       then Some (normalize_address (of_opt (address_public c)))
       else address_public c |}.

Definition normalize_company (company : UnifiedCompany) : UnifiedCompany :=
  {| id := id company;
     identity := normalize_identity (identity company);
     web_presence := normalize_web_presence <$> web_presence company;
     contacts := normalize_contacts <$> contacts company;
     business_meta := business_meta company;
     provenance := provenance company;
     canonical_id := canonical_id company;
     confidence_score := confidence_score company;
     gdpr_suppressed := gdpr_suppressed company |}.

Definition normalize_batch (companies : list UnifiedCompany) : list UnifiedCompany :=
  List.map normalize_company companies.

End RecordNormalizer.

(** ** Dictionaries in insertion order *)

Section Dict.
Context {K V : Type} `{EqDecision K}.

Fixpoint dict_get (k : K) (d : list (K * V)) : option V :=
  match d with
  | [] => None
  | (k', v) :: d' => if decide (k = k') then Some v else dict_get k d'
  end.

(** [d[k] = v]: an existing key keeps its position, a new one goes last. *)
Fixpoint dict_set (k : K) (v : V) (d : list (K * V)) : list (K * V) :=
  match d with
  | [] => [(k, v)]
  | (k', v') :: d' =>
      if decide (k = k') then (k, v) :: d' else (k', v') :: dict_set k v d'
  end.

Definition dict_values (d : list (K * V)) : list V := List.map snd d.

End Dict.

(** ** The external comparators *)

(** [fuzz.ratio] and [fuzz.token_sort_ratio] of [fuzzywuzzy]: integers, by
    the library's contract between 0 and 100. *)
Class FuzzLib := {
  fuzz_ratio : pystr -> pystr -> Z;
  fuzz_token_sort_ratio : pystr -> pystr -> Z
}.

(** A comparator with the Levenshtein-ratio semantics that the library
    documents: twice the length of a longest common subsequence over the sum
    of the lengths, as a rounded percentage. *)
(** One row of the table of longest-common-subsequence lengths: [below] holds
    the lengths for the rest of the first string against every suffix of
    [ys], the result those for [x] followed by that rest. *)
Fixpoint lcs_row (x : char) (ys : pystr) (below : list nat) : list nat :=
  match ys, below with
  | y :: ys', b :: below' =>
      let rest := lcs_row x ys' below' in
      (if (x =? y)%N then S (hd 0%nat below') else Nat.max b (hd 0%nat rest)) :: rest
  | _, _ => [0%nat]
  end.

Definition lcs_table (xs ys : pystr) : list nat :=
  fold_right (fun x row => lcs_row x ys row) (repeat 0%nat (S (length ys))) xs.

Definition lcs_length (xs ys : pystr) : nat := hd 0%nat (lcs_table xs ys).

(** The recurrence that the table computes. *)
Fixpoint lcs (xs ys : pystr) : nat :=
  match xs with
  | [] => 0%nat
  | x :: xs' =>
      (fix against (ys : pystr) : nat :=
         match ys with
         | [] => 0%nat
         | y :: ys' =>
             if (x =? y)%N then S (lcs xs' ys')
             else Nat.max (lcs xs' ys) (against ys')
         end) ys
  end.

Fixpoint suffixes (ys : pystr) : list pystr :=
  ys :: match ys with [] => [] | _ :: ys' => suffixes ys' end.

Definition lev_ratio (a b : pystr) : Z :=
  if Py.eqb a b then 100
  else match a, b with
       | [], _ | _, [] => 0
       | _, _ =>
           let total := Z.of_nat (length a + length b) in
           (* round(100 * 2 * lcs / total), halves to even as Python's round *)
           let n := 200 * Z.of_nat (lcs_length a b) in
           let q := n / total in
           let r := n mod total in
           if 2 * r <? total then q
           else if total <? 2 * r then q + 1
           else if Z.even q then q else q + 1
       end.

(** Insertion sort of the tokens in code-point order ([sorted]). *)
Fixpoint str_leb (a b : pystr) : bool :=
  match a, b with
  | [], _ => true
  | _ :: _, [] => false
  | x :: a', y :: b' => if (x <? y)%N then true else if (y <? x)%N then false else str_leb a' b'
  end.

Fixpoint insert_sorted (t : pystr) (ts : list pystr) : list pystr :=
  match ts with
  | [] => [t]
  | t' :: ts' => if str_leb t t' then t :: ts else t' :: insert_sorted t ts'
  end.

(** [utils.full_process(s, force_ascii=True)]: non-ASCII characters are
    dropped, what is neither a letter nor a digit becomes a blank, the rest is
    lowered and stripped. *)
Definition full_process (s : pystr) : pystr :=
  let s := List.filter (fun c => (c <? 128)%N) s in
  let s := List.map (fun c => if in_range 48 57 c || in_range 65 90 c || in_range 97 122 c || (c =? 95)%N
                         then c else ch " ") s in
  strip (lower s).

Definition process_and_sort (s : pystr) : pystr :=
  strip (join (u " ") (fold_right insert_sorted [] (split_ws (full_process s)))).

Definition lev_token_sort_ratio (a b : pystr) : Z :=
  lev_ratio (process_and_sort a) (process_and_sort b).

Definition lev_fuzz : FuzzLib :=
  {| fuzz_ratio := lev_ratio; fuzz_token_sort_ratio := lev_token_sort_ratio |}.

(** ** The resolver ([src/deduplication/entity_resolver.py]) *)

(** The attributes that [EntityResolver.__init__] takes. *)
Record EntityResolver := {
  exact_threshold : Q;
  review_threshold : Q;
  min_threshold : Q
}.

(** The defaults of the constructor. *)
Definition default_resolver : EntityResolver :=
  {| exact_threshold := 95 # 100; review_threshold := 85 # 100;
     min_threshold := 70 # 100 |}.

(** [self.field_weights], the same for every resolver. *)
Definition field_weights : list (pystr * Q) :=
  [ (u "domain", 35 # 100); (u "legal_name", 25 # 100); (u "phone", 15 # 100);
    (u "email", 15 # 100); (u "address", 10 # 100) ].

Inductive Method := m_exact | m_fuzzy | m_token | m_unknown.

(** [max(xs)]: the first of the largest elements. *)
Definition py_max (x : Q) (xs : list Q) : Q :=
  fold_left (fun m y => if Qle_bool y m then m else y) xs x.

(** [max(xs) if xs else 0.0] *)
Definition max_or_zero (xs : list Q) : Q :=
  match xs with
  | [] => 0%Q
  | x :: xs' => py_max x xs'
  end.

(** The scores of the exact comparisons: 0 or 1. *)
Definition zero_one (q : Q) : Prop := q = 0%Q \/ q = 1%Q.

(** A score in the unit interval. *)
Definition unit_score (q : Q) : Prop := (0 <= q <= 1)%Q.

(** [str(url).split('/')[2].replace('www.', '')]; [IndexError] when the URL
    has fewer than two slashes. *)
Definition url_domain (url : pystr) : option pystr :=
  replace (u "www.") [] <$> (split_on (ch "/") url !! 2%nat).

(** What the type [HttpUrl] of [website_url] guarantees: a scheme followed by
    "//" and a host, hence at least two slashes. *)
Definition url_ok (company : UnifiedCompany) : Prop :=
  match web_presence company with
  | Some w =>
      truthy (website_url w) = true ->
      (2 <= length (List.filter (N.eqb (ch "/")) (of_opt (website_url w))))%nat
  | None => True
  end.

Section Resolver.
Context `{FuzzLib}.
Import CompanyNormalizer.
Local Open Scope Q_scope.

Definition create_blocking_key (company : UnifiedCompany) : option pystr :=
  let keys := [] in
  (* domain *)
  keys ←
    match web_presence company with
    | Some w =>
        if truthy (website_url w) then
          domain ← url_domain (of_opt (website_url w));
          Some (keys ++ [u "domain:" ++ domain])
        else Some keys
    | None => Some keys
    end;
  (* name prefix *)
  let name_normalized := normalize_for_matching (legal_name (identity company)) in
  let keys :=
    if (3 <=? length name_normalized)%nat
    then keys ++ [u "name:" ++ take 3 name_normalized] else keys in
  (* phone prefix, first phone only *)
  let keys :=
    match contacts company with
    | Some c =>
        fold_left (fun keys phone =>
                     let phone_normalized := normalize_phone phone in
                     if (6 <=? length phone_normalized)%nat
                     then keys ++ [u "phone:" ++ take 6 phone_normalized] else keys)
                  (take 1 (phones_public c)) keys
    | None => keys
    end in
  (* city *)
  let keys :=
    if truthy (city (identity company))
    then keys ++ [u "city:" ++ upper (of_opt (city (identity company)))] else keys in
  Some (match keys with [] => u "unknown" | _ :: _ => join (u "|") keys end).

Definition calculate_field_similarity (value1 value2 : pystr) (method : Method) : Q :=
  match value1, value2 with
  | [], _ | _, [] => 0
  | _, _ =>
      match method with
      | m_exact => if Py.eqb (lower value1) (lower value2) then 1 else 0
      | m_fuzzy => fuzz_ratio (lower value1) (lower value2) # 100
      | m_token => fuzz_token_sort_ratio (lower value1) (lower value2) # 100
      | m_unknown => 0
      end
  end.

Definition domain_score (company1 company2 : UnifiedCompany) : option Q :=
  match web_presence company1, web_presence company2 with
  | Some w1, Some w2 =>
      if truthy (website_url w1) && truthy (website_url w2) then
        domain1 ← url_domain (of_opt (website_url w1));
        domain2 ← url_domain (of_opt (website_url w2));
        Some (calculate_field_similarity domain1 domain2 m_exact)
      else Some 0
  | _, _ => Some 0
  end.

Definition name_score (company1 company2 : UnifiedCompany) : Q :=
  let name1 := normalize_company_name (legal_name (identity company1)) in
  let name2 := normalize_company_name (legal_name (identity company2)) in
  calculate_field_similarity name1 name2 m_token.

Definition phone_scores (c1 c2 : ContactInfo) : list Q :=
  flat_map (fun phone1 =>
    flat_map (fun phone2 =>
      let phone1_norm := normalize_phone phone1 in
      let phone2_norm := normalize_phone phone2 in
      if negb (Py.eqb phone1_norm []) && negb (Py.eqb phone2_norm [])
      then [calculate_field_similarity phone1_norm phone2_norm m_exact]
      else [])
      (phones_public c2))
    (phones_public c1).

(** [email.split('@')[1]]; a normalized e-mail that is not empty has an
    ["@"], so the index exists (lemma [normalize_email_has_domain]). *)
Definition email_domain (email_norm : pystr) : pystr :=
  default [] (split_on (ch "@") email_norm !! 1%nat).

Definition email_scores (c1 c2 : ContactInfo) : list Q :=
  flat_map (fun email1 =>
    flat_map (fun email2 =>
      let email1_norm := normalize_email email1 in
      let email2_norm := normalize_email email2 in
      if negb (Py.eqb email1_norm []) && negb (Py.eqb email2_norm [])
      then [if Py.eqb (email_domain email1_norm) (email_domain email2_norm)
            then 1 else 0]
      else [])
      (emails_public c2))
    (emails_public c1).

Definition phone_score (company1 company2 : UnifiedCompany) : Q :=
  match contacts company1, contacts company2 with
  | Some c1, Some c2 => max_or_zero (phone_scores c1 c2)
  | _, _ => max_or_zero []
  end.

Definition email_score (company1 company2 : UnifiedCompany) : Q :=
  match contacts company1, contacts company2 with
  | Some c1, Some c2 => max_or_zero (email_scores c1 c2)
  | _, _ => max_or_zero []
  end.

Definition address_score (company1 company2 : UnifiedCompany) : Q :=
  match contacts company1, contacts company2 with
  | Some c1, Some c2 =>
      if truthy (address_public c1) && truthy (address_public c2) then
        let addr1 := normalize_address (of_opt (address_public c1)) in
        let addr2 := normalize_address (of_opt (address_public c2)) in
        calculate_field_similarity addr1 addr2 m_fuzzy
      else 0
  | _, _ => 0
  end.

(** The loop that accumulates [total_score] and [total_weight]. *)
Definition weighted_totals (field_scores : list (pystr * Q)) : Q * Q :=
  fold_left (fun '(total_score, total_weight) '(field, score) =>
               let weight := default 0 (dict_get field field_weights) in
               (total_score + score * weight, total_weight + weight))
            field_scores (0, 0).

Definition calculate_company_similarity (company1 company2 : UnifiedCompany)
    : option (Q * list (pystr * Q)) :=
  domain ← domain_score company1 company2;
  let field_scores :=
    [ (u "domain", domain);
      (u "legal_name", name_score company1 company2);
      (u "phone", phone_score company1 company2);
      (u "email", email_score company1 company2);
      (u "address", address_score company1 company2) ] in
  let '(total_score, total_weight) := weighted_totals field_scores in
  let final_score :=
    if negb (Qle_bool total_weight 0) then total_score / total_weight else 0 in
  Some (final_score, field_scores).

(** [company.id or str(i)] *)
Definition company_key (i : nat) (company : UnifiedCompany) : pystr :=
  if truthy (id company) then of_opt (id company) else str_of_nat i.

Fixpoint fold_leftM {A B : Type} (f : A -> B -> option A) (l : list B) (a : A) : option A :=
  match l with
  | [] => Some a
  | b :: l' => a' ← f a b; fold_leftM f l' a'
  end.

(** The first loop of [find_duplicates]: the blocking index, from position
    [i] on. *)
Fixpoint build_blocking_index (i : nat) (companies : list UnifiedCompany)
    (blocking_index : list (pystr * list (nat * UnifiedCompany)))
    : option (list (pystr * list (nat * UnifiedCompany))) :=
  match companies with
  | [] => Some blocking_index
  | company :: rest =>
      blocking_key ← create_blocking_key company;
      let block := default [] (dict_get blocking_key blocking_index) in
      build_blocking_index (S i) rest
        (dict_set blocking_key (block ++ [(i, company)]) blocking_index)
  end.

Variable self : EntityResolver.

(** The body of the innermost loop of [find_duplicates]. *)
Definition compare_pair (st : gset (nat * nat) * list CompanyMatch)
    (p1 p2 : nat * UnifiedCompany) : option (gset (nat * nat) * list CompanyMatch) :=
  let '(processed_pairs, matches) := st in
  let '(idx1, company1) := p1 in
  let '(idx2, company2) := p2 in
  let pair_key := (Nat.min idx1 idx2, Nat.max idx1 idx2) in
  if decide (pair_key ∈ processed_pairs) then Some st
  else
    let processed_pairs := processed_pairs ∪ {[ pair_key ]} in
    '(score, field_scores) ← calculate_company_similarity company1 company2;
    if Qle_bool (min_threshold self) score then
      let match_type := if Qle_bool (exact_threshold self) score then exact else fuzzy in
      let requires_review :=
        Qle_bool (review_threshold self) score
        && negb (Qle_bool (exact_threshold self) score) in
      m ← new_CompanyMatch (company_key idx1 company1) (company_key idx2 company2)
            score field_scores match_type requires_review;
      Some (processed_pairs, matches ++ [m])
    else Some (processed_pairs, matches).

(** The loop body on a pair of enumerated records. *)
Definition compare_step (st : gset (nat * nat) * list CompanyMatch)
    (pair : (nat * UnifiedCompany) * (nat * UnifiedCompany)) :=
  compare_pair st (fst pair) (snd pair).

(** [for i, (idx1, company1) in enumerate(block): for ... in block[i+1:]] *)
Fixpoint compare_block (block : list (nat * UnifiedCompany))
    (st : gset (nat * nat) * list CompanyMatch)
    : option (gset (nat * nat) * list CompanyMatch) :=
  match block with
  | [] => Some st
  | p1 :: rest =>
      st' ← fold_leftM (fun st p2 => compare_pair st p1 p2) rest st;
      compare_block rest st'
  end.

Definition find_duplicates (companies : list UnifiedCompany) : option (list CompanyMatch) :=
  blocking_index ← build_blocking_index 0 companies [];
  st ← fold_leftM (fun st '(_, block_companies) => compare_block block_companies st)
         blocking_index (∅, []);
  Some (snd st).

(** *** Merging *)

(** [list(set(xs) | set(ys))]: the order in which a Python set is iterated
    is not specified; the order of first occurrence is taken here. *)
Definition set_union_list (xs ys : list pystr) : list pystr := remove_dups (xs ++ ys).

Definition merge_identity (merged other : CompanyIdentity) : CompanyIdentity :=
  {| legal_name := legal_name merged;
     trade_name :=
       if negb (truthy (trade_name merged)) && truthy (trade_name other)
       then trade_name other else trade_name merged;
     company_type :=
       match company_type merged, company_type other with
       | None, Some t => Some t
       | t, _ => t
       end;
     country := country merged;
     city :=
       if negb (truthy (city merged)) && truthy (city other)
       then city other else city merged;
     district :=
       if negb (truthy (district merged)) && truthy (district other)
       then district other else district merged;
     registration_hint := registration_hint merged |}.

(** [d.update(e)] *)
Definition dict_update {V : Type} (d e : list (pystr * V)) : list (pystr * V) :=
  fold_left (fun d '(k, v) => dict_set k v d) e d.

Definition nonempty_dict {V : Type} (o : option (list V)) : bool :=
  match o with Some (_ :: _) => true | _ => false end.

Definition merge_web_presence (merged other : WebPresence) : WebPresence :=
  {| website_url :=
       if negb (truthy (website_url merged)) && truthy (website_url other)
       then website_url other else website_url merged;
     website_status_code := website_status_code merged;
     ssl_issuer := ssl_issuer merged;
     first_seen_ts := first_seen_ts merged;
     last_seen_ts := last_seen_ts merged;
     social_links :=
       match social_links other with
       | [] => social_links merged
       | _ :: _ => dict_update (social_links merged) (social_links other)
       end;
     google_places :=
       if nonempty_dict (google_places other) && negb (nonempty_dict (google_places merged))
       then google_places other else google_places merged |}.

Definition merge_contacts (merged other : ContactInfo) : ContactInfo :=
  {| emails_public := set_union_list (emails_public merged) (emails_public other);
     phones_public := set_union_list (phones_public merged) (phones_public other);
     address_public :=
       if truthy (address_public other) then
         if negb (truthy (address_public merged)) then address_public other
         else if (length (of_opt (address_public merged))
                    <? length (of_opt (address_public other)))%nat
              then address_public other
              else address_public merged
       else address_public merged |}.

Definition truthy_int (o : option Z) : bool :=
  match o with Some n => negb (n =? 0)%Z | None => false end.

Definition merge_business_meta (merged other : BusinessMeta) : BusinessMeta :=
  {| industry_naics_guess :=
       if negb (truthy (industry_naics_guess merged)) && truthy (industry_naics_guess other)
       then industry_naics_guess other else industry_naics_guess merged;
     sic_guess :=
       if negb (truthy (sic_guess merged)) && truthy (sic_guess other)
       then sic_guess other else sic_guess merged;
     headcount_band_guess :=
       if negb (truthy (headcount_band_guess merged)) && truthy (headcount_band_guess other)
       then headcount_band_guess other else headcount_band_guess merged;
     founding_year_guess :=
       if negb (truthy_int (founding_year_guess merged)) && truthy_int (founding_year_guess other)
       then founding_year_guess other else founding_year_guess merged;
     keywords := take 50 (set_union_list (keywords merged) (keywords other)) |}.

(** [merge_companies] as a function of the values of its two arguments; the
    objects and their sharing are the subject of the module [Store]. *)
Definition merge_companies (company1 company2 : UnifiedCompany) : UnifiedCompany :=
  {| id := id company1;
     identity := merge_identity (identity company1) (identity company2);
     web_presence :=
       match web_presence company2, web_presence company1 with
       | Some w2, Some w1 => Some (merge_web_presence w1 w2)
       | Some w2, None => Some w2
       | None, w1 => w1
       end;
     contacts :=
       match contacts company2, contacts company1 with
       | Some c2, Some c1 => Some (merge_contacts c1 c2)
       | Some c2, None => Some c2
       | None, c1 => c1
       end;
     business_meta :=
       match business_meta company2, business_meta company1 with
       | Some b2, Some b1 => Some (merge_business_meta b1 b2)
       | Some b2, None => Some b2
       | None, b1 => b1
       end;
     provenance := provenance company1 ++ provenance company2;
     canonical_id := canonical_id company1;
     confidence_score := (confidence_score company1 + confidence_score company2) / 2;
     gdpr_suppressed := gdpr_suppressed company1 |}.

(** *** Merge groups *)

(** Truthiness of [merge_groups.get(id)]: [None] and the group number [0]
    are false. *)
Definition group_truthy (g : option Z) : bool :=
  match g with Some n => negb (n =? 0)%Z | None => false end.

(** [max(merge_groups.values(), default=-1)] *)
Definition max_group (merge_groups : list (pystr * Z)) : Z :=
  match dict_values merge_groups with
  | [] => (-1)%Z
  | g :: gs => fold_left Z.max gs g
  end.

(** The body of the loop over the matches in [resolve_duplicates]. *)
Definition group_step (merge_groups : list (pystr * Z)) (m : CompanyMatch)
    : list (pystr * Z) :=
  if Qle_bool (exact_threshold self) (match_score m) && negb (requires_review m) then
    let id_a := company_a_id m in
    let id_b := company_b_id m in
    let group_a := dict_get id_a merge_groups in
    let group_b := dict_get id_b merge_groups in
    if group_truthy group_a && group_truthy group_b then
      if negb (bool_decide (group_a = group_b)) then
        List.map (fun '(company_id, g) =>
               if bool_decide (Some g = group_b)
               then (company_id, default 0%Z group_a) else (company_id, g))
            merge_groups
      else merge_groups
    else if group_truthy group_a then dict_set id_b (default 0%Z group_a) merge_groups
    else if group_truthy group_b then dict_set id_a (default 0%Z group_b) merge_groups
    else
      let new_group := (max_group merge_groups + 1)%Z in
      dict_set id_b new_group (dict_set id_a new_group merge_groups)
  else merge_groups.

Definition build_merge_groups (matches : list CompanyMatch) : list (pystr * Z) :=
  fold_left group_step matches [].

(** [{company.id or str(i): company for i, company in enumerate(companies)}] *)
Fixpoint build_company_index (i : nat) (companies : list UnifiedCompany)
    (index : list (pystr * UnifiedCompany)) : list (pystr * UnifiedCompany) :=
  match companies with
  | [] => index
  | company :: rest =>
      build_company_index (S i) rest (dict_set (company_key i company) company index)
  end.

(** The loop that folds the members of each group; [company_index[...]]
    raises [KeyError] on a missing key. *)
Definition merge_group_members (company_index : list (pystr * UnifiedCompany))
    (merge_groups : list (pystr * Z)) : option (list (Z * UnifiedCompany)) :=
  fold_leftM (fun merged_companies '(company_id, group_id) =>
                company ← dict_get company_id company_index;
                match dict_get group_id merged_companies with
                | None => Some (dict_set group_id company merged_companies)
                | Some current =>
                    Some (dict_set group_id (merge_companies current company)
                            merged_companies)
                end)
             merge_groups [].

Fixpoint non_duplicates (i : nat) (companies : list UnifiedCompany)
    (merge_groups : list (pystr * Z)) : list UnifiedCompany :=
  match companies with
  | [] => []
  | company :: rest =>
      match dict_get (company_key i company) merge_groups with
      | None => company :: non_duplicates (S i) rest merge_groups
      | Some _ => non_duplicates (S i) rest merge_groups
      end
  end.

Definition resolve_duplicates (companies : list UnifiedCompany) (auto_merge : bool)
    : option (list UnifiedCompany * list CompanyMatch) :=
  matches ← find_duplicates companies;
  match matches with
  | [] => Some (companies, matches)
  | _ :: _ =>
      if negb auto_merge then Some (companies, matches)
      else
        let merge_groups := build_merge_groups matches in
        let company_index := build_company_index 0 companies [] in
        merged_companies ← merge_group_members company_index merge_groups;
        let result_companies :=
          dict_values merged_companies ++ non_duplicates 0 companies merge_groups in
        Some (result_companies, matches)
  end.

End Resolver.

(** ** Objects and sharing: [merge_companies] on a store

    A company and each of its four sub-models is an object of its own, held
    by reference, so that two companies can share a sub-model.  Lists and
    dictionaries are kept inside the object that owns them: the resolver only
    rebinds them or updates those of a deep copy. *)

Module Store.

Definition loc := positive.

Record CompanyObj := {
  o_id : option pystr;
  o_identity : loc;
  o_web_presence : option loc;
  o_contacts : option loc;
  o_business_meta : option loc;
  o_provenance : list DataProvenance;
  o_canonical_id : option pystr;
  o_confidence_score : Q;
  o_gdpr_suppressed : bool
}.

Inductive obj :=
  | OCompany (c : CompanyObj)
  | OIdentity (i : CompanyIdentity)
  | OWeb (w : WebPresence)
  | OContacts (c : ContactInfo)
  | OMeta (b : BusinessMeta).

Abbreviation store := (gmap loc obj).

(** Computations that read and write the store and may raise. *)
Definition M (A : Type) : Type := store -> option (A * store).

#[export] Instance M_ret : MRet M := fun _ a h => Some (a, h).
#[export] Instance M_bind : MBind M := fun _ _ f m h =>
  match m h with
  | Some (a, h') => f a h'
  | None => None
  end.

Definition raise {A : Type} : M A := fun _ => None.

(** A new object at an unused location. *)
Definition alloc (o : obj) : M loc := fun h =>
  let l := fresh (dom h) in Some (l, <[l := o]> h).

(** Assignment to the attributes of the object at [l]. *)
Definition write (l : loc) (o : obj) : M unit := fun h =>
  match h !! l with
  | Some _ => Some (tt, <[l := o]> h)
  | None => None
  end.

Definition read_company (l : loc) : M CompanyObj := fun h =>
  match h !! l with Some (OCompany c) => Some (c, h) | _ => None end.
Definition read_identity (l : loc) : M CompanyIdentity := fun h =>
  match h !! l with Some (OIdentity i) => Some (i, h) | _ => None end.
Definition read_web (l : loc) : M WebPresence := fun h =>
  match h !! l with Some (OWeb w) => Some (w, h) | _ => None end.
Definition read_contacts (l : loc) : M ContactInfo := fun h =>
  match h !! l with Some (OContacts c) => Some (c, h) | _ => None end.
Definition read_meta (l : loc) : M BusinessMeta := fun h =>
  match h !! l with Some (OMeta b) => Some (b, h) | _ => None end.

(** Copy of an optional sub-model into a new object. *)
Definition copy_opt {A : Type} (rd : loc -> M A) (mk : A -> obj) (o : option loc)
    : M (option loc) :=
  match o with
  | Some l => a ← rd l; l' ← alloc (mk a); mret (Some l')
  | None => mret None
  end.

(** [company.copy(deep=True)] *)
Definition copy_deep (l : loc) : M loc :=
  c ← read_company l;
  i ← read_identity (o_identity c);
  li ← alloc (OIdentity i);
  lw ← copy_opt read_web OWeb (o_web_presence c);
  lc ← copy_opt read_contacts OContacts (o_contacts c);
  lb ← copy_opt read_meta OMeta (o_business_meta c);
  alloc (OCompany {| o_id := o_id c; o_identity := li; o_web_presence := lw;
                     o_contacts := lc; o_business_meta := lb;
                     o_provenance := o_provenance c;
                     o_canonical_id := o_canonical_id c;
                     o_confidence_score := o_confidence_score c;
                     o_gdpr_suppressed := o_gdpr_suppressed c |}).

Definition set_web_presence (c : CompanyObj) (l : option loc) : CompanyObj :=
  {| o_id := o_id c; o_identity := o_identity c; o_web_presence := l;
     o_contacts := o_contacts c; o_business_meta := o_business_meta c;
     o_provenance := o_provenance c; o_canonical_id := o_canonical_id c;
     o_confidence_score := o_confidence_score c;
     o_gdpr_suppressed := o_gdpr_suppressed c |}.

Definition set_contacts (c : CompanyObj) (l : option loc) : CompanyObj :=
  {| o_id := o_id c; o_identity := o_identity c; o_web_presence := o_web_presence c;
     o_contacts := l; o_business_meta := o_business_meta c;
     o_provenance := o_provenance c; o_canonical_id := o_canonical_id c;
     o_confidence_score := o_confidence_score c;
     o_gdpr_suppressed := o_gdpr_suppressed c |}.

Definition set_business_meta (c : CompanyObj) (l : option loc) : CompanyObj :=
  {| o_id := o_id c; o_identity := o_identity c; o_web_presence := o_web_presence c;
     o_contacts := o_contacts c; o_business_meta := l;
     o_provenance := o_provenance c; o_canonical_id := o_canonical_id c;
     o_confidence_score := o_confidence_score c;
     o_gdpr_suppressed := o_gdpr_suppressed c |}.

Definition set_provenance_confidence (c : CompanyObj)
    (p : list DataProvenance) (s : Q) : CompanyObj :=
  {| o_id := o_id c; o_identity := o_identity c; o_web_presence := o_web_presence c;
     o_contacts := o_contacts c; o_business_meta := o_business_meta c;
     o_provenance := p; o_canonical_id := o_canonical_id c;
     o_confidence_score := s; o_gdpr_suppressed := o_gdpr_suppressed c |}.

(** One of the three blocks "if company2.x: if not merged.x: merged.x =
    company2.x else: ..." of [merge_companies]: a missing sub-model of
    [merged] is bound to the object of [company2] itself, a present one is
    updated in place. *)
Definition merge_sub {A : Type} (rd : loc -> M A) (mk : A -> obj)
    (get : CompanyObj -> option loc) (set : CompanyObj -> option loc -> CompanyObj)
    (combine : A -> A -> A) (merged : loc) (company2 : CompanyObj) : M unit :=
  match get company2 with
  | Some l2 =>
      m ← read_company merged;
      match get m with
      | None => write merged (OCompany (set m (Some l2)))
      | Some lm =>
          am ← rd lm;
          a2 ← rd l2;
          write lm (mk (combine am a2))
      end
  | None => mret tt
  end.

Definition merge_companies (company1 company2 : loc) : M loc :=
  merged ← copy_deep company1;
  c2 ← read_company company2;
  (* identity *)
  m ← read_company merged;
  im ← read_identity (o_identity m);
  i2 ← read_identity (o_identity c2);
  _ ← write (o_identity m) (OIdentity (merge_identity im i2));
  (* web presence, contacts, business meta *)
  _ ← merge_sub read_web OWeb o_web_presence set_web_presence
        merge_web_presence merged c2;
  _ ← merge_sub read_contacts OContacts o_contacts set_contacts
        merge_contacts merged c2;
  _ ← merge_sub read_meta OMeta o_business_meta set_business_meta
        merge_business_meta merged c2;
  (* provenance and confidence *)
  m ← read_company merged;
  _ ← write merged
        (OCompany (set_provenance_confidence m
                     (o_provenance m ++ o_provenance c2)
                     ((o_confidence_score m + o_confidence_score c2) / 2)));
  mret merged.

(** Folding further records into a merged one, as [resolve_duplicates] does
    for the members of a group. *)
Fixpoint merge_all (base : loc) (others : list loc) : M loc :=
  match others with
  | [] => mret base
  | l :: rest => merged ← merge_companies base l; merge_all merged rest
  end.

(** The value of the company at [l]: the record with its sub-models read
    through the references. *)
Definition read_opt {A : Type} (rd : loc -> M A) (o : option loc) (h : store)
    : option (option A) :=
  match o with
  | Some l => '(a, _) ← rd l h; Some (Some a)
  | None => Some None
  end.

Definition snapshot (h : store) (l : loc) : option UnifiedCompany :=
  '(c, _) ← read_company l h;
  '(i, _) ← read_identity (o_identity c) h;
  w ← read_opt read_web (o_web_presence c) h;
  ct ← read_opt read_contacts (o_contacts c) h;
  b ← read_opt read_meta (o_business_meta c) h;
  Some {| id := o_id c; identity := i; web_presence := w; contacts := ct;
          business_meta := b; provenance := o_provenance c;
          canonical_id := o_canonical_id c;
          confidence_score := o_confidence_score c;
          gdpr_suppressed := o_gdpr_suppressed c |}.

(** *** Vocabulary for the statements about the store *)

(** The optional reference [o] leads to the optional value [v]. *)
Definition points_to {A : Type} (mk : A -> obj) (h : store)
    (o : option loc) (v : option A) : Prop :=
  match o, v with
  | Some l, Some a => h !! l = Some (mk a)
  | None, None => True
  | _, _ => False
  end.

(** The reference [o], if any, is not a location of [h0]. *)
Definition fresh_in (h0 : store) (o : option loc) : Prop :=
  match o with Some l => h0 !! l = None | None => True end.

(** The company object at [l] and the objects it refers to hold the record
    [v]. *)
Definition represents (h : store) (l : loc) (v : UnifiedCompany) : Prop :=
  exists o,
    h !! l = Some (OCompany o)
    /\ h !! o_identity o = Some (OIdentity (identity v))
    /\ points_to OWeb h (o_web_presence o) (web_presence v)
    /\ points_to OContacts h (o_contacts o) (contacts v)
    /\ points_to OMeta h (o_business_meta o) (business_meta v)
    /\ o_id o = id v /\ o_provenance o = provenance v
    /\ o_canonical_id o = canonical_id v
    /\ o_confidence_score o = confidence_score v
    /\ o_gdpr_suppressed o = gdpr_suppressed v.

(** The value of a sub-model after one of the three merge blocks. *)
Definition merge_opt {A : Type} (combine : A -> A -> A) (v1 v2 : option A) : option A :=
  match v2, v1 with
  | Some b, Some a => Some (combine a b)
  | Some b, None => Some b
  | None, a => a
  end.

End Store.

(** ** Statements of the specification that the code does not satisfy as
    written, transcribed for comparison *)

Module Spec.
Import CompanyNormalizer.



















End Spec.

(** ** Vocabulary for the statements about [find_duplicates] *)

(** [enumerate(companies)], counting from [i]. *)
Fixpoint enumerate_from (i : nat) (companies : list UnifiedCompany)
    : list (nat * UnifiedCompany) :=
  match companies with
  | [] => []
  | c :: rest => (i, c) :: enumerate_from (S i) rest
  end.

(** The pairs that the two nested loops over a block visit, in order. *)
Fixpoint block_pairs (block : list (nat * UnifiedCompany))
    : list ((nat * UnifiedCompany) * (nat * UnifiedCompany)) :=
  match block with
  | [] => []
  | p1 :: rest => List.map (fun p2 => (p1, p2)) rest ++ block_pairs rest
  end.

Definition index_pairs (blocking_index : list (pystr * list (nat * UnifiedCompany)))
    : list ((nat * UnifiedCompany) * (nat * UnifiedCompany)) :=
  flat_map (fun '(_, block) => block_pairs block) blocking_index.

(** The record of an enumerated pair has the blocking key [k]. *)
Definition has_key (k : pystr) (p : nat * UnifiedCompany) : bool :=
  bool_decide (create_blocking_key (snd p) = Some k).

(** [p1] stands before [p2] in [l]. *)
Definition before {A : Type} (l : list A) (p1 p2 : A) : Prop :=
  exists l1 l2 l3, l = l1 ++ p1 :: l2 ++ p2 :: l3.

(** The classification of an emitted candidate, read off its score. *)
Definition classified (self : EntityResolver) (m : CompanyMatch) : Prop :=
  (min_threshold self <= match_score m)%Q
  /\ (match_type m = exact <-> (exact_threshold self <= match_score m)%Q)
  /\ (match_type m = fuzzy <->
      (min_threshold self <= match_score m)%Q /\ (match_score m < exact_threshold self)%Q)
  /\ (requires_review m = true <->
      (review_threshold self <= match_score m)%Q /\ (match_score m < exact_threshold self)%Q).

(** A candidate for the records at positions [i] and [j] is in the list. *)
Definition emitted (matches : list CompanyMatch) (i : nat) (c1 : UnifiedCompany)
    (j : nat) (c2 : UnifiedCompany) (s : Q) (fs : list (pystr * Q)) : Prop :=
  exists m, In m matches
    /\ company_a_id m = company_key i c1 /\ company_b_id m = company_key j c2
    /\ match_score m = s /\ match_fields m = fs.

(** ** Vocabulary for the statements about [str.replace] *)

(** [x in s] for strings: [x] occurs in [s]. *)
Fixpoint occurs (x s : pystr) : bool :=
  startswith x s || match s with [] => false | _ :: s' => occurs x s' end.




(** ** Vocabulary for the statements about words and patterns *)

(** The maximal runs of word characters of [s], from left to right. *)
Fixpoint words (s : pystr) : list pystr :=
  match s with
  | [] => []
  | c :: s' =>
      if is_word c then
        match s' with
        | [] => [[c]]
        | d :: _ =>
            if is_word d then
              match words s' with
              | t :: ts => (c :: t) :: ts
              | [] => [[c]]
              end
            else [c] :: words s'
        end
      else words s'
  end.

(** A word: not empty, made of word characters. *)
Definition word_ok (w : pystr) : Prop :=
  w <> [] /\ Forall (fun c => is_word c = true) w.

(** The character before the position that follows [t], when [prev] is the
    character before [t]. *)
Definition lastp (prev : option char) (t : pystr) : option char :=
  match last t with Some c => Some c | None => prev end.





(** ** Vocabulary for the further statements about the normalizer *)

(** What a character of the normalized name becomes in the matching key: the
    dotted capital I becomes "I", the letters A to Z other than "I" and the
    digits are kept, everything else is dropped. *)
Definition matching_letter (c : char) : pystr :=
  if (c =? 304)%N then [73%N]
  else if (c =? 73)%N then []
  else if in_range 65 90 c || in_range 48 57 c then [c]
  else [].

(** What follows the scheme of a URL, after [url.lower().strip()]; the
    whole of it when there is no scheme. *)
Definition url_body (url : pystr) : pystr :=
  let url := strip (lower url) in
  if startswith (u "http://") url then drop 7 url
  else if startswith (u "https://") url then drop 8 url
  else url.

(** One replacement of a character by a character, seen from a character of
    the string. *)
Definition replace_step (c : char) (rule : char * char) : char :=
  if (fst rule =? c)%N then snd rule else c.

(** [d] is [c] up to the case of an ASCII letter: both behave alike under
    [isspace], under the case test and under the three case mappings. *)
Definition same_letter (c d : char) : Prop :=
  (d < 128)%N /\ is_space d = is_space c /\ is_cased d = is_cased c
  /\ upper_char d = upper_char c /\ lower_char d = lower_char c
  /\ title_char d = title_char c.

(** The lookup at the end of [normalize_city], on the stripped and
    title-cased name. *)
Definition mapped_city (city : pystr) : pystr :=
  match List.find (fun '(variant, _) => Py.eqb (upper city) (upper variant))
                  CompanyNormalizer.city_mappings with
  | Some (_, normalized) => normalized
  | None => city
  end.

(** [same_letter] as a test. *)
Definition same_letterb (c d : char) : bool :=
  (d <? 128)%N && bool_decide (is_space d = is_space c)
  && bool_decide (is_cased d = is_cased c)
  && bool_decide (upper_char d = upper_char c)
  && bool_decide (lower_char d = lower_char c)
  && bool_decide (title_char d = title_char c).

(** ** The validator of the legal name ([src/models/schemas.py]) *)



(** ** Vocabulary for the further statements about the resolver *)

(** [m] reports a pair of records of [cs] that stand in one block, with the
    score and the field scores of that pair, and the score reaches
    [min_threshold]. *)
Definition candidate_of `{FuzzLib} (self : EntityResolver) (cs : list UnifiedCompany)
    (m : CompanyMatch) : Prop :=
  exists i j c1 c2 s fs,
    (i < j)%nat /\ cs !! i = Some c1 /\ cs !! j = Some c2
    /\ create_blocking_key c1 = create_blocking_key c2
    /\ calculate_company_similarity c1 c2 = Some (s, fs)
    /\ (min_threshold self <= s)%Q
    /\ company_a_id m = company_key i c1 /\ company_b_id m = company_key j c2
    /\ match_score m = s /\ match_fields m = fs.

(** A candidate that takes part in the merge groups. *)
Definition merges (self : EntityResolver) (m : CompanyMatch) : bool :=
  Qle_bool (exact_threshold self) (match_score m) && negb (requires_review m).



(** The URL of the record, if it has one, holds a character other than "/"
    after its scheme, as every [HttpUrl] does. *)
Definition url_has_host (company : UnifiedCompany) : Prop :=
  match web_presence company with
  | Some w =>
      truthy (website_url w) = true ->
      Exists (fun c => c <> ch "/") (url_body (of_opt (website_url w)))
  | None => True
  end.


(** The record [company] with business metadata that hold the keywords
    [ks] and nothing else. *)
Definition with_keywords (company : UnifiedCompany) (ks : list pystr) : UnifiedCompany :=
  {| id := id company; identity := identity company;
     web_presence := web_presence company; contacts := contacts company;
     business_meta :=
       Some {| industry_naics_guess := None; sic_guess := None;
               headcount_band_guess := None; founding_year_guess := None;
               keywords := ks |};
     provenance := provenance company; canonical_id := canonical_id company;
     confidence_score := confidence_score company;
     gdpr_suppressed := gdpr_suppressed company |}.

(** The keys of the company index, in the order of the records:
    [company.id or str(i)]. *)
Definition company_keys (cs : list UnifiedCompany) : list pystr :=
  (fun p => company_key (fst p) (snd p)) <$> enumerate_from 0 cs.

(** The records of [cs] at the positions other than [i] and [j], in their
    order. *)
Definition others (i j : nat) (cs : list UnifiedCompany) : list UnifiedCompany :=
  snd <$> List.filter (fun p => negb (fst p =? i)%nat && negb (fst p =? j)%nat)
            (enumerate_from 0 cs).

(** The match [m] names the records at the positions [fst p < snd p] of
    [cs]. *)
Definition reports (cs : list UnifiedCompany) (m : CompanyMatch) (p : nat * nat) : Prop :=
  exists c1 c2,
    (fst p < snd p)%nat /\ cs !! fst p = Some c1 /\ cs !! snd p = Some c2
    /\ company_a_id m = company_key (fst p) c1
    /\ company_b_id m = company_key (snd p) c2.

(** ** Sample records *)

Module Examples.

Definition sample_identity (name : pystr) (city : option pystr) : CompanyIdentity :=
  {| legal_name := name; trade_name := None; company_type := None;
     country := u "TR"; city := city; district := None; registration_hint := None |}.

Definition sample_web (url : pystr) : WebPresence :=
  {| website_url := Some url; website_status_code := None; ssl_issuer := None;
     first_seen_ts := None; last_seen_ts := None; social_links := [];
     google_places := None |}.

Definition sample_company (ident : option pystr) (i : CompanyIdentity)
    (w : option WebPresence) (c : option ContactInfo) : UnifiedCompany :=
  {| id := ident; identity := i; web_presence := w; contacts := c;
     business_meta := None; provenance := []; canonical_id := None;
     confidence_score := 1%Q; gdpr_suppressed := false |}.

(** A record that carries a legal name and nothing else. *)
Definition name_only : UnifiedCompany :=
  sample_company None (sample_identity (u "Acme Makina") None) None None.

(** The first record of the test suite, without its legal form. *)
Definition abc_teknoloji : UnifiedCompany :=
  sample_company (Some (u "1"))
    (sample_identity (u "ABC Teknoloji A.Ş.") (Some (u "İstanbul")))
    (Some (sample_web (u "https://www.abcteknoloji.com")))
    (Some {| emails_public := [u "info@abcteknoloji.com"];
             phones_public := [u "0212 345 67 89"];
             address_public := None |}).

(** Three records of one company: all fields agree, except that [chain_a]
    and [chain_c] publish e-mail addresses at different domains and
    [chain_b] publishes both. *)
Definition chain (ident : pystr) (emails : list pystr) : UnifiedCompany :=
  sample_company (Some ident)
    (sample_identity (u "Acme Makina") (Some (u "Ankara")))
    (Some (sample_web (u "https://www.acme.com")))
    (Some {| emails_public := emails;
             phones_public := [u "+903121234567"];
             address_public := Some (u "Ataturk Cad. No:1") |}).

Definition chain_a := chain (u "a") [u "info@acme.com"].
Definition chain_b := chain (u "b") [u "info@acme.com"; u "info@acme.net"].
Definition chain_c := chain (u "c") [u "info@acme.net"].


(** A store with two companies: [chain_a] at location 1, with its identity,
    web presence and contacts at 2, 3 and 4, and [name_only] at location 5,
    with its identity at 6. *)
Definition sample_store : Store.store :=
  let obj_of (c : UnifiedCompany) (li : Store.loc) (lw lc : option Store.loc) :=
    Store.OCompany
      {| Store.o_id := id c; Store.o_identity := li; Store.o_web_presence := lw;
         Store.o_contacts := lc; Store.o_business_meta := None;
         Store.o_provenance := provenance c;
         Store.o_canonical_id := canonical_id c;
         Store.o_confidence_score := confidence_score c;
         Store.o_gdpr_suppressed := gdpr_suppressed c |} in
  <[1%positive := obj_of chain_a 2%positive (Some 3%positive) (Some 4%positive)]>
  (<[2%positive := Store.OIdentity (identity chain_a)]>
  (<[3%positive := Store.OWeb (sample_web (u "https://www.acme.com"))]>
  (<[4%positive := Store.OContacts
                     {| emails_public := [u "info@acme.com"];
                        phones_public := [u "+903121234567"];
                        address_public := Some (u "Ataturk Cad. No:1") |}]>
  (<[5%positive := obj_of name_only 6%positive None None]>
  (<[6%positive := Store.OIdentity (identity name_only)]> ∅))))).

End Examples.

(** * Properties *)

(** ** Strings *)

Section StringFacts.
Import CompanyNormalizer.

Lemma startswith_prefix (p s : pystr) : startswith p s = true <-> p `prefix_of` s.
Proof.
  revert s; induction p as [|a p IH]; intros s; simpl.
  - split; [intros _; apply prefix_nil | done].
  - destruct s as [|b s].
    + split; [done | intros []%prefix_nil_not].
    + rewrite andb_true_iff, N.eqb_eq, IH. split.
      * intros [-> Hp]. by apply prefix_cons.
      * intros Hp. split; [by apply prefix_cons_inv_1 in Hp | by apply prefix_cons_inv_2 in Hp].
Qed.


Lemma length_split_on (sep : char) (s : pystr) :
  length (split_on sep s) = S (length (List.filter (N.eqb sep) s)).
Proof.
  induction s as [|c s IH]; simpl; [done|].
  rewrite (N.eqb_sym sep c).
  destruct (c =? sep)%N; simpl; [by rewrite IH|].
  destruct (split_on sep s); simpl in *; [done | lia].
Qed.



End StringFacts.

(** ** The normalizer *)

Section PhoneFacts.
Import CompanyNormalizer.

Lemma digits_not_plus (phone : pystr) :
  startswith (u "+") (List.filter is_digit phone) = false.
Proof.
  destruct (List.filter is_digit phone) as [|c d] eqn:Hd; [done|].
  assert (In c (List.filter is_digit phone)) as Hin by (rewrite Hd; by left).
  apply filter_In in Hin as [_ Hc].
  change (u "+") with [43%N]. cbn [startswith].
  destruct (43 =? c)%N eqn:Heq; [|done].
  apply N.eqb_eq in Heq as <-. done.
Qed.

Lemma normalize_phone_nonempty (phone : pystr) :
  phone <> [] -> normalize_phone phone <> [].
Proof.
  destruct phone as [|c phone]; [done|]. intros _. unfold normalize_phone.
  repeat case_match; try done.
  pose proof (digits_not_plus (c :: phone)) as Hp.
  match goal with H : negb (startswith _ ?d) = false |- _ =>
    change (negb (startswith (u "+") d) = false) in H end.
  rewrite Hp in *. done.
Qed.





End PhoneFacts.

Section LegalForm.
Import CompanyNormalizer RecordNormalizer Examples.

(** What record-level normalization stores as the legal form: a form that
    the record carries is kept; otherwise the patterns are tried, in their
    declared order, on the legal name as already normalized. *)
Lemma normalize_company_type (company : UnifiedCompany) :
  company_type (identity (normalize_company company))
  = match company_type (identity company) with
    | Some t => Some t
    | None =>
        extract_company_type (normalize_company_name (legal_name (identity company)))
    end.
Proof. reflexivity. Qed.

(** The form returned by [extract_company_type] is the first one, in the
    declared order, with a pattern found in the upper-cased name. *)
Lemma extract_company_type_first (name : pystr) (t : CompanyType) :
  extract_company_type name = Some t ->
  exists before patterns after,
    company_type_patterns = before ++ (t, patterns) :: after
    /\ Exists (fun p => Re.search true (Re.compile p) (upper name) = true) patterns
    /\ Forall (fun '(_, ps) =>
                 Forall (fun p => Re.search true (Re.compile p) (upper name) = false) ps)
              before.
Proof.
  unfold extract_company_type.
  generalize company_type_patterns as tbl.
  induction tbl as [|[t' ps] tbl IH]; simpl; [done|].
  destruct (existsb _ ps) eqn:Hhit; simpl.
  - intros [= ->]. exists [], ps, tbl. split; [done|]. split; [|done].
    apply existsb_exists in Hhit as (p & Hin & Hp).
    apply Exists_exists. exists p. split; [by apply list_elem_of_In | done].
  - intros (before & patterns & after & -> & Hex & Hall)%IH.
    exists ((t', ps) :: before), patterns, after. split; [done|]. split; [done|].
    constructor; [|done]. apply Forall_forall. intros p Hp%list_elem_of_In.
    destruct (Re.search true (Re.compile p) (upper name)) eqn:E; [|done].
    assert (existsb (fun pattern => Re.search true (Re.compile pattern) (upper name)) ps
            = true) as Hc by (apply existsb_exists; eauto).
    congruence.
Qed.

(** C4 at the failing input: the legal name "ABC Teknoloji A.Ş." of a record
    without a legal form matches the pattern of [ANONIM], but
    [normalize_company] tests the name only after it has replaced it by its
    normalized form "ABC TEKNOLOJI", from which the suffix is gone, and
    leaves the record without a legal form. *)
Theorem normalize_company_tests_normalized_name :
  company_type (identity abc_teknoloji) = None
  /\ extract_company_type (legal_name (identity abc_teknoloji)) = Some ANONIM
  /\ legal_name (identity (normalize_company abc_teknoloji)) = u "ABC TEKNOLOJI"
  /\ company_type (identity (normalize_company abc_teknoloji)) = None.
Proof. vm_compute. done. Qed.

End LegalForm.

(** ** Merge groups *)

Section ChainOfMatches.
Import Examples.
#[local] Existing Instance lev_fuzz.

(** C3 at the failing input: [chain_a]/[chain_b] and [chain_b]/[chain_c] are
    exact matches that need no review, [chain_a]/[chain_c] is a fuzzy one.
    The first exact match opens group 0; for the second one the group 0 of
    [chain_b] counts as no group, so [chain_b] and [chain_c] move to a new
    group 1.  The output holds two records, [chain_a] and the merge of the
    other two, where the claim promises a single one. *)
Theorem resolve_duplicates_splits_chain :
  exists matches result,
    find_duplicates default_resolver [chain_a; chain_b; chain_c] = Some matches
    /\ List.map (fun m => (company_a_id m, company_b_id m, match_type m, requires_review m))
               matches
       = [ (u "a", u "b", exact, false); (u "a", u "c", fuzzy, true);
           (u "b", u "c", exact, false) ]
    /\ build_merge_groups default_resolver matches
       = [ (u "a", 0); (u "b", 1); (u "c", 1) ]
    /\ resolve_duplicates default_resolver [chain_a; chain_b; chain_c] true
       = Some (result, matches)
    /\ List.map id result = [Some (u "a"); Some (u "b")]
    /\ result = [chain_a; merge_companies chain_b chain_c].
Proof.
  eexists _, _. split; [vm_compute; reflexivity|].
  split; [vm_compute; reflexivity|].
  split; [vm_compute; reflexivity|].
  split; [vm_compute; reflexivity|].
  split; vm_compute; reflexivity.
Qed.

End ChainOfMatches.

Section GroupFacts.
Context `{FuzzLib}.
Variable self : EntityResolver.

(** A candidate that is fuzzy or flagged for review leaves the merge groups
    as they are. *)
Lemma group_step_skips (merge_groups : list (pystr * Z)) (m : CompanyMatch) :
  Qle_bool (exact_threshold self) (match_score m) = false \/ requires_review m = true ->
  group_step self merge_groups m = merge_groups.
Proof.
  unfold group_step. intros [-> | ->]; [done|].
  by rewrite andb_false_r.
Qed.

End GroupFacts.

(** ** Similarity *)

Section SimilarityFacts.
Context `{FuzzLib}.
Import CompanyNormalizer.
Local Open Scope Q_scope.

Lemma weighted_totals_five (d n p e a : Q) :
  weighted_totals [ (u "domain", d); (u "legal_name", n); (u "phone", p);
                    (u "email", e); (u "address", a) ]
  = (0 + d * (35 # 100) + n * (25 # 100) + p * (15 # 100) + e * (15 # 100)
       + a * (10 # 100),
     0 + (35 # 100) + (25 # 100) + (15 # 100) + (15 # 100) + (10 # 100)).
Proof.
  unfold weighted_totals. cbn [fold_left].
  replace (dict_get (u "domain") field_weights) with (Some (35 # 100))
    by (vm_compute; reflexivity).
  replace (dict_get (u "legal_name") field_weights) with (Some (25 # 100))
    by (vm_compute; reflexivity).
  replace (dict_get (u "phone") field_weights) with (Some (15 # 100))
    by (vm_compute; reflexivity).
  replace (dict_get (u "email") field_weights) with (Some (15 # 100))
    by (vm_compute; reflexivity).
  replace (dict_get (u "address") field_weights) with (Some (10 # 100))
    by (vm_compute; reflexivity).
  reflexivity.
Qed.

(** The result of [calculate_company_similarity], when it returns: the five
    field scores in their fixed order and their weighted sum. *)
Lemma calculate_company_similarity_inv (c1 c2 : UnifiedCompany) s fs :
  calculate_company_similarity c1 c2 = Some (s, fs) ->
  exists d,
    domain_score c1 c2 = Some d
    /\ fs = [ (u "domain", d); (u "legal_name", name_score c1 c2);
              (u "phone", phone_score c1 c2); (u "email", email_score c1 c2);
              (u "address", address_score c1 c2) ]
    /\ s = (0 + d * (35 # 100) + name_score c1 c2 * (25 # 100)
              + phone_score c1 c2 * (15 # 100) + email_score c1 c2 * (15 # 100)
              + address_score c1 c2 * (10 # 100))
           / (0 + (35 # 100) + (25 # 100) + (15 # 100) + (15 # 100) + (10 # 100)).
Proof.
  unfold calculate_company_similarity.
  destruct (domain_score c1 c2) as [d|]; [|done]. cbn [mbind option_bind].
  rewrite weighted_totals_five.
  replace (Qle_bool (0 + (35 # 100) + (25 # 100) + (15 # 100) + (15 # 100) + (10 # 100)) 0)
    with false by (vm_compute; reflexivity).
  cbn [negb]. intros [= <- <-]. eauto.
Qed.

Lemma calculate_company_similarity_total (c1 c2 : UnifiedCompany) d :
  domain_score c1 c2 = Some d ->
  exists s fs, calculate_company_similarity c1 c2 = Some (s, fs).
Proof.
  intros Hd. unfold calculate_company_similarity. rewrite Hd.
  cbn [mbind option_bind]. rewrite weighted_totals_five. eauto.
Qed.








End SimilarityFacts.

Section SimilarityExamples.
Import Examples.
#[local] Existing Instance lev_fuzz.
Local Open Scope Q_scope.



End SimilarityExamples.

(** ** The sample comparator *)

Section LevFacts.

Lemma lcs_nil_r (xs : pystr) : lcs xs [] = 0%nat.
Proof. by destruct xs. Qed.

Lemma lcs_cons_cons (x y : char) (xs ys : pystr) :
  lcs (x :: xs) (y :: ys)
  = if (x =? y)%N then S (lcs xs ys) else Nat.max (lcs xs (y :: ys)) (lcs (x :: xs) ys).
Proof. reflexivity. Qed.

Lemma lcs_row_spec (x : char) (xs ys : pystr) :
  lcs_row x ys (List.map (lcs xs) (suffixes ys)) = List.map (lcs (x :: xs)) (suffixes ys).
Proof.
  induction ys as [|y ys IH]; [done|].
  cbn [suffixes List.map lcs_row]. rewrite IH.
  destruct ys; rewrite lcs_cons_cons; reflexivity.
Qed.

Lemma lcs_table_spec (xs ys : pystr) :
  lcs_table xs ys = List.map (lcs xs) (suffixes ys).
Proof.
  unfold lcs_table. induction xs as [|x xs IH]; cbn [fold_right].
  - induction ys as [|y ys IHy]; [done|].
    cbn [length repeat suffixes List.map] in *. by rewrite IHy.
  - rewrite IH. apply lcs_row_spec.
Qed.

Lemma lcs_length_spec (xs ys : pystr) : lcs_length xs ys = lcs xs ys.
Proof. unfold lcs_length. rewrite lcs_table_spec. by destruct ys. Qed.

Lemma lcs_sym (xs ys : pystr) : lcs xs ys = lcs ys xs.
Proof.
  revert ys. induction xs as [|x xs IHx]; intros ys.
  - by rewrite lcs_nil_r.
  - induction ys as [|y ys IHy]; [done|].
    rewrite !lcs_cons_cons, (N.eqb_sym y x), IHx, (IHx (y :: ys)), IHy.
    by rewrite Nat.max_comm.
Qed.

Lemma lcs_le_l (xs ys : pystr) : (lcs xs ys <= length xs)%nat.
Proof.
  revert ys. induction xs as [|x xs IHx]; intros ys; [done|].
  induction ys as [|y ys IHy]; [simpl; lia|].
  rewrite lcs_cons_cons. specialize (IHx ys) as H1. specialize (IHx (y :: ys)) as H2.
  cbn [length] in *. destruct (x =? y)%N; lia.
Qed.

Lemma lcs_le_r (xs ys : pystr) : (lcs xs ys <= length ys)%nat.
Proof. rewrite lcs_sym. apply lcs_le_l. Qed.



Lemma lev_ratio_range (a b : pystr) : 0 <= lev_ratio a b <= 100.
Proof.
  unfold lev_ratio. destruct (Py.eqb a b); [lia|].
  destruct a as [|x a], b as [|y b]; try lia.
  rewrite lcs_length_spec.
  pose proof (lcs_le_l (x :: a) (y :: b)) as Hl.
  pose proof (lcs_le_r (x :: a) (y :: b)) as Hr.
  set (l := lcs _ _) in *. set (total := Z.of_nat (_ + _)).
  assert (0 < total) by (unfold total; cbn [length]; lia).
  assert (200 * Z.of_nat l <= 100 * total) as Hn by (unfold total; lia).
  pose proof (Z.div_mod (200 * Z.of_nat l) total ltac:(lia)) as Hdm.
  pose proof (Z.mod_pos_bound (200 * Z.of_nat l) total ltac:(lia)) as Hm.
  assert (0 <= 200 * Z.of_nat l / total) by (apply Z.div_pos; lia).
  assert (200 * Z.of_nat l / total <= 100) by (apply Z.div_le_upper_bound; lia).
  set (n := 200 * Z.of_nat l) in *. set (q := n / total) in *.
  set (r := n mod total) in *.
  assert (q = 100 -> r = 0) by lia.
  destruct (2 * r <? total) eqn:E1; [lia|].
  destruct (total <? 2 * r) eqn:E2.
  - apply Z.ltb_lt in E2. lia.
  - destruct (Z.even q); lia.
Qed.


Lemma lev_token_sort_ratio_range (a b : pystr) : 0 <= lev_token_sort_ratio a b <= 100.
Proof. apply lev_ratio_range. Qed.

End LevFacts.

(** ** Symmetry of the similarity *)

Section Symmetry.
Context `{FuzzLib}.
Import CompanyNormalizer.
Local Open Scope Q_scope.

(** The comparators of the library do not depend on the order of their
    arguments. *)
Hypothesis fuzz_ratio_sym : forall a b, fuzz_ratio a b = fuzz_ratio b a.
Hypothesis fuzz_token_sort_ratio_sym :
  forall a b, fuzz_token_sort_ratio a b = fuzz_token_sort_ratio b a.







Lemma in_cross {A : Type} (g : A -> A -> list Q) (l1 l2 : list A) (q : Q) :
  In q (flat_map (fun x => flat_map (fun y => g x y) l2) l1)
  <-> exists x y, In x l1 /\ In y l2 /\ In q (g x y).
Proof.
  rewrite in_flat_map. split.
  - intros (x & Hx & (y & Hy & Hq)%in_flat_map). eauto.
  - intros (x & y & Hx & Hy & Hq). exists x. split; [done|].
    apply in_flat_map. eauto.
Qed.






End Symmetry.


(** ** The resolver returns *)

Section Totality.
Context `{FuzzLib}.
Import CompanyNormalizer.
Local Open Scope Q_scope.

(** The contract of the library: a percentage. *)
Hypothesis fuzz_ratio_range : forall a b, (0 <= fuzz_ratio a b <= 100)%Z.
Hypothesis fuzz_token_sort_ratio_range :
  forall a b, (0 <= fuzz_token_sort_ratio a b <= 100)%Z.

Variable self : EntityResolver.

Lemma url_domain_total (url : pystr) :
  (2 <= length (List.filter (N.eqb (ch "/")) url))%nat -> is_Some (url_domain url).
Proof.
  intros Hn. unfold url_domain.
  destruct (split_on (ch "/") url !! 2%nat) eqn:E; [by eexists|].
  apply lookup_ge_None in E. rewrite length_split_on in E. lia.
Qed.

Lemma create_blocking_key_total (c : UnifiedCompany) :
  url_ok c -> is_Some (create_blocking_key c).
Proof.
  unfold url_ok, create_blocking_key. destruct (web_presence c) as [w|].
  - destruct (truthy (website_url w)); [|by eexists].
    intros Hok. destruct (url_domain_total _ (Hok eq_refl)) as [d ->]. by eexists.
  - by eexists.
Qed.

Lemma domain_score_total (c1 c2 : UnifiedCompany) :
  url_ok c1 -> url_ok c2 -> is_Some (domain_score c1 c2).
Proof.
  unfold url_ok, domain_score.
  destruct (web_presence c1) as [w1|], (web_presence c2) as [w2|]; try by eexists.
  destruct (truthy (website_url w1)), (truthy (website_url w2)); try by eexists.
  intros H1 H2. destruct (url_domain_total _ (H1 eq_refl)) as [d1 ->].
  destruct (url_domain_total _ (H2 eq_refl)) as [d2 ->]. by eexists.
Qed.

Lemma percent_unit (r : Z) : (0 <= r <= 100)%Z -> unit_score (r # 100).
Proof. intros Hr. unfold unit_score, Qle. cbn. lia. Qed.

Lemma calculate_field_similarity_unit (v1 v2 : pystr) (method : Method) :
  unit_score (calculate_field_similarity v1 v2 method).
Proof.
  unfold calculate_field_similarity.
  repeat case_match; try (by apply percent_unit); by vm_compute.
Qed.

Lemma max_or_zero_unit (xs : list Q) : Forall unit_score xs -> unit_score (max_or_zero xs).
Proof.
  destruct xs as [|x xs]; [intros _; by vm_compute|].
  intros [Hx Hxs]%Forall_cons. cbn [max_or_zero]. unfold py_max.
  revert x Hx. induction Hxs as [|y ys Hy _ IH]; intros x Hx; [done|].
  cbn [fold_left]. destruct (Qle_bool y x); by apply IH.
Qed.

Lemma zero_one_unit (q : Q) : zero_one q -> unit_score q.
Proof. intros [-> | ->]; by vm_compute. Qed.

Lemma domain_score_unit (c1 c2 : UnifiedCompany) d :
  domain_score c1 c2 = Some d -> unit_score d.
Proof.
  unfold domain_score. repeat case_match; intros Hd; simplify_option_eq;
    try (by vm_compute); apply calculate_field_similarity_unit.
Qed.

Lemma phone_score_unit (c1 c2 : UnifiedCompany) : unit_score (phone_score c1 c2).
Proof.
  unfold phone_score. repeat case_match; try by vm_compute.
  apply max_or_zero_unit, Forall_forall. intros q Hq%list_elem_of_In.
  apply in_cross in Hq as (x & y & _ & _ & Hq).
  destruct (_ && _); [|done]. destruct Hq as [<- | []].
  apply calculate_field_similarity_unit.
Qed.

Lemma email_score_unit (c1 c2 : UnifiedCompany) : unit_score (email_score c1 c2).
Proof.
  unfold email_score. repeat case_match; try by vm_compute.
  apply max_or_zero_unit, Forall_forall. intros q Hq%list_elem_of_In.
  apply in_cross in Hq as (x & y & _ & _ & Hq).
  destruct (_ && _); [|done]. destruct Hq as [<- | []].
  case_match; by vm_compute.
Qed.

Lemma address_score_unit (c1 c2 : UnifiedCompany) : unit_score (address_score c1 c2).
Proof.
  unfold address_score. repeat case_match; try (by vm_compute);
    apply calculate_field_similarity_unit.
Qed.

(** Every similarity score lies between 0 and 1. *)
Lemma calculate_company_similarity_unit (c1 c2 : UnifiedCompany) s fs :
  calculate_company_similarity c1 c2 = Some (s, fs) -> unit_score s.
Proof.
  intros (d & Hd & _ & ->)%calculate_company_similarity_inv.
  pose proof (domain_score_unit _ _ _ Hd) as [? ?].
  pose proof (calculate_field_similarity_unit
                (normalize_company_name (legal_name (identity c1)))
                (normalize_company_name (legal_name (identity c2))) m_token) as [? ?].
  fold (name_score c1 c2) in *.
  pose proof (phone_score_unit c1 c2) as [? ?].
  pose proof (email_score_unit c1 c2) as [? ?].
  pose proof (address_score_unit c1 c2) as [? ?].
  set (n := name_score c1 c2) in *. set (p := phone_score c1 c2) in *.
  set (e := email_score c1 c2) in *. set (a := address_score c1 c2) in *.
  assert ((0 + d * (35 # 100) + n * (25 # 100) + p * (15 # 100) + e * (15 # 100)
             + a * (10 # 100))
          / (0 + (35 # 100) + (25 # 100) + (15 # 100) + (15 # 100) + (10 # 100))
          == (35 # 100) * d + (25 # 100) * n + (15 # 100) * p + (15 # 100) * e
             + (10 # 100) * a) as Hs by field.
  unfold unit_score. rewrite Hs. split; lra.
Qed.

End Totality.

(** ** The loops of [find_duplicates] *)

Section MonadicFolds.
Context {A B : Type}.

Lemma fold_leftM_app (f : A -> B -> option A) (l1 l2 : list B) (a : A) :
  fold_leftM f (l1 ++ l2) a = fold_leftM f l1 a ≫= fold_leftM f l2.
Proof.
  revert a. induction l1 as [|b l1 IH]; intros a; [done|].
  cbn [app fold_leftM]. destruct (f a b) as [a'|]; [apply IH | done].
Qed.

(** An invariant that every step preserves holds at the end. *)
Lemma fold_leftM_invariant (P : list B -> A -> Prop) (f : A -> B -> option A)
    (l : list B) (a a' : A) :
  P [] a ->
  (forall done_ b x x', P done_ x -> In b l -> f x b = Some x' -> P (done_ ++ [b]) x') ->
  fold_leftM f l a = Some a' -> P l a'.
Proof.
  intros Hinit Hstep.
  assert (forall todo done_ x, P done_ x -> (forall b, In b todo -> In b l) ->
            fold_leftM f todo x = Some a' -> P (done_ ++ todo) a') as Hgen.
  { induction todo as [|b todo IH]; intros done_ x HP Hsub Hrun.
    - rewrite app_nil_r. by injection Hrun as <-.
    - cbn [fold_leftM] in Hrun. destruct (f x b) as [x'|] eqn:Hf; [|done].
      cbn in Hrun. rewrite (cons_middle b), app_assoc. apply (IH _ x'); [| |done].
      + apply (Hstep _ _ x); [done | apply Hsub; by left | done].
      + intros b' Hb'. apply Hsub. by right. }
  intros Hrun. apply (Hgen l [] a); done.
Qed.

Lemma fold_leftM_total (P : A -> Prop) (f : A -> B -> option A) (l : list B) (a : A) :
  P a ->
  (forall b x, P x -> In b l -> exists x', f x b = Some x' /\ P x') ->
  exists a', fold_leftM f l a = Some a' /\ P a'.
Proof.
  revert a. induction l as [|b l IH]; intros a HP Hstep; [by exists a|].
  destruct (Hstep b a HP) as (x' & Hf & HP'); [by left|].
  cbn [fold_leftM]. rewrite Hf. cbn. apply IH; [done|].
  intros b' x Hx Hb'. apply Hstep; [done | by right].
Qed.

End MonadicFolds.

Section DictFacts.
Context {K V : Type} `{EqDecision K}.

Lemma dict_get_set_eq (k : K) (v : V) (d : list (K * V)) :
  dict_get k (dict_set k v d) = Some v.
Proof.
  induction d as [|[k' v'] d IH]; cbn [dict_set dict_get].
  - by rewrite decide_True.
  - destruct (decide (k = k')) as [<- | Hne]; cbn [dict_get].
    + by rewrite decide_True.
    + by rewrite decide_False.
Qed.

Lemma dict_get_set_ne (k k' : K) (v : V) (d : list (K * V)) :
  k' <> k -> dict_get k' (dict_set k v d) = dict_get k' d.
Proof.
  intros Hne. induction d as [|[k0 v0] d IH]; cbn [dict_set dict_get].
  - by rewrite decide_False.
  - destruct (decide (k = k0)) as [<- | Hne0]; cbn [dict_get].
    + by rewrite !decide_False.
    + destruct (decide (k' = k0)); [done | apply IH].
Qed.

Lemma dict_get_In (k : K) (v : V) (d : list (K * V)) :
  dict_get k d = Some v -> In (k, v) d.
Proof.
  induction d as [|[k' v'] d IH]; cbn [dict_get]; [done|].
  destruct (decide (k = k')) as [<- | Hne].
  - intros [= ->]. by left.
  - intros Hd. right. by apply IH.
Qed.

Lemma dict_set_In (k k' : K) (v v' : V) (d : list (K * V)) :
  In (k', v') (dict_set k v d) -> (k', v') = (k, v) \/ In (k', v') d.
Proof.
  induction d as [|[k0 v0] d IH]; cbn [dict_set In].
  - intros [[= <- <-] | []]. by left.
  - destruct (decide (k = k0)) as [<- | Hne]; cbn [In].
    + intros [[= <- <-] | Hin]; [by left | right; by right].
    + intros [Heq | Hin]; [right; by left|].
      destruct (IH Hin) as [? | ?]; [by left | right; by right].
Qed.

End DictFacts.

Section OrderFacts.

Lemma in_block_pairs (block : list (nat * UnifiedCompany)) p1 p2 :
  In (p1, p2) (block_pairs block) <-> before block p1 p2.
Proof.
  unfold before. induction block as [|a rest IH]; cbn [block_pairs].
  - split; [done|]. intros (l1 & l2 & l3 & Heq). by destruct l1.
  - rewrite in_app_iff, in_map_iff, IH. split.
    + intros [(p & [= <- <-] & Hin) | (l1 & l2 & l3 & ->)].
      * apply in_split in Hin as (l2 & l3 & ->). by exists [], l2, l3.
      * by exists (a :: l1), l2, l3.
    + intros (l1 & l2 & l3 & Heq). destruct l1 as [|b l1]; injection Heq as <- ->.
      * left. exists p2. split; [done|]. apply in_app_iff. right. by left.
      * right. by exists l1, l2, l3.
Qed.

Lemma before_sublist {A : Type} (l l' : list A) p1 p2 :
  l `sublist_of` l' -> before l p1 p2 -> before l' p1 p2.
Proof.
  intros Hsub (l1 & l2 & l3 & ->).
  apply sublist_app_l in Hsub as (k1 & k2 & -> & _ & Hsub).
  apply sublist_cons_l in Hsub as (k21 & k22 & -> & Hsub).
  apply sublist_app_l in Hsub as (k3 & k4 & -> & _ & Hsub).
  apply sublist_cons_l in Hsub as (k41 & k42 & -> & _).
  exists (k1 ++ k21), (k3 ++ k41), k42. by rewrite <- !app_assoc.
Qed.

Lemma before_filter {A : Type} (f : A -> bool) (l : list A) p1 p2 :
  f p1 = true -> f p2 = true -> before l p1 p2 -> before (List.filter f l) p1 p2.
Proof.
  intros H1 H2 (l1 & l2 & l3 & ->).
  exists (List.filter f l1), (List.filter f l2), (List.filter f l3).
  rewrite !List.filter_app. cbn [List.filter]. rewrite H1, List.filter_app.
  cbn [List.filter]. by rewrite H2.
Qed.

Lemma enumerate_from_lookup (n k : nat) (cs : list UnifiedCompany) :
  enumerate_from n cs !! k = (fun c => ((n + k)%nat, c)) <$> cs !! k.
Proof.
  revert n k. induction cs as [|c cs IH]; intros n k; [done|].
  destruct k as [|k]; cbn [enumerate_from].
  - cbn. by rewrite Nat.add_0_r.
  - cbn [lookup list_lookup]. rewrite IH. by rewrite Nat.add_succ_comm.
Qed.

Lemma length_enumerate_from (n : nat) (cs : list UnifiedCompany) :
  length (enumerate_from n cs) = length cs.
Proof. revert n. induction cs as [|c cs IH]; intros n; cbn; [done | by rewrite IH]. Qed.

Lemma before_enumerate (cs : list UnifiedCompany) i c1 j c2 :
  before (enumerate_from 0 cs) (i, c1) (j, c2)
  <-> (i < j)%nat /\ cs !! i = Some c1 /\ cs !! j = Some c2.
Proof.
  split.
  - intros (l1 & l2 & l3 & Heq).
    assert (enumerate_from 0 cs !! length l1 = Some (i, c1)) as H1.
    { rewrite Heq. by apply list_lookup_middle. }
    assert (enumerate_from 0 cs !! (length l1 + S (length l2))%nat = Some (j, c2)) as H2.
    { rewrite Heq. rewrite lookup_app_r by lia.
      replace (length l1 + S (length l2) - length l1)%nat with (S (length l2)) by lia.
      cbn [lookup list_lookup]. by apply list_lookup_middle. }
    rewrite enumerate_from_lookup in H1, H2.
    destruct (cs !! length l1) as [c1'|] eqn:E1; [|done].
    destruct (cs !! (length l1 + S (length l2))%nat) as [c2'|] eqn:E2; [|done].
    cbn in H1, H2. injection H1 as <- <-. injection H2 as <- <-.
    split; [lia | by split].
  - intros (Hlt & H1 & H2).
    assert (enumerate_from 0 cs !! i = Some (i, c1)) as E1
      by (rewrite enumerate_from_lookup, H1; done).
    assert (enumerate_from 0 cs !! j = Some (j, c2)) as E2
      by (rewrite enumerate_from_lookup, H2; done).
    set (l := enumerate_from 0 cs) in *.
    assert (drop (S i) l !! (j - S i)%nat = Some (j, c2)) as E3.
    { rewrite lookup_drop. by replace (S i + (j - S i))%nat with j by lia. }
    exists (take i l), (take (j - S i) (drop (S i) l)), (drop (S (j - S i)) (drop (S i) l)).
    rewrite (take_drop_middle _ _ _ E3). by rewrite (take_drop_middle _ _ _ E1).
Qed.

End OrderFacts.

Section BlockingIndexFacts.

(** Every block is a part of the enumeration, in its order. *)
Lemma build_blocking_index_sublist i cs idx0 idx (seen : list (nat * UnifiedCompany)) :
  build_blocking_index i cs idx0 = Some idx ->
  (forall k b, In (k, b) idx0 -> b `sublist_of` seen) ->
  forall k b, In (k, b) idx -> b `sublist_of` seen ++ enumerate_from i cs.
Proof.
  revert i idx0 seen. induction cs as [|c cs IH]; intros i idx0 seen Hrun Hsub.
  - injection Hrun as <-. intros k b Hin. rewrite app_nil_r. by apply (Hsub k).
  - cbn [build_blocking_index] in Hrun.
    destruct (create_blocking_key c) as [key|]; [|done]. cbn in Hrun.
    cbn [enumerate_from]. rewrite (cons_middle (i, c)), app_assoc.
    apply (IH _ _ _ Hrun). intros k b [[= -> ->] | Hin]%dict_set_In.
    + apply sublist_app; [|done].
      destruct (dict_get key idx0) as [b0|] eqn:E; cbn [default].
      * apply (Hsub key). by apply dict_get_In.
      * apply sublist_nil_l.
    + apply sublist_inserts_r. by apply (Hsub k).
Qed.

(** The block of a key holds the records with that key, in their order. *)
Lemma build_blocking_index_filter i cs idx0 idx :
  build_blocking_index i cs idx0 = Some idx ->
  forall k, default [] (dict_get k idx)
            = default [] (dict_get k idx0) ++ List.filter (has_key k) (enumerate_from i cs).
Proof.
  revert i idx0. induction cs as [|c cs IH]; intros i idx0 Hrun k.
  - injection Hrun as <-. by rewrite app_nil_r.
  - cbn [build_blocking_index] in Hrun.
    destruct (create_blocking_key c) as [key|] eqn:Hkey; [|done]. cbn in Hrun.
    rewrite (IH _ _ Hrun k). cbn [enumerate_from List.filter].
    unfold has_key at 2. cbn [snd]. rewrite Hkey.
    destruct (decide (k = key)) as [-> | Hne].
    + rewrite dict_get_set_eq, bool_decide_eq_true_2 by done.
      cbn [default from_option]. unfold Datatypes.id. by rewrite <- app_assoc.
    + rewrite dict_get_set_ne by done.
      rewrite bool_decide_eq_false_2; [done | congruence].
Qed.

Lemma build_blocking_index_keys i cs idx0 idx c :
  build_blocking_index i cs idx0 = Some idx -> In c cs ->
  is_Some (create_blocking_key c).
Proof.
  revert i idx0. induction cs as [|c' cs IH]; intros i idx0 Hrun Hin; [done|].
  cbn [build_blocking_index] in Hrun.
  destruct (create_blocking_key c') as [key|] eqn:Hkey; [|done]. cbn in Hrun.
  destruct Hin as [<- | Hin]; [by rewrite Hkey | by apply (IH _ _ Hrun)].
Qed.

(** The members of a block carry the key of the block. *)
Lemma build_blocking_index_block_keys i cs idx0 idx :
  build_blocking_index i cs idx0 = Some idx ->
  (forall k b p, In (k, b) idx0 -> In p b -> has_key k p = true) ->
  forall k b p, In (k, b) idx -> In p b -> has_key k p = true.
Proof.
  revert i idx0. induction cs as [|c cs IH]; intros i idx0 Hrun Hold.
  - by injection Hrun as <-.
  - cbn [build_blocking_index] in Hrun.
    destruct (create_blocking_key c) as [key|] eqn:Hkey; [|done]. cbn in Hrun.
    apply (IH _ _ Hrun). intros k b p [[= -> ->] | Hin]%dict_set_In Hp.
    + apply in_app_iff in Hp as [Hp | [<- | []]].
      * destruct (dict_get key idx0) as [b0|] eqn:E; [|done].
        apply (Hold key b0); [by apply dict_get_In | done].
      * unfold has_key. by apply bool_decide_eq_true_2.
    + by apply (Hold k b).
Qed.

(** The pairs that [find_duplicates] visits are the pairs of positions
    [i < j] whose records have the same blocking key. *)
Lemma index_pairs_spec cs idx i c1 j c2 :
  build_blocking_index 0 cs [] = Some idx ->
  In ((i, c1), (j, c2)) (index_pairs idx)
  <-> (i < j)%nat /\ cs !! i = Some c1 /\ cs !! j = Some c2
      /\ create_blocking_key c1 = create_blocking_key c2.
Proof.
  intros Hrun. unfold index_pairs. rewrite in_flat_map. split.
  - intros ([k b] & Hin & Hpair%in_block_pairs).
    assert (before (enumerate_from 0 cs) (i, c1) (j, c2)) as Hb.
    { apply (before_sublist b); [|done].
      apply (build_blocking_index_sublist 0 cs [] idx [] Hrun) with k; done. }
    apply before_enumerate in Hb as (Hlt & H1 & H2). split; [done|].
    split; [done|]. split; [done|].
    destruct Hpair as (l1 & l2 & l3 & ->).
    pose proof (build_blocking_index_block_keys 0 cs [] idx Hrun ltac:(done) k _ (i, c1) Hin)
      as Hk1.
    pose proof (build_blocking_index_block_keys 0 cs [] idx Hrun ltac:(done) k _ (j, c2) Hin)
      as Hk2.
    unfold has_key in Hk1, Hk2. cbn [snd] in Hk1, Hk2.
    assert (In (i, c1) (l1 ++ (i, c1) :: l2 ++ (j, c2) :: l3)) as Hi1.
    { apply in_app_iff. right. by left. }
    assert (In (j, c2) (l1 ++ (i, c1) :: l2 ++ (j, c2) :: l3)) as Hi2.
    { apply in_app_iff. right. right. apply in_app_iff. right. by left. }
    apply Hk1, bool_decide_eq_true_1 in Hi1. apply Hk2, bool_decide_eq_true_1 in Hi2.
    congruence.
  - intros (Hlt & H1 & H2 & Hkeys).
    destruct (build_blocking_index_keys 0 cs [] idx c1 Hrun) as [k Hk].
    { apply list_elem_of_In, list_elem_of_lookup. eauto. }
    pose proof (build_blocking_index_filter _ _ _ _ Hrun k) as Hblock.
    cbn [dict_get default app] in Hblock.
    assert (before (default [] (dict_get k idx)) (i, c1) (j, c2)) as Hb.
    { rewrite Hblock. apply before_filter.
      - unfold has_key. by apply bool_decide_eq_true_2.
      - unfold has_key. apply bool_decide_eq_true_2. cbn [snd]. congruence.
      - by apply before_enumerate. }
    destruct (dict_get k idx) as [b|] eqn:Hget.
    + exists (k, b). split; [by apply dict_get_In | by apply in_block_pairs].
    + destruct Hb as (l1 & l2 & l3 & Heq). by destruct l1.
Qed.

End BlockingIndexFacts.

Section FindDuplicatesFacts.
Context `{FuzzLib}.
Variable self : EntityResolver.
Local Open Scope Q_scope.

Lemma fold_leftM_map {A B C : Type} (f : A -> C -> option A) (h : B -> C)
    (l : list B) (a : A) :
  fold_leftM f (List.map h l) a = fold_leftM (fun x b => f x (h b)) l a.
Proof.
  revert a. induction l as [|b l IH]; intros a; [done|].
  cbn [List.map fold_leftM]. destruct (f a (h b)); [apply IH | done].
Qed.

Lemma compare_block_pairs block st :
  compare_block self block st = fold_leftM (compare_step self) (block_pairs block) st.
Proof.
  revert st. induction block as [|p1 rest IH]; intros st; [done|].
  cbn [compare_block block_pairs]. rewrite fold_leftM_app, fold_leftM_map.
  unfold compare_step at 1. cbn [fst snd].
  destruct (fold_leftM _ rest st) as [st'|]; [apply IH | done].
Qed.

Lemma compare_index_pairs (idx : list (pystr * list (nat * UnifiedCompany))) st :
  fold_leftM (fun st '(_, block_companies) => compare_block self block_companies st) idx st
  = fold_leftM (compare_step self) (index_pairs idx) st.
Proof.
  revert st. induction idx as [|[k b] idx IH]; intros st; [done|].
  cbn [fold_leftM]. unfold index_pairs. cbn [flat_map].
  rewrite fold_leftM_app, compare_block_pairs.
  destruct (fold_leftM (compare_step self) (block_pairs b) st) as [st'|]; [apply IH | done].
Qed.

(** [find_duplicates] is one pass over the pairs of the blocking index. *)
Lemma find_duplicates_unfold cs :
  find_duplicates self cs
  = idx ← build_blocking_index 0 cs [];
    st ← fold_leftM (compare_step self) (index_pairs idx) (∅, []);
    Some (snd st).
Proof.
  unfold find_duplicates. destruct (build_blocking_index 0 cs []) as [idx|]; [|done].
  cbn [mbind option_bind]. by rewrite compare_index_pairs.
Qed.

Lemma new_CompanyMatch_inv a b s fs ty rv m :
  new_CompanyMatch a b s fs ty rv = Some m ->
  company_a_id m = a /\ company_b_id m = b /\ match_score m = s
  /\ match_fields m = fs /\ match_type m = ty /\ requires_review m = rv.
Proof. unfold new_CompanyMatch. case_match; [|done]. by intros [= <-]. Qed.

(** The classification computed in the loop body. *)
Lemma classified_new a b s fs m :
  Qle_bool (min_threshold self) s = true ->
  new_CompanyMatch a b s fs
    (if Qle_bool (exact_threshold self) s then exact else fuzzy)
    (Qle_bool (review_threshold self) s && negb (Qle_bool (exact_threshold self) s))
  = Some m ->
  classified self m.
Proof.
  intros Hmin (_ & _ & Hs & _ & Hty & Hrv)%new_CompanyMatch_inv.
  unfold classified. rewrite Hs, Hty, Hrv.
  apply Qle_bool_iff in Hmin.
  destruct (Qle_bool (exact_threshold self) s) eqn:He.
  - apply Qle_bool_iff in He. rewrite andb_false_r.
    split; [done|]. split; [done|]. split.
    + split; [done|]. intros [_ Hlt]. by apply Qlt_not_le in Hlt.
    + split; [done|]. intros [_ Hlt]. by apply Qlt_not_le in Hlt.
  - assert (s < exact_threshold self) as Hlt.
    { apply Qnot_le_lt. intros Hle%Qle_bool_iff. congruence. }
    rewrite andb_true_r. split; [done|]. split.
    + split; [done|]. intros Hle. by apply Qlt_not_le in Hlt.
    + split; [done|]. rewrite <- Qle_bool_iff. split; [by intros -> | by intros [-> _]].
Qed.

(** One execution of the loop body, when it returns. *)
Lemma compare_pair_inv pp ms i c1 j c2 pp' ms' :
  compare_pair self (pp, ms) (i, c1) (j, c2) = Some (pp', ms') ->
  ((Nat.min i j, Nat.max i j) ∈ pp /\ pp' = pp /\ ms' = ms)
  \/ (~ (Nat.min i j, Nat.max i j) ∈ pp
      /\ pp' = (pp ∪ {[ (Nat.min i j, Nat.max i j) ]})
      /\ exists s fs, calculate_company_similarity c1 c2 = Some (s, fs)
         /\ ((Qle_bool (min_threshold self) s = false /\ ms' = ms)
             \/ (Qle_bool (min_threshold self) s = true
                 /\ exists m, ms' = ms ++ [m] /\ classified self m
                    /\ company_a_id m = company_key i c1
                    /\ company_b_id m = company_key j c2
                    /\ match_score m = s /\ match_fields m = fs))).
Proof.
  unfold compare_pair. intros Hrun.
  destruct (decide ((Nat.min i j, Nat.max i j) ∈ pp)) as [Hin | Hnin].
  - left. by injection Hrun as <- <-.
  - right. split; [done|].
    destruct (calculate_company_similarity c1 c2) as [[s fs]|]; [|done].
    cbn [mbind option_bind] in Hrun.
    destruct (Qle_bool (min_threshold self) s) eqn:Hmin.
    + destruct (new_CompanyMatch _ _ _ _ _ _) as [m|] eqn:Hm; [|done].
      injection Hrun as <- <-. split; [done|]. exists s, fs. split; [done|].
      right. split; [done|]. exists m. split; [done|].
      split; [by apply (classified_new _ _ _ _ _ Hmin Hm)|].
      apply new_CompanyMatch_inv in Hm. tauto.
    + injection Hrun as <- <-. split; [done|]. exists s, fs. split; [done|]. by left.
Qed.

Lemma emitted_app ms m i c1 j c2 s fs :
  emitted ms i c1 j c2 s fs -> emitted (ms ++ [m]) i c1 j c2 s fs.
Proof.
  intros (m0 & Hin & Hrest). exists m0. split; [|done]. apply in_app_iff. by left.
Qed.

(** What one pass over a list of pairs ordered by position leaves. *)
Lemma compare_pairs_invariant
    (pairs : list ((nat * UnifiedCompany) * (nat * UnifiedCompany))) pp ms :
  (forall i c1 j c2, In ((i, c1), (j, c2)) pairs -> (i < j)%nat) ->
  (forall i c1 j c2 c1' c2', In ((i, c1), (j, c2)) pairs ->
     In ((i, c1'), (j, c2')) pairs -> c1 = c1' /\ c2 = c2') ->
  fold_leftM (compare_step self) pairs (∅, []) = Some (pp, ms) ->
  Forall (classified self) ms
  /\ forall i c1 j c2 s fs, In ((i, c1), (j, c2)) pairs ->
       calculate_company_similarity c1 c2 = Some (s, fs) ->
       min_threshold self <= s -> emitted ms i c1 j c2 s fs.
Proof.
  intros Hlt Hdet Hrun.
  pose (P := fun (seen : list ((nat * UnifiedCompany) * (nat * UnifiedCompany)))
                 (st : gset (nat * nat) * list CompanyMatch) =>
    (forall p, In p seen -> In p pairs)
    /\ Forall (classified self) (snd st)
    /\ (forall a b, (a, b) ∈ fst st ->
          exists c1 c2, In ((a, c1), (b, c2)) seen)
    /\ (forall i c1 j c2 s fs, In ((i, c1), (j, c2)) seen ->
          calculate_company_similarity c1 c2 = Some (s, fs) ->
          min_threshold self <= s -> emitted (snd st) i c1 j c2 s fs)).
  assert (P pairs (pp, ms)) as (_ & Hcl & _ & Hem); [|by split].
  apply (fold_leftM_invariant P (compare_step self) pairs (∅, []) (pp, ms)); [| |done].
  - split; [done|]. split; [done|]. split; [|done]. intros a b Hab. set_solver.
  - clear Hrun pp ms.
    intros seen [[i c1] [j c2]] [pp ms] [pp' ms'] (Hseen & Hcl & Hpp & Hem) Hin Hstep.
    unfold compare_step in Hstep. cbn [fst snd] in *.
    pose proof (Hlt _ _ _ _ Hin) as Hij.
    apply compare_pair_inv in Hstep.
    rewrite Nat.min_l, Nat.max_r in Hstep by lia.
    assert (forall p, In p (seen ++ [(i, c1, (j, c2))]) -> In p pairs) as Hseen'.
    { intros p [Hp | [<- | []]]%in_app_iff; [by apply Hseen | done]. }
    split; [done|].
    destruct Hstep as [(Hkey & -> & ->) | (Hkey & -> & s & fs & Hsim & Hcase)].
    + split; [done|]. split.
      * intros a b Hab. destruct (Hpp a b Hab) as (d1 & d2 & Hd).
        exists d1, d2. apply in_app_iff. by left.
      * intros i' d1 j' d2 s fs [Hold | [[= <- <- <- <-] | []]]%in_app_iff;
          [by apply Hem|].
        destruct (Hpp _ _ Hkey) as (e1 & e2 & He).
        destruct (Hdet i c1 j c2 e1 e2 Hin (Hseen _ He)) as [<- <-].
        by apply Hem.
    + assert (forall a b, (a, b) ∈ pp ∪ {[(i, j)]} ->
                exists d1 d2, In ((a, d1), (b, d2)) (seen ++ [(i, c1, (j, c2))])) as Hpp'.
      { intros a b [Hab | Hab%elem_of_singleton]%elem_of_union.
        - destruct (Hpp a b Hab) as (d1 & d2 & Hd). exists d1, d2.
          apply in_app_iff. by left.
        - injection Hab as -> ->. exists c1, c2. apply in_app_iff. right. by left. }
      destruct Hcase as [(Hmin & ->) | (Hmin & m & -> & Hm & Ha & Hb & Hs & Hfs)].
      * split; [done|]. split; [done|].
        intros i' d1 j' d2 s' fs' [Hold | [[= <- <- <- <-] | []]]%in_app_iff Hsim' Hle;
          [by apply (Hem _ _ _ _ _ _ Hold)|].
        rewrite Hsim in Hsim'. injection Hsim' as <- <-.
        apply Qle_bool_iff in Hle. congruence.
      * split; [apply Forall_app; split; [done | by apply Forall_singleton]|].
        split; [done|].
        intros i' d1 j' d2 s' fs' [Hold | [[= <- <- <- <-] | []]]%in_app_iff Hsim' Hle.
        -- apply emitted_app. by apply (Hem _ _ _ _ _ _ Hold).
        -- rewrite Hsim in Hsim'. injection Hsim' as <- <-.
           exists m. split; [apply in_app_iff; right; by left | done].
Qed.

(** C2: for every pair of records that [find_duplicates] compares (the
    records at positions [i < j] with the same blocking key), a candidate is
    emitted if and only if the score is at least [min_threshold]; an emitted
    candidate is [exact] iff its score is at least [exact_threshold], [fuzzy]
    iff the score is at least [min_threshold] and below [exact_threshold], and
    it requires review iff the score is at least [review_threshold] and below
    [exact_threshold]. *)
Theorem find_duplicates_classifies (cs : list UnifiedCompany) (ms : list CompanyMatch) :
  find_duplicates self cs = Some ms ->
  Forall (classified self) ms
  /\ forall i j c1 c2 s fs,
       (i < j)%nat -> cs !! i = Some c1 -> cs !! j = Some c2 ->
       create_blocking_key c1 = create_blocking_key c2 ->
       calculate_company_similarity c1 c2 = Some (s, fs) ->
       (emitted ms i c1 j c2 s fs <-> min_threshold self <= s).
Proof.
  rewrite find_duplicates_unfold.
  destruct (build_blocking_index 0 cs []) as [idx|] eqn:Hidx; [|done].
  cbn [mbind option_bind].
  destruct (fold_leftM (compare_step self) (index_pairs idx) (∅, [])) as [[pp ms']|] eqn:Hrun;
    [|done].
  intros [= <-].
  destruct (compare_pairs_invariant (index_pairs idx) pp ms') as [Hcl Hem]; [| |done|].
  - intros i c1 j c2 Hin. by apply (index_pairs_spec cs idx) in Hin as (? & _).
  - intros i c1 j c2 c1' c2' Hin Hin'.
    apply (index_pairs_spec cs idx) in Hin as (_ & H1 & H2 & _); [|done].
    apply (index_pairs_spec cs idx) in Hin' as (_ & H1' & H2' & _); [|done].
    split; congruence.
  - split; [done|]. intros i j c1 c2 s fs Hlt H1 H2 Hkey Hsim. split.
    + intros (m & Hin & _ & _ & <- & _).
      rewrite Forall_forall in Hcl. apply list_elem_of_In in Hin.
      by destruct (Hcl m Hin) as [Hmin _].
    + intros Hle. apply Hem; [|done|done]. by apply (index_pairs_spec cs idx).
Qed.

End FindDuplicatesFacts.

Section ResolverReturns.
Context `{FuzzLib}.
Hypothesis fuzz_ratio_range : forall a b, 0 <= fuzz_ratio a b <= 100.
Hypothesis fuzz_token_sort_ratio_range :
  forall a b, 0 <= fuzz_token_sort_ratio a b <= 100.
Variable self : EntityResolver.

Lemma new_CompanyMatch_total a b s fs ty rv :
  unit_score s -> is_Some (new_CompanyMatch a b s fs ty rv).
Proof.
  intros [H0 H1]. unfold new_CompanyMatch.
  apply Qle_bool_iff in H0, H1. rewrite H0, H1. by eexists.
Qed.

Lemma compare_pair_total st p1 p2 :
  url_ok (snd p1) -> url_ok (snd p2) -> is_Some (compare_pair self st p1 p2).
Proof.
  destruct st as [pp ms], p1 as [i c1], p2 as [j c2]. cbn [snd]. intros H1 H2.
  unfold compare_pair. case_decide; [by eexists|].
  destruct (domain_score_total c1 c2 H1 H2) as [d Hd].
  destruct (calculate_company_similarity_total c1 c2 d Hd) as (s & fs & Hsim).
  rewrite Hsim. cbn [mbind option_bind].
  destruct (Qle_bool (min_threshold self) s); [|by eexists].
  pose proof (calculate_company_similarity_unit fuzz_ratio_range
                fuzz_token_sort_ratio_range c1 c2 s fs Hsim) as Hunit.
  destruct (new_CompanyMatch_total (company_key i c1) (company_key j c2) s fs
              (if Qle_bool (exact_threshold self) s then exact else fuzzy)
              (Qle_bool (review_threshold self) s
               && negb (Qle_bool (exact_threshold self) s)) Hunit) as [m ->].
  by eexists.
Qed.

Lemma build_blocking_index_total i cs idx0 :
  Forall url_ok cs -> is_Some (build_blocking_index i cs idx0).
Proof.
  intros Hok. revert i idx0. induction Hok as [|c cs Hc _ IH]; intros i idx0;
    [by eexists|].
  cbn [build_blocking_index].
  destruct (create_blocking_key_total c Hc) as [k ->]. apply IH.
Qed.

(** On records whose URLs have the shape that their type guarantees,
    [find_duplicates] returns. *)
Lemma find_duplicates_total (cs : list UnifiedCompany) :
  Forall url_ok cs -> is_Some (find_duplicates self cs).
Proof.
  intros Hok. rewrite find_duplicates_unfold.
  destruct (build_blocking_index_total 0 cs [] Hok) as [idx Hidx]. rewrite Hidx.
  cbn [mbind option_bind].
  destruct (fold_leftM_total (fun _ => True) (compare_step self) (index_pairs idx) (∅, []))
    as (st & -> & _); [done| |by eexists].
  intros [[i c1] [j c2]] st _ Hin.
  apply (index_pairs_spec cs idx) in Hin as (_ & H1 & H2 & _); [|done].
  rewrite Forall_forall in Hok.
  destruct (compare_pair_total st (i, c1) (j, c2)) as [st' Hst'].
  - apply Hok, list_elem_of_lookup. eauto.
  - apply Hok, list_elem_of_lookup. eauto.
  - by exists st'.
Qed.

(** C9: with [auto_merge=false], [resolve_duplicates] returns the input
    sequence itself, unchanged, together with the full list of candidates
    that [find_duplicates] produces; no grouping or merging takes place. *)
Theorem resolve_duplicates_without_merge (cs : list UnifiedCompany) :
  Forall url_ok cs ->
  exists ms, find_duplicates self cs = Some ms
             /\ resolve_duplicates self cs false = Some (cs, ms).
Proof.
  intros Hok. destruct (find_duplicates_total cs Hok) as [ms Hms].
  exists ms. split; [done|]. unfold resolve_duplicates. rewrite Hms.
  cbn [mbind option_bind]. by destruct ms.
Qed.

End ResolverReturns.

Section ResolverExamples.
Import Examples.
#[local] Existing Instance lev_fuzz.

Lemma chain_url_ok : Forall url_ok [chain_a; chain_b; chain_c].
Proof. repeat constructor; intros _; vm_compute; lia. Qed.

Lemma find_duplicates_classifies_witness :
  exists ms,
    find_duplicates default_resolver [chain_a; chain_b; chain_c] = Some ms
    /\ Forall (classified default_resolver) ms.
Proof.
  eexists. split; [vm_compute; reflexivity|].
  match goal with |- Forall _ ?ms =>
    assert (find_duplicates default_resolver [chain_a; chain_b; chain_c] = Some ms)
      as Hrun by (vm_compute; reflexivity)
  end.
  exact (proj1 (find_duplicates_classifies default_resolver _ _ Hrun)).
Defined.

Lemma resolve_duplicates_without_merge_witness :
  (forall a b, 0 <= lev_ratio a b <= 100)
  /\ (forall a b, 0 <= lev_token_sort_ratio a b <= 100)
  /\ Forall url_ok [chain_a; chain_b; chain_c]
  /\ exists ms,
       find_duplicates default_resolver [chain_a; chain_b; chain_c] = Some ms
       /\ resolve_duplicates default_resolver [chain_a; chain_b; chain_c] false
          = Some ([chain_a; chain_b; chain_c], ms).
Proof.
  split; [exact lev_ratio_range|]. split; [exact lev_token_sort_ratio_range|].
  split; [exact chain_url_ok|].
  exact (resolve_duplicates_without_merge lev_ratio_range lev_token_sort_ratio_range
           default_resolver _ chain_url_ok).
Defined.

End ResolverExamples.

(** ** The blocking key *)

Section BlockingKeyFacts.
Import CompanyNormalizer Examples.

Lemma filter_all {A : Type} (f : A -> bool) (l : list A) :
  Forall (fun x => f x = true) l -> List.filter f l = l.
Proof.
  induction 1 as [|x l Hx _ IH]; [done|]. cbn [List.filter]. by rewrite Hx, IH.
Qed.

Lemma filter_filter_same {A : Type} (f : A -> bool) (l : list A) :
  List.filter f (List.filter f l) = List.filter f l.
Proof.
  apply filter_all, Forall_forall. intros x Hx%list_elem_of_In.
  by apply filter_In in Hx as [_ Hx].
Qed.






End BlockingKeyFacts.

(** ** Repeated normalization *)

Section Idempotence.
Import CompanyNormalizer RecordNormalizer Examples.




End Idempotence.

(** ** Merging on the store *)

Section StoreSteps.
Import Store.

Lemma bind_run {A B : Type} (m : M A) (f : A -> M B) h a h1 :
  m h = Some (a, h1) -> (m ≫= f) h = f a h1.
Proof. unfold mbind, M_bind. by intros ->. Qed.

Lemma alloc_run (o : obj) (h : store) :
  exists l, alloc o h = Some (l, <[l := o]> h) /\ h !! l = None.
Proof.
  exists (fresh (dom h)). split; [done|]. apply not_elem_of_dom, is_fresh.
Qed.

Lemma write_run (l : loc) (o o' : obj) (h : store) :
  h !! l = Some o' -> write l o h = Some (tt, <[l := o]> h).
Proof. unfold write. by intros ->. Qed.

Lemma read_company_run l h c :
  h !! l = Some (OCompany c) -> read_company l h = Some (c, h).
Proof. unfold read_company. by intros ->. Qed.

Lemma read_identity_run l h i :
  h !! l = Some (OIdentity i) -> read_identity l h = Some (i, h).
Proof. unfold read_identity. by intros ->. Qed.

Lemma read_web_run l h w : h !! l = Some (OWeb w) -> read_web l h = Some (w, h).
Proof. unfold read_web. by intros ->. Qed.

Lemma read_contacts_run l h c :
  h !! l = Some (OContacts c) -> read_contacts l h = Some (c, h).
Proof. unfold read_contacts. by intros ->. Qed.

Lemma read_meta_run l h b : h !! l = Some (OMeta b) -> read_meta l h = Some (b, h).
Proof. unfold read_meta. by intros ->. Qed.

Lemma points_to_weaken {A : Type} (mk : A -> obj) (h h' : store) o v :
  h ⊆ h' -> points_to mk h o v -> points_to mk h' o v.
Proof.
  intros Hsub. destruct o as [l|], v as [a|]; cbn; try done.
  intros Hl. by apply (lookup_weaken h).
Qed.

Lemma represents_weaken (h h' : store) l v :
  h ⊆ h' -> represents h l v -> represents h' l v.
Proof.
  intros Hsub (o & Hl & Hi & Hw & Hc & Hb & Hrest). exists o.
  split; [by apply (lookup_weaken h)|]. split; [by apply (lookup_weaken h)|].
  repeat (split; [by apply (points_to_weaken _ h)|]). done.
Qed.

Lemma snapshot_represents (h : store) l v : snapshot h l = Some v <-> represents h l v.
Proof.
  unfold snapshot, represents, read_company, read_identity, read_opt,
    read_web, read_contacts, read_meta. split.
  - intros Hs. destruct (h !! l) as [[o| | | |]|]; try done. cbn in Hs.
    exists o. split; [done|].
    destruct (h !! o_identity o) as [[|i| | |]|]; try done. cbn in Hs.
    repeat match type of Hs with
           | context [match ?x with Some _ => _ | None => _ end] =>
               let E := fresh "E" in destruct x eqn:E; cbn in Hs; try done
           | context [match ?x with OCompany _ => _ | _ => _ end] =>
               destruct x; cbn in Hs; try done
           end;
      injection Hs as <-; cbn; rewrite ?E, ?E0, ?E1; done.
  - intros (o & -> & Hi & Hw & Hc & Hb & H1 & H2 & H3 & H4 & H5). cbn.
    rewrite Hi. cbn. destruct v as [vid vi vw vc vb vp vcan vs vg]. cbn in *.
    destruct (o_web_presence o) as [lw|], vw as [w|]; try done;
      destruct (o_contacts o) as [lc|], vc as [c|]; try done;
      destruct (o_business_meta o) as [lb|], vb as [b|]; try done;
      cbn in *; rewrite ?Hw, ?Hc, ?Hb; cbn; by subst.
Qed.

End StoreSteps.

Section SubModels.
Import Store.
Context {A : Type} (rd : loc -> M A) (mk : A -> obj).
Hypothesis rd_run : forall l h a, h !! l = Some (mk a) -> rd l h = Some (a, h).
Hypothesis mk_kind : forall a o, mk a <> OCompany o.

(** A deep copy of an optional sub-model is a new object with the same
    value. *)
Lemma copy_opt_run (h : store) (o : option loc) (v : option A) :
  points_to mk h o v ->
  exists o' h',
    copy_opt rd mk o h = Some (o', h') /\ h ⊆ h'
    /\ points_to mk h' o' v /\ fresh_in h o'.
Proof.
  destruct o as [l|], v as [a|]; cbn [points_to]; try done.
  - intros Hl. destruct (alloc_run (mk a) h) as (l' & Hal & Hfresh).
    exists (Some l'), (<[l' := mk a]> h). split.
    + unfold copy_opt. rewrite (bind_run _ _ _ _ _ (rd_run _ _ _ Hl)).
      by rewrite (bind_run _ _ _ _ _ Hal).
    + split; [by apply insert_subseteq|]. split; [|done].
      cbn. by rewrite lookup_insert_eq.
  - intros _. exists None, h. by repeat split.
Qed.

(** One merge block: the objects that existed before the merge began, those
    of [h0], are left as they are; afterwards the sub-model of [merged]
    holds the merged value. *)
Lemma merge_sub_run (get : CompanyObj -> option loc)
    (set : CompanyObj -> option loc -> CompanyObj) (combine : A -> A -> A)
    (h0 h : store) (merged : loc) (om o2 : CompanyObj) (v1 v2 : option A) :
  (forall o x, get (set o x) = x) ->
  h0 ⊆ h -> h0 !! merged = None -> h !! merged = Some (OCompany om) ->
  points_to mk h (get om) v1 -> fresh_in h0 (get om) ->
  points_to mk h (get o2) v2 ->
  exists h' om',
    merge_sub rd mk get set combine merged o2 h = Some (tt, h')
    /\ h0 ⊆ h'
    /\ h' !! merged = Some (OCompany om')
    /\ (om' = om \/ om' = set om (get o2))
    /\ points_to mk h' (get om') (merge_opt combine v1 v2)
    /\ (forall l, l <> merged -> get om <> Some l -> h' !! l = h !! l).
Proof.
  intros Hgs Hsub Hfresh Hm H1 Hf1 H2. unfold merge_sub.
  destruct (get o2) as [l2|] eqn:Hg2, v2 as [b|]; cbn [points_to] in H2; try done.
  - rewrite (bind_run _ _ _ _ _ (read_company_run _ _ _ Hm)).
    destruct (get om) as [lm|] eqn:Hgm, v1 as [a|]; cbn [points_to] in H1; try done.
    + (* both present: the copy held by [merged] is updated in place *)
      rewrite (bind_run _ _ _ _ _ (rd_run _ _ _ H1)).
      rewrite (bind_run _ _ _ _ _ (rd_run _ _ _ H2)).
      rewrite (write_run _ _ _ _ H1).
      assert (lm <> merged) as Hne.
      { intros ->. rewrite Hm in H1. injection H1 as H1. symmetry in H1.
        by apply mk_kind in H1. }
      exists (<[lm := mk (combine a b)]> h), om.
      split; [done|]. split; [by apply insert_subseteq_r|].
      split; [by rewrite lookup_insert_ne|]. split; [by left|].
      split; [rewrite Hgm; cbn; by rewrite lookup_insert_eq|].
      intros l _ Hl. rewrite lookup_insert_ne; [done | congruence].
    + (* [merged] has none: it is bound to the object of the second record *)
      rewrite (write_run _ _ _ _ Hm).
      exists (<[merged := OCompany (set om (Some l2))]> h), (set om (Some l2)).
      split; [done|]. split; [by apply insert_subseteq_r|].
      split; [by rewrite lookup_insert_eq|]. split; [by right|].
      split.
      * rewrite Hgs. cbn. rewrite lookup_insert_ne; [done|].
        intros ->. rewrite Hm in H2. injection H2 as H2. symmetry in H2.
        by apply mk_kind in H2.
      * intros l Hl _. by rewrite lookup_insert_ne.
  - exists h, om. split; [done|]. split; [done|]. split; [done|].
    split; [by left|]. split; [|done].
    by destruct (get om), v1.
Qed.

End SubModels.

Section StoreMerge.
Import Store.

Lemma fresh_in_weaken (h h' : store) (o : option loc) :
  h ⊆ h' -> fresh_in h' o -> fresh_in h o.
Proof.
  intros Hsub. destruct o as [l|]; cbn; [|done].
  intros Hl. by apply (lookup_weaken_None h h').
Qed.

(** A reference to a sub-model does not lead to an object of another kind. *)
Lemma points_to_other {A : Type} (mk : A -> obj) (h : store) o v l x :
  points_to mk h o v -> h !! l = Some x -> (forall a, mk a <> x) -> o <> Some l.
Proof.
  intros Hp Hl Hk ->. destruct v as [a|]; cbn in Hp; [|done].
  rewrite Hl in Hp. injection Hp as ->. by apply (Hk a).
Qed.

Lemma points_to_frame {A : Type} (mk : A -> obj) (h h' : store) o v :
  points_to mk h o v -> (forall l, o = Some l -> h' !! l = h !! l) ->
  points_to mk h' o v.
Proof.
  destruct o as [l|], v as [a|]; cbn; try done.
  intros Hl Hsame. by rewrite Hsame.
Qed.

(** [company.copy(deep=True)]: new objects throughout, with the value of the
    original. *)
Lemma copy_deep_run (h : store) (l : loc) (v : UnifiedCompany) :
  represents h l v ->
  exists m h' om,
    copy_deep l h = Some (m, h') /\ h ⊆ h'
    /\ h !! m = None /\ h' !! m = Some (OCompany om)
    /\ h !! o_identity om = None
    /\ h' !! o_identity om = Some (OIdentity (identity v))
    /\ points_to OWeb h' (o_web_presence om) (web_presence v)
    /\ fresh_in h (o_web_presence om)
    /\ points_to OContacts h' (o_contacts om) (contacts v)
    /\ fresh_in h (o_contacts om)
    /\ points_to OMeta h' (o_business_meta om) (business_meta v)
    /\ fresh_in h (o_business_meta om)
    /\ o_id om = id v /\ o_provenance om = provenance v
    /\ o_canonical_id om = canonical_id v
    /\ o_confidence_score om = confidence_score v
    /\ o_gdpr_suppressed om = gdpr_suppressed v.
Proof.
  intros (o & Hl & Hi & Hw & Hc & Hb & H1 & H2 & H3 & H4 & H5).
  unfold copy_deep.
  rewrite (bind_run _ _ _ _ _ (read_company_run _ _ _ Hl)).
  rewrite (bind_run _ _ _ _ _ (read_identity_run _ _ _ Hi)).
  destruct (alloc_run (OIdentity (identity v)) h) as (li & Hal & Hli).
  rewrite (bind_run _ _ _ _ _ Hal). set (h1 := <[li := _]> h).
  assert (h ⊆ h1) as S1 by (by apply insert_subseteq).
  destruct (copy_opt_run read_web OWeb read_web_run h1 (o_web_presence o)
              (web_presence v)) as (lw & h2 & Hcw & S2 & Pw & Fw);
    [by apply (points_to_weaken _ h)|].
  rewrite (bind_run _ _ _ _ _ Hcw).
  assert (h ⊆ h2) as S02 by (by etrans).
  destruct (copy_opt_run read_contacts OContacts read_contacts_run h2 (o_contacts o)
              (contacts v)) as (lc & h3 & Hcc & S3 & Pc & Fc);
    [by apply (points_to_weaken _ h)|].
  rewrite (bind_run _ _ _ _ _ Hcc).
  assert (h ⊆ h3) as S03 by (by etrans).
  destruct (copy_opt_run read_meta OMeta read_meta_run h3 (o_business_meta o)
              (business_meta v)) as (lb & h4 & Hcb & S4 & Pb & Fb);
    [by apply (points_to_weaken _ h)|].
  rewrite (bind_run _ _ _ _ _ Hcb).
  assert (h ⊆ h4) as S04 by (by etrans).
  pose (cm := {| o_id := o_id o; o_identity := li; o_web_presence := lw;
                 o_contacts := lc; o_business_meta := lb;
                 o_provenance := o_provenance o;
                 o_canonical_id := o_canonical_id o;
                 o_confidence_score := o_confidence_score o;
                 o_gdpr_suppressed := o_gdpr_suppressed o |}).
  destruct (alloc_run (OCompany cm) h4) as (m & Ham & Hm).
  assert (h4 ⊆ <[m := OCompany cm]> h4) as S5 by (by apply insert_subseteq).
  exists m, (<[m := OCompany cm]> h4), cm.
  cbn [cm o_identity o_web_presence o_contacts o_business_meta o_id
       o_provenance o_canonical_id o_confidence_score o_gdpr_suppressed].
  split; [done|]. split; [by etrans|].
  split; [by apply (lookup_weaken_None h h4)|].
  split; [by rewrite lookup_insert_eq|]. split; [done|].
  split.
  { apply (lookup_weaken h1); [by apply lookup_insert_eq|].
    etrans; [exact S2|]. etrans; [exact S3|]. by etrans. }
  split; [apply (points_to_weaken _ h2); [by etrans; [exact S3|]; etrans | done]|].
  split; [by apply (fresh_in_weaken h h1)|].
  split; [apply (points_to_weaken _ h3); [by etrans | done]|].
  split; [by apply (fresh_in_weaken h h2)|].
  split; [by apply (points_to_weaken _ h4)|].
  split; [by apply (fresh_in_weaken h h3)|].
  done.
Qed.

End StoreMerge.

Section StoreMergeResult.

Lemma set_web_presence_get o x : Store.o_web_presence (Store.set_web_presence o x) = x.
Proof. done. Qed.
Lemma set_contacts_get o x : Store.o_contacts (Store.set_contacts o x) = x.
Proof. done. Qed.
Lemma set_business_meta_get o x :
  Store.o_business_meta (Store.set_business_meta o x) = x.
Proof. done. Qed.

(** [merge_companies] on the store: it returns a new company object that
    holds the merge of the two values, and every object that existed before
    the call is left as it was. *)
Lemma merge_companies_run (h : Store.store) (c1 c2 : Store.loc)
    (v1 v2 : UnifiedCompany) :
  Store.represents h c1 v1 -> Store.represents h c2 v2 ->
  exists m h',
    Store.merge_companies c1 c2 h = Some (m, h')
    /\ h ⊆ h' /\ h !! m = None
    /\ Store.represents h' m (merge_companies v1 v2).
Proof.
  intros R1 R2.
  destruct (copy_deep_run h c1 v1 R1)
    as (m & h1 & om & Hcopy & S1 & Hm0 & Hm & Hli0 & Hli & Pw & Fw & Pc & Fc & Pb & Fb
        & E1 & E2 & E3 & E4 & E5).
  destruct R2 as (o2 & Hc2 & Hi2 & Pw2 & Pc2 & Pb2 & G1 & G2 & G3 & G4 & G5).
  unfold Store.merge_companies.
  rewrite (bind_run _ _ _ _ _ Hcopy).
  rewrite (bind_run _ _ _ _ _ (read_company_run _ _ _ (lookup_weaken _ _ _ _ Hc2 S1))).
  rewrite (bind_run _ _ _ _ _ (read_company_run _ _ _ Hm)).
  rewrite (bind_run _ _ _ _ _ (read_identity_run _ _ _ Hli)).
  rewrite (bind_run _ _ _ _ _ (read_identity_run _ _ _ (lookup_weaken _ _ _ _ Hi2 S1))).
  rewrite (bind_run _ _ _ _ _ (write_run _ _ _ _ Hli)).
  set (li := Store.o_identity om) in *.
  set (h2 := <[li := Store.OIdentity (merge_identity (identity v1) (identity v2))]> h1).
  assert (h ⊆ h2) as S2 by (by apply insert_subseteq_r).
  assert (h2 !! li
          = Some (Store.OIdentity (merge_identity (identity v1) (identity v2)))) as Hli2
    by apply lookup_insert_eq.
  assert (forall l, l <> li -> h2 !! l = h1 !! l) as F2
    by (intros l Hl; by apply lookup_insert_ne).
  assert (h2 !! m = Some (Store.OCompany om)) as Hm2.
  { rewrite F2; [done|]. intros ->. rewrite Hm in Hli. done. }
  assert (Store.points_to Store.OWeb h2 (Store.o_web_presence om) (web_presence v1)) as Pw'.
  { apply (points_to_frame _ h1); [done|]. intros l Hl. apply F2. intros ->.
    by apply (points_to_other _ _ _ _ _ _ Pw Hli). }
  assert (Store.points_to Store.OContacts h2 (Store.o_contacts om) (contacts v1)) as Pc'.
  { apply (points_to_frame _ h1); [done|]. intros l Hl. apply F2. intros ->.
    by apply (points_to_other _ _ _ _ _ _ Pc Hli). }
  assert (Store.points_to Store.OMeta h2 (Store.o_business_meta om) (business_meta v1))
    as Pb'.
  { apply (points_to_frame _ h1); [done|]. intros l Hl. apply F2. intros ->.
    by apply (points_to_other _ _ _ _ _ _ Pb Hli). }
  clearbody h2. clear Pw Pc Pb Hm Hli F2 Hcopy.
  (* web presence *)
  destruct (merge_sub_run Store.read_web Store.OWeb read_web_run ltac:(done)
              Store.o_web_presence Store.set_web_presence merge_web_presence
              h h2 m om o2 (web_presence v1) (web_presence v2)
              set_web_presence_get S2 Hm0 Hm2 Pw' Fw
              (points_to_weaken _ _ _ _ _ S2 Pw2))
    as (h3 & om3 & Hrun3 & S3 & Hm3 & Hom3 & Pw3 & F3).
  rewrite (bind_run _ _ _ _ _ Hrun3).
  assert (Store.o_identity om3 = li /\ Store.o_contacts om3 = Store.o_contacts om
          /\ Store.o_business_meta om3 = Store.o_business_meta om
          /\ Store.o_id om3 = Store.o_id om
          /\ Store.o_provenance om3 = Store.o_provenance om
          /\ Store.o_canonical_id om3 = Store.o_canonical_id om
          /\ Store.o_confidence_score om3 = Store.o_confidence_score om
          /\ Store.o_gdpr_suppressed om3 = Store.o_gdpr_suppressed om)
    as (I3 & C3 & B3 & X31 & X32 & X33 & X34 & X35)
    by (destruct Hom3 as [-> | ->]; done).
  assert (h3 !! li
          = Some (Store.OIdentity (merge_identity (identity v1) (identity v2)))) as Hli3.
  { rewrite F3; [done | |].
    - intros ->. rewrite Hm2 in Hli2. done.
    - by apply (points_to_other _ _ _ _ _ _ Pw' Hli2). }
  assert (Store.points_to Store.OContacts h3 (Store.o_contacts om3) (contacts v1)) as Pc3.
  { rewrite C3. apply (points_to_frame _ h2); [done|]. intros l Hl. apply F3.
    - intros ->. by apply (points_to_other _ _ _ _ _ _ Pc' Hm2).
    - destruct (contacts v1) as [a|]; rewrite Hl in Pc'; cbn in Pc'; [|done].
      by apply (points_to_other _ _ _ _ _ _ Pw' Pc'). }
  assert (Store.points_to Store.OMeta h3 (Store.o_business_meta om3) (business_meta v1))
    as Pb3.
  { rewrite B3. apply (points_to_frame _ h2); [done|]. intros l Hl. apply F3.
    - intros ->. by apply (points_to_other _ _ _ _ _ _ Pb' Hm2).
    - destruct (business_meta v1) as [a|]; rewrite Hl in Pb'; cbn in Pb'; [|done].
      by apply (points_to_other _ _ _ _ _ _ Pw' Pb'). }
  rewrite <- C3 in Fc. rewrite <- B3 in Fb.
  clear Hrun3 Hom3 F3 Hm2 Hli2 Pw' Pc' Pb' Fw C3 B3. clear h2 S2 S1 h1.
  (* contacts *)
  destruct (merge_sub_run Store.read_contacts Store.OContacts read_contacts_run
              ltac:(done) Store.o_contacts Store.set_contacts merge_contacts
              h h3 m om3 o2 (contacts v1) (contacts v2)
              set_contacts_get S3 Hm0 Hm3 Pc3 Fc
              (points_to_weaken _ _ _ _ _ S3 Pc2))
    as (h4 & om4 & Hrun4 & S4 & Hm4 & Hom4 & Pc4 & F4).
  rewrite (bind_run _ _ _ _ _ Hrun4).
  assert (Store.o_identity om4 = li
          /\ Store.o_web_presence om4 = Store.o_web_presence om3
          /\ Store.o_business_meta om4 = Store.o_business_meta om3
          /\ Store.o_id om4 = Store.o_id om
          /\ Store.o_provenance om4 = Store.o_provenance om
          /\ Store.o_canonical_id om4 = Store.o_canonical_id om
          /\ Store.o_confidence_score om4 = Store.o_confidence_score om
          /\ Store.o_gdpr_suppressed om4 = Store.o_gdpr_suppressed om)
    as (I4 & W4 & B4 & X41 & X42 & X43 & X44 & X45)
    by (destruct Hom4 as [-> | ->]; done).
  assert (h4 !! li
          = Some (Store.OIdentity (merge_identity (identity v1) (identity v2)))) as Hli4.
  { rewrite F4; [done | |].
    - intros ->. rewrite Hm3 in Hli3. done.
    - by apply (points_to_other _ _ _ _ _ _ Pc3 Hli3). }
  assert (Store.points_to Store.OWeb h4 (Store.o_web_presence om4)
            (Store.merge_opt merge_web_presence (web_presence v1) (web_presence v2)))
    as Pw4.
  { rewrite W4. apply (points_to_frame _ h3); [done|]. intros l Hl. apply F4.
    - intros ->. by apply (points_to_other _ _ _ _ _ _ Pw3 Hm3).
    - destruct (Store.merge_opt merge_web_presence (web_presence v1) (web_presence v2))
        as [a|]; rewrite Hl in Pw3; cbn in Pw3; [|done].
      by apply (points_to_other _ _ _ _ _ _ Pc3 Pw3). }
  assert (Store.points_to Store.OMeta h4 (Store.o_business_meta om4) (business_meta v1))
    as Pb4.
  { rewrite B4. apply (points_to_frame _ h3); [done|]. intros l Hl. apply F4.
    - intros ->. by apply (points_to_other _ _ _ _ _ _ Pb3 Hm3).
    - destruct (business_meta v1) as [a|]; rewrite Hl in Pb3; cbn in Pb3; [|done].
      by apply (points_to_other _ _ _ _ _ _ Pc3 Pb3). }
  rewrite <- B4 in Fb.
  clear Hrun4 Hom4 F4 Hm3 Hli3 Pw3 Pc3 Pb3 Fc W4 B4 I3. clear h3 S3.
  (* business meta *)
  destruct (merge_sub_run Store.read_meta Store.OMeta read_meta_run
              ltac:(done) Store.o_business_meta Store.set_business_meta
              merge_business_meta
              h h4 m om4 o2 (business_meta v1) (business_meta v2)
              set_business_meta_get S4 Hm0 Hm4 Pb4 Fb
              (points_to_weaken _ _ _ _ _ S4 Pb2))
    as (h5 & om5 & Hrun5 & S5 & Hm5 & Hom5 & Pb5 & F5).
  rewrite (bind_run _ _ _ _ _ Hrun5).
  assert (Store.o_identity om5 = li
          /\ Store.o_web_presence om5 = Store.o_web_presence om4
          /\ Store.o_contacts om5 = Store.o_contacts om4
          /\ Store.o_id om5 = Store.o_id om
          /\ Store.o_provenance om5 = Store.o_provenance om
          /\ Store.o_canonical_id om5 = Store.o_canonical_id om
          /\ Store.o_confidence_score om5 = Store.o_confidence_score om
          /\ Store.o_gdpr_suppressed om5 = Store.o_gdpr_suppressed om)
    as (I5 & W5 & C5 & X51 & X52 & X53 & X54 & X55)
    by (destruct Hom5 as [-> | ->]; done).
  assert (h5 !! li
          = Some (Store.OIdentity (merge_identity (identity v1) (identity v2)))) as Hli5.
  { rewrite F5; [done | |].
    - intros ->. rewrite Hm4 in Hli4. done.
    - by apply (points_to_other _ _ _ _ _ _ Pb4 Hli4). }
  assert (Store.points_to Store.OWeb h5 (Store.o_web_presence om5)
            (Store.merge_opt merge_web_presence (web_presence v1) (web_presence v2)))
    as Pw5.
  { rewrite W5. apply (points_to_frame _ h4); [done|]. intros l Hl. apply F5.
    - intros ->. by apply (points_to_other _ _ _ _ _ _ Pw4 Hm4).
    - destruct (Store.merge_opt merge_web_presence (web_presence v1) (web_presence v2))
        as [a|]; rewrite Hl in Pw4; cbn in Pw4; [|done].
      by apply (points_to_other _ _ _ _ _ _ Pb4 Pw4). }
  assert (Store.points_to Store.OContacts h5 (Store.o_contacts om5)
            (Store.merge_opt merge_contacts (contacts v1) (contacts v2))) as Pc5.
  { rewrite C5. apply (points_to_frame _ h4); [done|]. intros l Hl. apply F5.
    - intros ->. by apply (points_to_other _ _ _ _ _ _ Pc4 Hm4).
    - destruct (Store.merge_opt merge_contacts (contacts v1) (contacts v2))
        as [a|]; rewrite Hl in Pc4; cbn in Pc4; [|done].
      by apply (points_to_other _ _ _ _ _ _ Pb4 Pc4). }
  clear Hrun5 Hom5 F5 Hm4 Hli4 Pw4 Pc4 Pb4 Fb W5 C5 I4. clear h4 S4.
  (* provenance and confidence *)
  rewrite (bind_run _ _ _ _ _ (read_company_run _ _ _ Hm5)).
  rewrite (bind_run _ _ _ _ _ (write_run _ _ _ _ Hm5)).
  set (om6 := Store.set_provenance_confidence om5 _ _).
  exists m, (<[m := Store.OCompany om6]> h5).
  split; [done|]. split; [by apply insert_subseteq_r|]. split; [done|].
  exists om6. split; [by apply lookup_insert_eq|].
  assert (forall l x, h5 !! l = Some x -> (forall o, x <> Store.OCompany o) ->
            <[m := Store.OCompany om6]> h5 !! l = Some x) as F6.
  { intros l x Hl Hx. rewrite lookup_insert_ne; [done|].
    intros ->. rewrite Hm5 in Hl. injection Hl as <-. by apply (Hx om5). }
  split.
  { change (Store.o_identity om6) with (Store.o_identity om5). rewrite I5.
    by apply F6. }
  split.
  { change (Store.o_web_presence om6) with (Store.o_web_presence om5).
    replace (web_presence (merge_companies v1 v2))
      with (Store.merge_opt merge_web_presence (web_presence v1) (web_presence v2))
      by (cbn; by destruct (web_presence v1), (web_presence v2)).
    apply (points_to_frame _ h5); [done|]. intros l Hl.
    destruct (Store.merge_opt merge_web_presence (web_presence v1) (web_presence v2))
      as [a|]; rewrite Hl in Pw5; cbn in Pw5; [|done].
    rewrite Pw5. by apply F6. }
  split.
  { change (Store.o_contacts om6) with (Store.o_contacts om5).
    replace (contacts (merge_companies v1 v2))
      with (Store.merge_opt merge_contacts (contacts v1) (contacts v2))
      by (cbn; by destruct (contacts v1), (contacts v2)).
    apply (points_to_frame _ h5); [done|]. intros l Hl.
    destruct (Store.merge_opt merge_contacts (contacts v1) (contacts v2))
      as [a|]; rewrite Hl in Pc5; cbn in Pc5; [|done].
    rewrite Pc5. by apply F6. }
  split.
  { change (Store.o_business_meta om6) with (Store.o_business_meta om5).
    replace (business_meta (merge_companies v1 v2))
      with (Store.merge_opt merge_business_meta (business_meta v1) (business_meta v2))
      by (cbn; by destruct (business_meta v1), (business_meta v2)).
    apply (points_to_frame _ h5); [done|]. intros l Hl.
    destruct (Store.merge_opt merge_business_meta (business_meta v1) (business_meta v2))
      as [a|]; rewrite Hl in Pb5; cbn in Pb5; [|done].
    rewrite Pb5. by apply F6. }
  subst om6. cbn. rewrite X51, X52, X53, X54, X55, E1, E2, E3, E4, E5, G2, G4. done.
Qed.

End StoreMergeResult.

Section MergeFrame.

Lemma merge_all_run (h : Store.store) (base : Store.loc) (others : list Store.loc)
    (vb : UnifiedCompany) (vs : list UnifiedCompany) :
  Store.represents h base vb -> Forall2 (Store.represents h) others vs ->
  exists final h',
    Store.merge_all base others h = Some (final, h') /\ h ⊆ h'
    /\ Store.represents h' final (fold_left merge_companies vs vb).
Proof.
  revert h base vb vs. induction others as [|l others IH]; intros h base vb vs Hb Hothers.
  - apply Forall2_nil_inv_l in Hothers as ->. exists base, h. by repeat split.
  - apply Forall2_cons_inv_l in Hothers as (v & vs' & Hl & Hrest & ->).
    destruct (merge_companies_run h base l vb v Hb Hl) as (m & h1 & Hrun & S1 & _ & Hm).
    destruct (IH h1 m (merge_companies vb v) vs' Hm) as (final & h2 & Hrun2 & S2 & Hfinal).
    { eapply Forall2_impl; [exact Hrest|]. intros l' v'. by apply represents_weaken. }
    exists final, h2. cbn [Store.merge_all fold_left].
    rewrite (bind_run _ _ _ _ _ Hrun). split; [done|]. split; [by etrans | done].
Qed.

(** C10: [merge_companies] returns a new company object holding the merged
    record, and after the call, as after any sequence of further merges of
    its output with other records, every object that existed before is
    unchanged: both input records still have the value they had, in every
    field and in their web-presence, contacts and business-metadata
    sub-models. *)
Theorem merge_companies_leaves_inputs (h : Store.store) (c1 c2 : Store.loc)
    (others : list Store.loc) (v1 v2 : UnifiedCompany) (vs : list UnifiedCompany) :
  Store.snapshot h c1 = Some v1 -> Store.snapshot h c2 = Some v2 ->
  Forall2 (fun l v => Store.snapshot h l = Some v) others vs ->
  exists merged h' final h'',
    Store.merge_companies c1 c2 h = Some (merged, h')
    /\ h !! merged = None
    /\ h ⊆ h'
    /\ Store.snapshot h' c1 = Some v1 /\ Store.snapshot h' c2 = Some v2
    /\ Store.snapshot h' merged = Some (merge_companies v1 v2)
    /\ Store.merge_all merged others h' = Some (final, h'')
    /\ h ⊆ h''
    /\ Store.snapshot h'' c1 = Some v1 /\ Store.snapshot h'' c2 = Some v2
    /\ Store.snapshot h'' final = Some (fold_left merge_companies vs (merge_companies v1 v2)).
Proof.
  intros R1%snapshot_represents R2%snapshot_represents Hothers.
  destruct (merge_companies_run h c1 c2 v1 v2 R1 R2) as (m & h1 & Hrun & S1 & Hfresh & Hm).
  destruct (merge_all_run h1 m others (merge_companies v1 v2) vs Hm)
    as (final & h2 & Hrun2 & S2 & Hfinal).
  { eapply Forall2_impl; [exact Hothers|]. intros l v Hl%snapshot_represents.
    by apply (represents_weaken h). }
  exists m, h1, final, h2.
  split; [done|]. split; [done|]. split; [done|].
  split; [by apply snapshot_represents, (represents_weaken h)|].
  split; [by apply snapshot_represents, (represents_weaken h)|].
  split; [by apply snapshot_represents|]. split; [done|].
  split; [by etrans|].
  split; [apply snapshot_represents, (represents_weaken h); [by etrans | done]|].
  split; [apply snapshot_represents, (represents_weaken h); [by etrans | done]|].
  by apply snapshot_represents.
Qed.

Lemma merge_companies_leaves_inputs_witness :
  Store.snapshot Examples.sample_store 1%positive = Some Examples.chain_a
  /\ Store.snapshot Examples.sample_store 5%positive = Some Examples.name_only
  /\ exists merged h' final h'',
       Store.merge_companies 1%positive 5%positive Examples.sample_store
       = Some (merged, h')
       /\ Examples.sample_store !! merged = None
       /\ Examples.sample_store ⊆ h'
       /\ Store.snapshot h' 1%positive = Some Examples.chain_a
       /\ Store.snapshot h' 5%positive = Some Examples.name_only
       /\ Store.snapshot h' merged
          = Some (merge_companies Examples.chain_a Examples.name_only)
       /\ Store.merge_all merged [5%positive; 1%positive] h' = Some (final, h'')
       /\ Examples.sample_store ⊆ h''
       /\ Store.snapshot h'' 1%positive = Some Examples.chain_a
       /\ Store.snapshot h'' 5%positive = Some Examples.name_only
       /\ Store.snapshot h'' final
          = Some (fold_left merge_companies [Examples.name_only; Examples.chain_a]
                    (merge_companies Examples.chain_a Examples.name_only)).
Proof.
  assert (Store.snapshot Examples.sample_store 1%positive = Some Examples.chain_a) as H1
    by (vm_compute; reflexivity).
  assert (Store.snapshot Examples.sample_store 5%positive = Some Examples.name_only) as H5
    by (vm_compute; reflexivity).
  split; [exact H1|]. split; [exact H5|].
  apply (merge_companies_leaves_inputs Examples.sample_store 1%positive 5%positive
           [5%positive; 1%positive] _ _ [Examples.name_only; Examples.chain_a] H1 H5).
  repeat constructor; assumption.
Defined.

End MergeFrame.

(** ** [str.replace] and the address *)

Section ReplaceFacts.

Lemma replace_from_skip (old new s : pystr) (k : nat) :
  replace_from old new s k = replace_from old new (drop k s) 0.
Proof.
  revert k. induction s as [|c s IH]; intros k; [by destruct k|].
  destruct k as [|k]; [done|]. cbn [replace_from drop]. apply IH.
Qed.

(** The two equations of [replace] on a non-empty [old]. *)
Lemma replace_from_cons (old new : pystr) (c : char) (s : pystr) :
  replace_from old new (c :: s) 0
  = if startswith old (c :: s)
    then new ++ replace_from old new (drop (length old - 1) s) 0
    else c :: replace_from old new s 0.
Proof. cbn [replace_from]. by rewrite (replace_from_skip old new s (length old - 1)). Qed.

Lemma occurs_cons (x : pystr) (c : char) (s : pystr) :
  occurs x (c :: s) = startswith x (c :: s) || occurs x s.
Proof. done. Qed.







Lemma startswith_split (old s : pystr) :
  startswith old s = true -> s = old ++ drop (length old) s.
Proof.
  intros Hp%startswith_prefix. destruct Hp as [k ->].
  by rewrite drop_app_length.
Qed.


End ReplaceFacts.

Section AddressFacts.
Import CompanyNormalizer.





End AddressFacts.

Section TokenFacts.
Import CompanyNormalizer.




















End TokenFacts.

(** ** Words, patterns and the normalized name *)

Section WordFacts.
Import Re CompanyNormalizer.

Lemma words_cons (c : char) (s : pystr) :
  words (c :: s)
  = if is_word c then
      if is_word_opt (head s) then
        match words s with t :: ts => (c :: t) :: ts | [] => [[c]] end
      else [c] :: words s
    else words s.
Proof.
  cbn [words]. destruct (is_word c); [|done].
  destruct s as [|d s]; [done|]. cbn [head is_word_opt]. by destruct (is_word d).
Qed.





Lemma word_ok_head (w : pystr) : word_ok w -> is_word_opt (head w) = true.
Proof. intros [Hne Hw]. destruct w; [done|]. by inversion Hw. Qed.


Lemma words_word_ok (s : pystr) : Forall word_ok (words s).
Proof.
  induction s as [|c s IH]; [done|]. rewrite words_cons.
  destruct (is_word c) eqn:Hc; [|done].
  destruct (is_word_opt (head s)).
  - destruct (words s) as [|t ts]; [repeat constructor; done|].
    apply Forall_cons in IH as [[_ Ht] Hts]. constructor; [|done].
    split; [done | by constructor].
  - constructor; [|done]. split; [done | by repeat constructor].
Qed.







End WordFacts.

Section MatchFacts.
Import Re.

Variable ignorecase : bool.

Lemma lastp_cons (prev : option char) (c : char) (t : pystr) :
  lastp prev (c :: t) = lastp (Some c) t.
Proof.
  unfold lastp. destruct t as [|d t]; [done|]. rewrite last_cons_cons.
  destruct (last (d :: t)) eqn:Hl; [done|]. by apply last_None in Hl.
Qed.

Lemma greedy_inv (P : option char -> pystr -> nat -> Prop) (cs : cset)
    (k : option char -> pystr -> option nat) :
  (forall prev s n, k prev s = Some n -> P prev s n) ->
  (forall prev c s n, P (Some c) s n -> P prev (c :: s) (S n)) ->
  forall s prev n, greedy ignorecase cs k prev s = Some n -> P prev s n.
Proof.
  intros Hk Hstep. induction s as [|c s IH]; intros prev n; cbn [greedy]; [by apply Hk|].
  destruct (cset_match ignorecase cs c); [|by apply Hk].
  destruct (greedy ignorecase cs k (Some c) s) eqn:Hg; [|by apply Hk].
  intros [= <-]. apply Hstep. by apply IH.
Qed.

(** A property of matches that holds for the empty rest of a pattern and is
    kept when one more character is matched holds for every match. *)
Lemma match_here_inv (P : option char -> pystr -> nat -> Prop) (r0 : regex) :
  (forall prev s n, match_here ignorecase r0 prev s = Some n -> P prev s n) ->
  (forall prev c s n, P (Some c) s n -> P prev (c :: s) (S n)) ->
  forall r prev s n, match_here ignorecase (r ++ r0) prev s = Some n -> P prev s n.
Proof.
  intros Hbase Hstep. induction r as [|i r IH]; intros prev s n; [by apply Hbase|].
  cbn [app match_here]. destruct i as [|cs|cs|cs|cs].
  - destruct (at_boundary prev s); [by apply IH | done].
  - destruct s as [|c s]; [done|]. destruct (cset_match ignorecase cs c); [|done].
    destruct (match_here ignorecase (r ++ r0) (Some c) s) eqn:Hm; [|done].
    intros [= <-]. apply Hstep. by apply IH.
  - destruct s as [|c s]; [by apply IH|].
    destruct (cset_match ignorecase cs c); [|by apply IH].
    destruct (match_here ignorecase (r ++ r0) (Some c) s) eqn:Hm; [|by apply IH].
    intros [= <-]. apply Hstep. by apply IH.
  - apply greedy_inv; [apply IH | apply Hstep].
  - destruct s as [|c s]; [done|]. destruct (cset_match ignorecase cs c); [|done].
    destruct (greedy ignorecase cs (match_here ignorecase (r ++ r0)) (Some c) s) eqn:Hg; [|done].
    intros [= <-]. apply Hstep. revert Hg. apply greedy_inv; [apply IH | apply Hstep].
Qed.

(** A match is not longer than the string. *)
Lemma match_here_length (r : regex) (prev : option char) (s : pystr) (n : nat) :
  match_here ignorecase r prev s = Some n -> (n <= length s)%nat.
Proof.
  rewrite <- (app_nil_r r).
  apply (match_here_inv (fun _ s n => (n <= length s)%nat)).
  - intros ? ? ? [= <-]. lia.
  - intros ? ? ? ?. cbn. lia.
Qed.


(** Dropping the rest of a match. *)
Lemma sub_from_skip (r : regex) (repl : pystr) (s : pystr) (k : nat) (prev : option char) :
  (k <= length s)%nat ->
  sub_from ignorecase r repl prev s k
  = sub_from ignorecase r repl (lastp prev (take k s)) (drop k s) 0.
Proof.
  revert s prev. induction k as [|k IH]; intros s prev Hk.
  - by rewrite take_0, drop_0.
  - destruct s as [|c s]; [cbn in Hk; lia|]. cbn [sub_from take drop].
    rewrite lastp_cons. apply IH. cbn in Hk. lia.
Qed.




End MatchFacts.

Section CharFacts.
Import Re.


Ltac above_1000 c Hc :=
  assert (forall lo hi, (hi < 1000)%N -> in_range lo hi c = false) as in_range_above
    by (intros lo hi Hhi; unfold in_range;
        apply andb_false_iff; right; apply N.leb_gt; lia);
  assert (forall k, (k < 1000)%N -> (c =? k)%N = false) as eqb_above
    by (intros k Hk; apply N.eqb_neq; lia).



Lemma is_word_above (c : char) : (1000 <= c)%N -> is_word c = false.
Proof.
  intros Hc. above_1000 c Hc. unfold is_word.
  by rewrite !in_range_above, !eqb_above by lia.
Qed.







End CharFacts.

Section BoundedFacts.
Import Re.

Variable ignorecase : bool.





End BoundedFacts.

Section LiteralFacts.
Import Re.

Lemma sub_from_match (ic : bool) (r : regex) (repl s : pystr) (prev : option char)
    (n : nat) :
  match_here ic r prev s = Some n -> (0 < n)%nat ->
  sub_from ic r repl prev s 0
  = repl ++ sub_from ic r repl (lastp prev (take n s)) (drop n s) 0.
Proof.
  intros Hm Hn. pose proof (match_here_length _ _ _ _ _ Hm) as Hlen.
  destruct n as [|n]; [lia|]. destruct s as [|c s]; [cbn in Hlen; lia|].
  cbn [sub_from take drop]. rewrite Hm, lastp_cons. f_equal.
  apply sub_from_skip. cbn in Hlen. lia.
Qed.

Lemma sub_from_no_match (ic : bool) (r : regex) (repl s : pystr) (prev : option char)
    (c : char) :
  match_here ic r prev (c :: s) = None ->
  sub_from ic r repl prev (c :: s) 0 = c :: sub_from ic r repl (Some c) s 0.
Proof. intros Hm. cbn [sub_from]. by rewrite Hm. Qed.






Section OneWord.

Variables w full : pystr.
Hypothesis w_ok : word_ok w.
Hypothesis full_ok : word_ok full.








End OneWord.

End LiteralFacts.

Section NamePhases.
Import Re CompanyNormalizer.


























End NamePhases.

Section FieldIdempotence.
Import CompanyNormalizer RecordNormalizer.


End FieldIdempotence.

(** ** Further properties of the normalizer *)

Section NameExtras.
Import Re CompanyNormalizer.









End NameExtras.

Section MatchingKey.
Import CompanyNormalizer.

Lemma replace_char (a b : char) (s : pystr) :
  replace [a] [b] s = List.map (fun c => if (a =? c)%N then b else c) s.
Proof.
  cbn [replace]. induction s as [|c s IH]; [done|].
  rewrite replace_from_cons. cbn [startswith length Nat.sub List.map].
  rewrite andb_true_r, drop_0, IH. by destruct (a =? c)%N.
Qed.

Lemma turkish_chars_upper :
  List.map (fun '(tr_char, ascii_char) => (upper tr_char, ascii_char)) turkish_chars
  = [ ([73%N], [105%N]); ([304%N], [73%N]); ([286%N], [103%N]); ([286%N], [71%N]);
      ([220%N], [117%N]); ([220%N], [85%N]); ([350%N], [115%N]); ([350%N], [83%N]);
      ([214%N], [111%N]); ([214%N], [79%N]); ([199%N], [99%N]); ([199%N], [67%N]) ].
Proof. reflexivity. Qed.

Lemma fold_left_map_arg {A B C : Type} (f : A -> C -> A) (g : B -> C) (l : list B) (a : A) :
  fold_left f (List.map g l) a = fold_left (fun x b => f x (g b)) l a.
Proof. revert a. induction l as [|b l IH]; intros a; [done|]. apply IH. Qed.

Lemma replace_chars (rules : list (char * char)) (s : pystr) :
  fold_left (fun name '(a, b) => replace [a] [b] name) rules s
  = List.map (fun c => fold_left replace_step rules c) s.
Proof.
  revert s. induction rules as [|[a b] rules IH]; intros s.
  - cbn. by rewrite List.map_id.
  - cbn [fold_left]. rewrite IH, replace_char, List.map_map. done.
Qed.

Lemma replace_step_other (c a b : char) : a <> c -> replace_step c (a, b) = c.
Proof. intros Hne. unfold replace_step. cbn. by rewrite (proj2 (N.eqb_neq a c)). Qed.

Lemma filter_map_flat_map {A B : Type} (p : B -> bool) (g : A -> B) (h : A -> list B)
    (s : list A) :
  (forall c, (if p (g c) then [g c] else []) = h c) ->
  List.filter p (List.map g s) = flat_map h s.
Proof.
  intros Hh. induction s as [|c s IH]; [done|].
  cbn [List.map List.filter flat_map]. rewrite <- Hh, IH. by destruct (p (g c)).
Qed.

(** X5: the matching key of a name is its normalized name read character by
    character: "İ" becomes "I", the letters A to Z other than "I" and the
    digits are kept, and every other character is dropped, among them the
    capital "I" itself and the Turkish capitals Ğ, Ü, Ş, Ö and Ç, which the
    loop over [turkish_chars] has turned into lower-case letters. *)
Theorem normalize_for_matching_letters (name : pystr) :
  normalize_for_matching name = flat_map matching_letter (normalize_company_name name).
Proof.
  unfold normalize_for_matching.
  transitivity
    (List.filter (fun c => in_range 65 90 c || in_range 48 57 c)
       (fold_left (fun name '(a, b) => replace [a] [b] name)
          [ (73, 105); (304, 73); (286, 103); (286, 71); (220, 117); (220, 85);
            (350, 115); (350, 83); (214, 111); (214, 79); (199, 99); (199, 67) ]%N
          (normalize_company_name name))).
  { reflexivity. }
  rewrite replace_chars. apply filter_map_flat_map. intros c.
  destruct (N.eqb_spec 73 c) as [<-|H73]; [reflexivity|].
  destruct (N.eqb_spec 304 c) as [<-|H304]; [reflexivity|].
  destruct (N.eqb_spec 286 c) as [<-|H286]; [reflexivity|].
  destruct (N.eqb_spec 220 c) as [<-|H220]; [reflexivity|].
  destruct (N.eqb_spec 350 c) as [<-|H350]; [reflexivity|].
  destruct (N.eqb_spec 214 c) as [<-|H214]; [reflexivity|].
  destruct (N.eqb_spec 199 c) as [<-|H199]; [reflexivity|].
  cbn [fold_left].
  rewrite (replace_step_other c 73%N), (replace_step_other c 304%N),
    !(replace_step_other c 286%N), !(replace_step_other c 220%N),
    !(replace_step_other c 350%N), !(replace_step_other c 214%N),
    !(replace_step_other c 199%N) by done.
  unfold matching_letter.
  rewrite (proj2 (N.eqb_neq c 304)), (proj2 (N.eqb_neq c 73)) by lia.
  reflexivity.
Qed.

End MatchingKey.

Section PhoneAddressExtras.
Import CompanyNormalizer.




End PhoneAddressExtras.

Section StripFacts.

Lemma lstrip_by_suffix (f : char -> bool) (s : pystr) : lstrip_by f s `suffix_of` s.
Proof.
  induction s as [|c s IH]; [done|]. cbn. destruct (f c); [|done].
  by apply suffix_cons_r.
Qed.

Lemma rstrip_by_prefix (f : char -> bool) (s : pystr) : rstrip_by f s `prefix_of` s.
Proof.
  unfold rstrip_by. destruct (lstrip_by_suffix f (rev s)) as [k Hk].
  exists (rev k). apply (f_equal (@rev char)) in Hk. rewrite rev_involutive, rev_app_distr in Hk.
  done.
Qed.

Lemma lstrip_by_snoc (f : char -> bool) (s : pystr) (c : char) :
  lstrip_by f (s ++ [c])
  = match lstrip_by f s with
    | [] => if f c then [] else [c]
    | t => t ++ [c]
    end.
Proof.
  induction s as [|d s IH]; [done|]. cbn [app lstrip_by].
  destruct (f d); [exact IH | done].
Qed.

Lemma rstrip_by_cons (f : char -> bool) (c : char) (s : pystr) :
  rstrip_by f (c :: s)
  = match rstrip_by f s with
    | [] => if f c then [] else [c]
    | t => c :: t
    end.
Proof.
  unfold rstrip_by. cbn [rev]. rewrite lstrip_by_snoc.
  destruct (lstrip_by f (rev s)) as [|x t] eqn:E; [by destruct (f c)|].
  rewrite rev_app_distr. cbn [rev app].
  destruct (rev t ++ [x]) eqn:E2; [by destruct (rev t)|done].
Qed.

Lemma lstrip_by_twice (f : char -> bool) (s : pystr) :
  lstrip_by f (lstrip_by f s) = lstrip_by f s.
Proof.
  induction s as [|c s IH]; [done|]. cbn. destruct (f c) eqn:E; [done|].
  cbn. by rewrite E.
Qed.

Lemma rstrip_by_twice (f : char -> bool) (s : pystr) :
  rstrip_by f (rstrip_by f s) = rstrip_by f s.
Proof. unfold rstrip_by. by rewrite rev_involutive, lstrip_by_twice. Qed.

Lemma lstrip_rstrip (f : char -> bool) (s : pystr) :
  lstrip_by f (rstrip_by f (lstrip_by f s)) = rstrip_by f (lstrip_by f s).
Proof.
  destruct (lstrip_by f s) as [|c t] eqn:E; [done|].
  assert (f c = false) as Hc.
  { clear -E. induction s as [|d s IH]; [done|]. cbn in E.
    destruct (f d) eqn:Hd; [by apply IH|]. by injection E as <- _. }
  rewrite rstrip_by_cons, Hc.
  destruct (rstrip_by f t); cbn; by rewrite Hc.
Qed.

Lemma strip_twice (s : pystr) : strip (strip s) = strip s.
Proof. unfold strip. by rewrite lstrip_rstrip, rstrip_by_twice. Qed.

Lemma strip_infix (s : pystr) : exists a b, s = a ++ strip s ++ b.
Proof.
  unfold strip. destruct (lstrip_by_suffix is_space s) as [a Ha].
  destruct (rstrip_by_prefix is_space (lstrip_by is_space s)) as [b Hb].
  exists a, b. by rewrite <- Hb.
Qed.

Lemma startswith_app_l (x a b : pystr) :
  startswith x a = true -> startswith x (a ++ b) = true.
Proof.
  rewrite !startswith_prefix. intros [k ->]. exists (k ++ b). by rewrite app_assoc.
Qed.

Lemma occurs_app_r (x a b : pystr) : occurs x (a ++ b) = false -> occurs x b = false.
Proof.
  induction a as [|c a IH]; [done|]. cbn [app]. rewrite occurs_cons.
  intros [_ H]%orb_false_iff. by apply IH.
Qed.

Lemma occurs_app_l (x a b : pystr) : occurs x (a ++ b) = false -> occurs x a = false.
Proof.
  induction a as [|c a IH].
  - destruct x as [|y x]; [by destruct b|done].
  - cbn [app]. rewrite !occurs_cons. intros [Hs Ho]%orb_false_iff.
    apply orb_false_iff. split; [|by apply IH].
    destruct (startswith x (c :: a)) eqn:E; [|done].
    apply (startswith_app_l _ _ b) in E. cbn [app] in E. congruence.
Qed.

Lemma occurs_strip (x s : pystr) : occurs x s = false -> occurs x (strip s) = false.
Proof.
  destruct (strip_infix s) as (a & b & Hs). rewrite Hs at 1.
  intros H%occurs_app_r. by apply occurs_app_l in H.
Qed.

Lemma lstrip_by_Forall (Q : char -> Prop) (f : char -> bool) (s : pystr) :
  Forall Q s -> Forall Q (lstrip_by f s).
Proof.
  intros H. destruct (lstrip_by_suffix f s) as [k Hk]. rewrite Hk in H.
  by apply Forall_app in H as [_ ?].
Qed.

Lemma strip_Forall (Q : char -> Prop) (s : pystr) : Forall Q s -> Forall Q (strip s).
Proof.
  intros H. destruct (strip_infix s) as (a & b & Hs). rewrite Hs in H.
  apply Forall_app in H as [_ H]. by apply Forall_app in H as [H _].
Qed.




End StripFacts.

Section EmailExtras.
Import CompanyNormalizer.








End EmailExtras.


Section UrlExtras.
Import Re CompanyNormalizer.

Lemma plain_match_here (w : pystr) (prev : option char) (s : pystr) :
  match_here false ((fun c => IOne (CChar c)) <$> w) prev s
  = if startswith w s then Some (length w) else None.
Proof.
  revert prev s. induction w as [|a w IH]; intros prev s; [done|].
  destruct s as [|c s]; [done|].
  cbn [fmap list_fmap match_here cset_match startswith length].
  unfold char_match. cbn [andb]. destruct (a =? c)%N; [|done].
  rewrite IH. cbn [andb]. by destruct (startswith w s).
Qed.

Lemma www_pattern :
  compile (u "://www\.") = (fun c => IOne (CChar c)) <$> u "://www.".
Proof. reflexivity. Qed.

Lemma www_match_here (prev : option char) (s : pystr) :
  match_here false (compile (u "://www\.")) prev s
  = if startswith (u "://www.") s then Some 7%nat else None.
Proof. rewrite www_pattern. apply plain_match_here. Qed.

Lemma www_skip (prev : option char) (c : char) (s : pystr) :
  c <> 58%N ->
  sub_from false (compile (u "://www\.")) (u "://") prev (c :: s) 0
  = c :: sub_from false (compile (u "://www\.")) (u "://") (Some c) s 0.
Proof.
  intros Hc. apply sub_from_no_match. rewrite www_match_here.
  change (u "://www.") with (58%N :: u "//www."). cbn [startswith].
  by rewrite (proj2 (N.eqb_neq 58 c)) by done.
Qed.

(** Removing "www." after "://" keeps "://" and what stands before it. *)
Lemma www_keeps_scheme (prev : option char) (rest : pystr) :
  exists tail,
    sub_from false (compile (u "://www\.")) (u "://") prev (u "://" ++ rest) 0
    = u "://" ++ tail.
Proof.
  destruct (match_here false (compile (u "://www\.")) prev (u "://" ++ rest))
    as [n|] eqn:Hm.
  - rewrite www_match_here in Hm.
    destruct (startswith (u "://www.") (u "://" ++ rest)) eqn:E; [|done].
    eexists. rewrite (sub_from_match _ _ _ _ _ 7%nat); [reflexivity| |lia].
    by rewrite www_match_here, E.
  - change (u "://" ++ rest) with (58%N :: 47%N :: 47%N :: rest) in *.
    eexists. rewrite sub_from_no_match by done. rewrite !www_skip by done.
    reflexivity.
Qed.

Lemma sub_www_scheme (scheme rest : pystr) :
  Forall (fun c => c <> 58%N) scheme ->
  exists tail,
    sub false (compile (u "://www\.")) (u "://") (scheme ++ u "://" ++ rest)
    = scheme ++ u "://" ++ tail.
Proof.
  intros Hscheme. unfold sub. generalize (@None char).
  induction Hscheme as [|c scheme Hc Hs IH]; intros prev.
  - apply www_keeps_scheme.
  - destruct (IH (Some c)) as [tail Ht]. exists tail.
    cbn [app]. rewrite www_skip by done. f_equal. exact Ht.
Qed.

Lemma rstrip_by_nonempty (f : char -> bool) (s : pystr) :
  Exists (fun c => f c = false) s -> rstrip_by f s <> [].
Proof.
  induction 1 as [c s Hc | c s Hs IH]; rewrite rstrip_by_cons.
  - destruct (rstrip_by f s); by rewrite ?Hc.
  - by destruct (rstrip_by f s).
Qed.

Lemma rstrip_by_app (f : char -> bool) (a b : pystr) :
  Exists (fun c => f c = false) b -> rstrip_by f (a ++ b) = a ++ rstrip_by f b.
Proof.
  intros Hb. induction a as [|c a IH]; [done|].
  cbn [app]. rewrite rstrip_by_cons, IH.
  pose proof (rstrip_by_nonempty f b Hb). by destruct a, (rstrip_by f b).
Qed.

Lemma normalize_url_unfold (c : char) (url : pystr) :
  normalize_url (c :: url)
  = let v := strip (lower (c :: url)) in
    let v :=
      if negb (startswith (u "http://") v || startswith (u "https://") v)
      then u "https://" ++ v else v in
    sub false (compile (u "://www\.")) (u "://") (rstrip_char (ch "/") v).
Proof. reflexivity. Qed.

(** A URL with something other than "/" after its scheme keeps or gets a
    scheme. *)
Lemma normalize_url_shape (url : pystr) :
  Exists (fun c => c <> ch "/") (url_body url) ->
  exists scheme tail,
    (scheme = u "http" \/ scheme = u "https")
    /\ normalize_url url = scheme ++ u "://" ++ tail.
Proof.
  intros Hbody. destruct url as [|c url]; [by inversion Hbody|].
  rewrite normalize_url_unfold. cbv zeta. unfold url_body in Hbody. cbv zeta in Hbody.
  set (v := strip (lower (c :: url))) in *.
  assert (Exists (fun c => (ch "/" =? c)%N = false) (url_body (c :: url))) as Hb.
  { unfold url_body. cbv zeta. fold v. eapply Exists_impl; [exact Hbody|].
    intros x Hx. apply N.eqb_neq. congruence. }
  unfold url_body in Hb. cbv zeta in Hb. fold v in Hb. unfold rstrip_char.
  destruct (startswith (u "http://") v) eqn:E1.
  - apply startswith_split in E1. cbn [orb negb]. rewrite E1.
    change (length (u "http://")) with 7%nat.
    rewrite rstrip_by_app by done.
    destruct (sub_www_scheme (u "http") (rstrip_by (N.eqb (ch "/")) (drop 7 v)))
      as [tail Htail]; [by repeat constructor|].
    exists (u "http"), tail. split; [by left|]. exact Htail.
  - destruct (startswith (u "https://") v) eqn:E2.
    + apply startswith_split in E2. cbn [orb negb]. rewrite E2.
      change (length (u "https://")) with 8%nat.
      rewrite rstrip_by_app by done.
      destruct (sub_www_scheme (u "https") (rstrip_by (N.eqb (ch "/")) (drop 8 v)))
        as [tail Htail]; [by repeat constructor|].
      exists (u "https"), tail. split; [by right|]. exact Htail.
    + cbn [orb negb]. rewrite rstrip_by_app by done.
      destruct (sub_www_scheme (u "https") (rstrip_by (N.eqb (ch "/")) v))
        as [tail Htail]; [by repeat constructor|].
      exists (u "https"), tail. split; [by right|]. exact Htail.
Qed.

Lemma scheme_slashes (scheme tail : pystr) :
  scheme = u "http" \/ scheme = u "https" ->
  (2 <= length (List.filter (N.eqb (ch "/")) (scheme ++ u "://" ++ tail)))%nat.
Proof.
  intros Hs. rewrite List.filter_app.
  change (u "://" ++ tail) with (58%N :: 47%N :: 47%N :: tail).
  cbn [List.filter]. change (ch "/") with 47%N. cbn. rewrite length_app. cbn. lia.
Qed.



End UrlExtras.

Section CityFacts.
Import CompanyNormalizer.

Lemma below_128 (P : char -> bool) :
  forallb P (N.of_nat <$> seq 0 128) = true ->
  forall c, (c < 128)%N -> P c = true.
Proof.
  intros Hall c Hc. rewrite forallb_forall in Hall. apply Hall.
  apply in_map_iff. exists (N.to_nat c). split; [lia|]. apply in_seq. lia.
Qed.

Lemma same_letterb_true (c d : char) : same_letterb c d = true -> same_letter c d.
Proof.
  unfold same_letterb, same_letter.
  rewrite !andb_true_iff, !bool_decide_eq_true, N.ltb_lt. tauto.
Qed.

(** The case mappings of an ASCII character give one character, the same
    letter, on which the mapping changes nothing further. *)
Lemma ascii_case (c : char) :
  (c < 128)%N ->
  (exists d, upper_char c = [d] /\ same_letter c d)
  /\ (exists d, lower_char c = [d] /\ lower_char d = [d] /\ same_letter c d)
  /\ (exists d, title_char c = [d] /\ title_char d = [d] /\ same_letter c d).
Proof.
  intros Hc.
  apply (below_128 (fun c =>
           match upper_char c, lower_char c, title_char c with
           | [d1], [d2], [d3] =>
               same_letterb c d1
               && bool_decide (lower_char d2 = [d2]) && same_letterb c d2
               && bool_decide (title_char d3 = [d3]) && same_letterb c d3
           | _, _, _ => false
           end)) in Hc; [|by vm_compute].
  destruct (upper_char c) as [|d1 [|]]; [done| |done].
  destruct (lower_char c) as [|d2 [|]]; [done| |done].
  destruct (title_char c) as [|d3 [|]]; [done| |done].
  rewrite !andb_true_iff, !bool_decide_eq_true in Hc.
  destruct Hc as [[[[H1 H2] H3] H4] H5].
  split_and!.
  - exists d1. split; [done | by apply same_letterb_true].
  - exists d2. split; [done|]. split; [done|]. by apply same_letterb_true.
  - exists d3. split; [done|]. split; [done|]. by apply same_letterb_true.
Qed.

Lemma Forall2_rev {A B : Type} (R : A -> B -> Prop) (s : list A) (z : list B) :
  Forall2 R s z -> Forall2 R (rev s) (rev z).
Proof.
  induction 1 as [|a c s z Hac Hsz IH]; [done|]. cbn.
  apply Forall2_app; [done|]. by constructor.
Qed.

Lemma lstrip_by_Forall2 (s z : pystr) :
  Forall2 same_letter s z ->
  Forall2 same_letter (lstrip_by is_space s) (lstrip_by is_space z).
Proof.
  induction 1 as [|a c s z Hac Hsz IH]; [done|]. cbn.
  pose proof Hac as (Hlt & Hsp & Hrest). rewrite Hsp.
  destruct (is_space a); [done|]. by constructor.
Qed.

Lemma strip_Forall2 (s z : pystr) :
  Forall2 same_letter s z -> Forall2 same_letter (strip s) (strip z).
Proof.
  intros H. unfold strip, rstrip_by.
  by apply Forall2_rev, lstrip_by_Forall2, Forall2_rev, lstrip_by_Forall2.
Qed.

Lemma upper_same_letter (s : pystr) :
  Forall (fun c => (c < 128)%N) s -> Forall2 same_letter s (upper s).
Proof.
  unfold upper. induction 1 as [|c s Hc Hs IH]; [done|]. cbn [flat_map].
  destruct (ascii_case c Hc) as ((d & -> & Hd) & _). by constructor.
Qed.

Lemma lower_same_letter (s : pystr) :
  Forall (fun c => (c < 128)%N) s -> Forall2 same_letter s (lower s).
Proof.
  unfold lower. induction 1 as [|c s Hc Hs IH]; [done|]. cbn [flat_map].
  destruct (ascii_case c Hc) as (_ & (d & -> & _ & Hd) & _). by constructor.
Qed.

Lemma title_from_same_letter (b : bool) (s : pystr) :
  Forall (fun c => (c < 128)%N) s -> Forall2 same_letter s (title_from b s).
Proof.
  intros Hs. revert b. induction Hs as [|c s Hc Hs IH]; intros b; [done|].
  cbn [title_from].
  destruct (ascii_case c Hc) as (_ & (d & -> & _ & Hd) & (e & -> & _ & He)).
  destruct b; by constructor.
Qed.

(** Strings that are letter by letter the same have one title case and one
    upper case. *)
Lemma title_from_letters (b : bool) (s z : pystr) :
  Forall2 same_letter s z -> title_from b z = title_from b s.
Proof.
  intros H. revert b. induction H as [|c d s z (_ & _ & Hcased & _ & Hl & Ht) _ IH];
    intros b; [done|].
  cbn [title_from]. by rewrite Hcased, Hl, Ht, IH.
Qed.

Lemma upper_letters (s z : pystr) : Forall2 same_letter s z -> upper z = upper s.
Proof.
  unfold upper. induction 1 as [|c d s z (_ & _ & _ & Hu & _) _ IH]; [done|].
  cbn [flat_map]. by rewrite Hu, IH.
Qed.

Lemma title_from_twice (b : bool) (s : pystr) :
  Forall (fun c => (c < 128)%N) s -> title_from b (title_from b s) = title_from b s.
Proof.
  intros Hs. revert b. induction Hs as [|c s Hc Hs IH]; intros b; [done|].
  cbn [title_from].
  destruct (ascii_case c Hc) as (_ & (d & Hd & Hdd & Hsame) & (e & He & Hee & Hsame')).
  destruct b.
  - rewrite Hd. cbn [app title_from]. rewrite Hdd.
    destruct Hsame as (_ & _ & -> & _). by rewrite IH.
  - rewrite He. cbn [app title_from]. rewrite Hee.
    destruct Hsame' as (_ & _ & -> & _). by rewrite IH.
Qed.

Lemma Forall2_same_letter_ascii (s z : pystr) :
  Forall2 same_letter s z -> Forall (fun c => (c < 128)%N) z.
Proof. induction 1 as [|c d s z (Hd & _) _ IH]; by constructor. Qed.

(** A string that is letter by letter the same as a stripped one is
    stripped. *)
Lemma strip_letters (s z : pystr) :
  Forall2 same_letter s z -> strip s = s -> strip z = z.
Proof.
  intros H Hs. pose proof (strip_Forall2 s z H) as Hst. rewrite Hs in Hst.
  apply Forall2_length in H, Hst.
  destruct (strip_infix z) as (a & b & Hz).
  assert (length a = 0%nat /\ length b = 0%nat) as [Ha Hb].
  { apply (f_equal length) in Hz. rewrite !length_app in Hz. lia. }
  destruct a, b; try done. by rewrite app_nil_r in Hz.
Qed.

Lemma normalize_city_unfold (city : pystr) :
  normalize_city city = mapped_city (title (strip city)).
Proof. by destruct city. Qed.

Lemma city_mappings_fixed :
  Forall (fun '(_, normalized) => normalize_city normalized = normalized) city_mappings.
Proof. repeat constructor. Qed.

(** X11: on a city name of ASCII characters [normalize_city] is idempotent,
    and it does not depend on the case of the letters of its input. *)
Theorem normalize_city_ascii (city : pystr) :
  Forall (fun c => (c < 128)%N) city ->
  normalize_city (normalize_city city) = normalize_city city
  /\ normalize_city (upper city) = normalize_city city
  /\ normalize_city (lower city) = normalize_city city.
Proof.
  intros Hcity. split_and!.
  - rewrite (normalize_city_unfold city).
    pose proof (strip_Forall _ _ Hcity) as Hs.
    pose proof (title_from_same_letter false _ Hs) as Ht. fold (title (strip city)) in Ht.
    unfold mapped_city at 2. unfold mapped_city at 1.
    destruct (List.find _ city_mappings) as [[variant normalized]|] eqn:Efind.
    + apply find_some in Efind as [Hin _].
      pose proof city_mappings_fixed as Hfix. rewrite Forall_forall in Hfix.
      by apply (Hfix (variant, normalized)), list_elem_of_In.
    + rewrite normalize_city_unfold.
      rewrite (strip_letters _ _ Ht (strip_twice city)).
      unfold title. rewrite (title_from_twice false _ Hs). fold (title (strip city)).
      unfold mapped_city. by rewrite Efind.
  - rewrite !normalize_city_unfold. f_equal.
    pose proof (strip_Forall2 _ _ (upper_same_letter city Hcity)) as H.
    by apply title_from_letters.
  - rewrite !normalize_city_unfold. f_equal.
    pose proof (strip_Forall2 _ _ (lower_same_letter city Hcity)) as H.
    by apply title_from_letters.
Qed.

Lemma normalize_city_ascii_witness :
  Forall (fun c => (c < 128)%N) (u " izmir ")
  /\ normalize_city (u " izmir ") = u "İzmir"
  /\ normalize_city (normalize_city (u " izmir ")) = normalize_city (u " izmir ")
  /\ normalize_city (upper (u " izmir ")) = normalize_city (u " izmir ")
  /\ normalize_city (lower (u " izmir ")) = normalize_city (u " izmir ").
Proof.
  assert (Forall (fun c => (c < 128)%N) (u " izmir ")) as Hascii
    by (by apply Forall_forall; intros c Hc%list_elem_of_In; vm_compute in Hc;
        repeat destruct Hc as [<-|Hc]).
  split; [exact Hascii|]. split; [by vm_compute|].
  exact (normalize_city_ascii _ Hascii).
Defined.

End CityFacts.

Section ValidatorFacts.
Import CompanyNormalizer.
















End ValidatorFacts.

(** ** Further properties of the resolver *)

Section CandidateFacts.
Context `{FuzzLib}.
Variable self : EntityResolver.
Local Open Scope Q_scope.

Lemma find_duplicates_candidates (cs : list UnifiedCompany) (ms : list CompanyMatch) :
  find_duplicates self cs = Some ms -> Forall (candidate_of self cs) ms.
Proof.
  rewrite find_duplicates_unfold.
  destruct (build_blocking_index 0 cs []) as [idx|] eqn:Hidx; [|done].
  cbn [mbind option_bind].
  destruct (fold_leftM (compare_step self) (index_pairs idx) (∅, [])) as [[pp ms']|] eqn:Hrun;
    [|done].
  cbn. intros [= <-].
  apply (fold_leftM_invariant
           (fun _ st => Forall (candidate_of self cs) (snd st))) in Hrun; [done|done|].
  intros _ [[i c1] [j c2]] [pp0 ms0] [pp1 ms1] Hinv Hin Hstep. cbn [snd] in *.
  apply (index_pairs_spec cs idx) in Hin as (Hij & H1 & H2 & Hkey); [|done].
  apply compare_pair_inv in Hstep
    as [(_ & _ & ->) | (_ & _ & s & fs & Hsim & [[_ ->] | (Hmin & m & -> & _ & Ha & Hb & Hs & Hf)])];
    [done|done|].
  apply Forall_app. split; [done|]. constructor; [|done].
  exists i, j, c1, c2, s, fs. split_and!; try done. by apply Qle_bool_iff.
Qed.

(** X12: every candidate that [find_duplicates] returns reports two records
    at positions [i < j] of the input that have the same blocking key, with
    the score and field scores of that pair, and its score is at least
    [min_threshold]: records of different blocks are never reported, and a
    list of fewer than two records gives no candidate. *)
Theorem find_duplicates_sound (cs : list UnifiedCompany) (ms : list CompanyMatch) :
  find_duplicates self cs = Some ms ->
  Forall (candidate_of self cs) ms /\ ((length cs <= 1)%nat -> ms = []).
Proof.
  intros Hrun. pose proof (find_duplicates_candidates cs ms Hrun) as Hall.
  split; [done|]. intros Hlen. destruct ms as [|m ms]; [done|].
  apply Forall_cons in Hall as [(i & j & c1 & c2 & _ & _ & Hij & _ & Hj & _) _].
  apply lookup_lt_Some in Hj. lia.
Qed.

End CandidateFacts.

Section DictKeys.
Context {K V : Type} `{EqDecision K}.

Lemma dict_set_keys (k k' : K) (v : V) (d : list (K * V)) :
  is_Some (dict_get k' (dict_set k v d)) <-> k' = k \/ is_Some (dict_get k' d).
Proof.
  destruct (decide (k' = k)) as [->|Hne].
  - rewrite dict_get_set_eq. split; [by left | by eexists].
  - rewrite dict_get_set_ne by done. split; [by right | by intros [?|?]].
Qed.

Lemma dict_get_map_keys (h : K * V -> K * V) (k : K) (d : list (K * V)) :
  (forall kv, fst (h kv) = fst kv) ->
  is_Some (dict_get k (List.map h d)) <-> is_Some (dict_get k d).
Proof.
  intros Hh. induction d as [|[k0 v] d IH]; [done|]. cbn [List.map].
  pose proof (Hh (k0, v)) as Hk. destruct (h (k0, v)) as [k1 v1]. cbn in Hk. subst k1.
  cbn [dict_get]. destruct (decide (k = k0)); [|exact IH].
  split; by eexists.
Qed.

Lemma dict_get_of_In (k : K) (v : V) (d : list (K * V)) :
  In (k, v) d -> is_Some (dict_get k d).
Proof.
  induction d as [|[k0 v0] d IH]; [done|]. cbn [dict_get].
  destruct (decide (k = k0)); [by eexists|]. intros [[= ? ?]|Hin]; [done | by apply IH].
Qed.

Lemma dict_set_length (k : K) (v : V) (d : list (K * V)) :
  length (dict_set k v d) = if dict_get k d is Some _ then length d else S (length d).
Proof.
  induction d as [|[k0 v0] d IH]; [done|]. cbn [dict_set dict_get].
  destruct (decide (k = k0)); [done|]. cbn [length]. rewrite IH.
  by destruct (dict_get k d).
Qed.

End DictKeys.

Section GroupKeys.
Context `{FuzzLib}.
Variable self : EntityResolver.
Local Open Scope Q_scope.

Lemma group_truthy_some (g : option Z) : group_truthy g = true -> is_Some g.
Proof. destruct g; [by eexists | done]. Qed.

Lemma group_step_keys (merge_groups : list (pystr * Z)) (m : CompanyMatch) (k : pystr) :
  is_Some (dict_get k (group_step self merge_groups m))
  <-> is_Some (dict_get k merge_groups)
      \/ (merges self m = true /\ (k = company_a_id m \/ k = company_b_id m)).
Proof.
  unfold group_step. fold (merges self m).
  destruct (merges self m); [|by intuition].
  destruct (group_truthy (dict_get (company_a_id m) merge_groups)) eqn:Ea;
    destruct (group_truthy (dict_get (company_b_id m) merge_groups)) eqn:Eb;
    cbn [andb].
  - apply group_truthy_some in Ea, Eb.
    assert (is_Some (dict_get k merge_groups)
            <-> is_Some (dict_get k merge_groups)
                \/ (true = true /\ (k = company_a_id m \/ k = company_b_id m))) as Hsame.
    { split; [by left|]. intros [?|[_ [->| ->]]]; done. }
    destruct (negb _); [|done].
    rewrite dict_get_map_keys; [done|]. intros [k0 g]. by destruct (bool_decide _).
  - apply group_truthy_some in Ea. rewrite dict_set_keys.
    split; [intros [->|?]; [right|left]; auto | intros [?|[_ [->| ->]]]; auto].
  - apply group_truthy_some in Eb. rewrite dict_set_keys.
    split; [intros [->|?]; [right|left]; auto | intros [?|[_ [->| ->]]]; auto].
  - rewrite !dict_set_keys.
    split; [intros [->|[->|?]]; auto | intros [?|[_ [->| ->]]]; auto].
Qed.

Lemma fold_group_step_keys (ms : list CompanyMatch) (merge_groups : list (pystr * Z))
    (k : pystr) :
  is_Some (dict_get k (fold_left (group_step self) ms merge_groups))
  <-> is_Some (dict_get k merge_groups)
      \/ exists m, In m ms /\ merges self m = true
                   /\ (k = company_a_id m \/ k = company_b_id m).
Proof.
  revert merge_groups. induction ms as [|m ms IH]; intros merge_groups.
  - cbn. split; [by left | by intros [?|(? & [] & _)]].
  - cbn [fold_left]. rewrite IH, group_step_keys. split.
    + intros [[?|[? ?]]|(m' & ? & ? & ?)]; [by left| |].
      * right. exists m. split; [by left | done].
      * right. exists m'. split; [by right | done].
    + intros [?|(m' & [<-|?] & ? & ?)]; [by left; left| |].
      * left. right. done.
      * right. by exists m'.
Qed.

Lemma build_merge_groups_keys (ms : list CompanyMatch) (k : pystr) :
  is_Some (dict_get k (build_merge_groups self ms))
  <-> exists m, In m ms /\ merges self m = true
                /\ (k = company_a_id m \/ k = company_b_id m).
Proof.
  unfold build_merge_groups. rewrite fold_group_step_keys. cbn [dict_get].
  split; [intros [[? [=]]|?]; done | by right].
Qed.

(** X13: the merge groups hold exactly the records of the candidates that are
    exact and need no review: an identifier is a key of [merge_groups] if and
    only if it is one of the two identifiers of such a candidate; a fuzzy
    candidate or one that needs review never brings a record into a group. *)
Theorem build_merge_groups_members (ms : list CompanyMatch) (k : pystr) :
  is_Some (dict_get k (build_merge_groups self ms))
  <-> exists m, In m ms /\ merges self m = true
                /\ (k = company_a_id m \/ k = company_b_id m).
Proof. apply build_merge_groups_keys. Qed.

End GroupKeys.

Section ResolveFacts.
Context `{FuzzLib}.
Hypothesis fuzz_ratio_range : forall a b, 0 <= fuzz_ratio a b <= 100.
Hypothesis fuzz_token_sort_ratio_range :
  forall a b, 0 <= fuzz_token_sort_ratio a b <= 100.
Variable self : EntityResolver.

Lemma build_company_index_old (cs : list UnifiedCompany) (n : nat)
    (index : list (pystr * UnifiedCompany)) (k : pystr) :
  is_Some (dict_get k index) -> is_Some (dict_get k (build_company_index n cs index)).
Proof.
  revert n index. induction cs as [|c cs IH]; intros n index Hk; [done|].
  cbn [build_company_index]. apply IH. apply dict_set_keys. by right.
Qed.

Lemma build_company_index_new (cs : list UnifiedCompany) (n : nat)
    (index : list (pystr * UnifiedCompany)) (i : nat) (c : UnifiedCompany) :
  cs !! i = Some c ->
  is_Some (dict_get (company_key (n + i) c) (build_company_index n cs index)).
Proof.
  revert n index i. induction cs as [|c0 cs IH]; intros n index i Hi; [done|].
  cbn [build_company_index]. destruct i as [|i].
  - injection Hi as ->. rewrite Nat.add_0_r. apply build_company_index_old.
    apply dict_set_keys. by left.
  - replace (n + S i)%nat with (S n + i)%nat by lia. by apply IH.
Qed.

Lemma merge_group_members_total (index : list (pystr * UnifiedCompany))
    (merge_groups : list (pystr * Z)) :
  (forall k g, In (k, g) merge_groups -> is_Some (dict_get k index)) ->
  is_Some (merge_group_members index merge_groups).
Proof.
  intros Hkeys. unfold merge_group_members.
  destruct (fold_leftM_total (fun _ => True)
              (fun merged_companies '(company_id, group_id) =>
                 company ← dict_get company_id index;
                 match dict_get group_id merged_companies with
                 | None => Some (dict_set group_id company merged_companies)
                 | Some current =>
                     Some (dict_set group_id (merge_companies current company)
                             merged_companies)
                 end)
              merge_groups []) as (r & Hr & _); [done| |by eexists].
  intros [k g] x _ Hin. destruct (Hkeys k g Hin) as [company ->]. cbn.
  destruct (dict_get g x); by eexists.
Qed.

Lemma resolve_duplicates_returns_lemma (cs : list UnifiedCompany) :
  Forall url_ok cs ->
  exists result ms,
    find_duplicates self cs = Some ms
    /\ resolve_duplicates self cs true = Some (result, ms).
Proof.
  intros Hok.
  destruct (find_duplicates_total fuzz_ratio_range fuzz_token_sort_ratio_range self cs Hok)
    as [ms Hms].
  pose proof (find_duplicates_candidates self cs ms Hms) as Hcand.
  unfold resolve_duplicates. rewrite Hms. cbn [mbind option_bind].
  destruct ms as [|m0 ms0] eqn:Ems; [by eexists _, _|]. rewrite <- Ems in *.
  cbn [negb].
  destruct (merge_group_members_total (build_company_index 0 cs [])
              (build_merge_groups self ms)) as [merged Hmerged].
  - intros k g Hin. apply dict_get_of_In in Hin.
    apply build_merge_groups_keys in Hin as (m & Hm & _ & Hk).
    rewrite Forall_forall in Hcand.
    destruct (Hcand m) as (i & j & c1 & c2 & s & fs & _ & H1 & H2 & _ & _ & _ & Ha & Hb & _).
    { by apply list_elem_of_In. }
    destruct Hk as [-> | ->]; [rewrite Ha | rewrite Hb].
    + by apply (build_company_index_new cs 0 [] i).
    + by apply (build_company_index_new cs 0 [] j).
  - rewrite Hmerged. cbn. by eexists _, _.
Qed.

(** X14: on records whose URLs have a host, [resolve_duplicates] with
    [auto_merge=True] returns: every identifier of a merge group is a key of
    the company index, so the lookup [company_index[company_id]] does not
    raise, and the candidates it returns are those of [find_duplicates]. *)
Theorem resolve_duplicates_returns (cs : list UnifiedCompany) :
  Forall url_ok cs ->
  exists result ms,
    find_duplicates self cs = Some ms
    /\ resolve_duplicates self cs true = Some (result, ms).
Proof. apply resolve_duplicates_returns_lemma. Qed.

Lemma non_duplicates_nil (cs : list UnifiedCompany) (i : nat) :
  non_duplicates i cs [] = cs.
Proof. revert i. induction cs as [|c cs IH]; intros i; [done|]. cbn. by rewrite IH. Qed.

Lemma build_merge_groups_none (ms : list CompanyMatch) :
  Forall (fun m => merges self m = false) ms -> build_merge_groups self ms = [].
Proof.
  unfold build_merge_groups. induction 1 as [|m ms Hm Hms IH]; [done|].
  cbn [fold_left]. rewrite group_step_skips; [done|].
  unfold merges in Hm. apply andb_false_iff in Hm as [?|?]; [by left|right].
  by destruct (requires_review m).
Qed.

End ResolveFacts.

Section NoExact.
Context `{FuzzLib}.
Variable self : EntityResolver.

(** X15: when no candidate is both exact and free of review, nothing is
    merged: [resolve_duplicates] returns the input sequence itself, also with
    [auto_merge=True]. *)
Theorem resolve_duplicates_no_exact (cs : list UnifiedCompany) (ms : list CompanyMatch)
    (auto_merge : bool) :
  find_duplicates self cs = Some ms ->
  Forall (fun m => merges self m = false) ms ->
  resolve_duplicates self cs auto_merge = Some (cs, ms).
Proof.
  intros Hms Hnone. unfold resolve_duplicates. rewrite Hms. cbn [mbind option_bind].
  destruct ms as [|m0 ms0] eqn:Ems; [done|]. rewrite <- Ems in *.
  destruct auto_merge; [|done]. cbn [negb].
  rewrite (build_merge_groups_none self ms Hnone). cbn.
  by rewrite non_duplicates_nil.
Qed.

End NoExact.


Section Counting.
Context `{FuzzLib}.
Variable self : EntityResolver.

Lemma dict_set_NoDup {V : Type} (k : pystr) (v : V) (d : list (pystr * V)) :
  NoDup (fst <$> d) -> NoDup (fst <$> dict_set k v d).
Proof.
  induction d as [|[k0 v0] d IH]; intros Hd.
  - cbn. apply NoDup_singleton.
  - cbn [dict_set]. destruct (decide (k = k0)) as [->|Hne]; [done|].
    apply NoDup_cons in Hd as [Hk0 Hd]. cbn [fmap list_fmap fst]. apply NoDup_cons.
    split; [|by apply IH]. intros Hin. apply Hk0.
    apply list_elem_of_fmap in Hin as ([k1 v1] & -> & Hin). apply list_elem_of_In in Hin.
    apply dict_set_In in Hin as [[= -> _] | Hin]; [done|].
    apply list_elem_of_fmap. exists (k1, v1). split; [done|]. by apply list_elem_of_In.
Qed.

Lemma group_step_NoDup (merge_groups : list (pystr * Z)) (m : CompanyMatch) :
  NoDup (fst <$> merge_groups) -> NoDup (fst <$> group_step self merge_groups m).
Proof.
  intros Hd. unfold group_step. repeat case_match; try done;
    try (by repeat apply dict_set_NoDup).
  rewrite <- list_fmap_compose.
  erewrite list_fmap_ext; [exact Hd|]. intros _ [k g] _. cbn. by case_match.
Qed.

Lemma build_merge_groups_NoDup (ms : list CompanyMatch) :
  NoDup (fst <$> build_merge_groups self ms).
Proof.
  unfold build_merge_groups.
  assert (NoDup (fst <$> ([] : list (pystr * Z)))) as Hnil by constructor.
  revert Hnil. generalize ([] : list (pystr * Z)).
  induction ms as [|m ms IH]; intros d Hd; [done|].
  cbn [fold_left]. by apply IH, group_step_NoDup.
Qed.

Lemma merge_group_members_length (index : list (pystr * UnifiedCompany))
    (merge_groups : list (pystr * Z)) (merged : list (Z * UnifiedCompany)) :
  merge_group_members index merge_groups = Some merged ->
  (length merged <= length merge_groups)%nat.
Proof.
  unfold merge_group_members. intros Hrun.
  apply (fold_leftM_invariant (fun done_ st => (length st <= length done_)%nat)) in Hrun;
    [done | cbn; lia |].
  intros done_ [k g] x x' Hx _ Hstep. rewrite length_app. cbn [length].
  destruct (dict_get k index) as [company|]; [|done]. cbn in Hstep.
  destruct (dict_get g x) eqn:Hg; injection Hstep as <-;
    rewrite dict_set_length, Hg; lia.
Qed.

Lemma non_duplicates_length (cs : list UnifiedCompany) (i : nat)
    (merge_groups : list (pystr * Z)) :
  (length (non_duplicates i cs merge_groups)
   + length (List.filter (fun p => bool_decide (is_Some (dict_get (company_key (fst p) (snd p))
                                                          merge_groups)))
               (enumerate_from i cs)))%nat
  = length cs.
Proof.
  revert i. induction cs as [|c cs IH]; intros i; [done|].
  cbn [non_duplicates enumerate_from List.filter fst snd].
  destruct (dict_get (company_key i c) merge_groups) eqn:Hg.
  - rewrite bool_decide_eq_true_2 by (by eexists). cbn [length]. rewrite <- (IH (S i)). lia.
  - rewrite bool_decide_eq_false_2 by (by intros [? [=]]). cbn [length].
    rewrite <- (IH (S i)). lia.
Qed.

Lemma resolve_duplicates_length_lemma (cs result : list UnifiedCompany)
    (ms : list CompanyMatch) (auto_merge : bool) :
  resolve_duplicates self cs auto_merge = Some (result, ms) ->
  (length result <= length cs)%nat.
Proof.
  unfold resolve_duplicates.
  destruct (find_duplicates self cs) as [ms'|] eqn:Hms; [|done]. cbn [mbind option_bind].
  pose proof (find_duplicates_candidates self cs ms' Hms) as Hcand.
  destruct ms' as [|m0 ms0] eqn:Ems; [by intros [= <- _]|]. rewrite <- Ems in *.
  destruct auto_merge; cbn [negb]; [|by intros [= <- _]].
  destruct (merge_group_members _ _) as [merged|] eqn:Hmerged; [|done].
  cbn. intros [= <- _]. rewrite length_app. unfold dict_values. rewrite length_map.
  apply merge_group_members_length in Hmerged.
  pose proof (non_duplicates_length cs 0 (build_merge_groups self ms')) as Hsplit.
  set (inside := List.filter _ _) in Hsplit.
  assert (length (build_merge_groups self ms') <= length inside)%nat as Hkeys; [|lia].
  rewrite <- (length_fmap fst (build_merge_groups self ms')).
  rewrite <- (length_fmap (fun p => company_key (fst p) (snd p)) inside).
  apply submseteq_length, NoDup_submseteq; [apply build_merge_groups_NoDup|].
  intros k Hk. apply list_elem_of_fmap in Hk as ([k' g] & -> & Hin). cbn [fst].
  apply list_elem_of_In, dict_get_of_In in Hin. pose proof Hin as Hgroup.
  apply build_merge_groups_keys in Hin as (m & Hm & _ & Hid).
  rewrite Forall_forall in Hcand.
  destruct (Hcand m) as (i & j & c1 & c2 & s & fs & _ & H1 & H2 & _ & _ & _ & Ha & Hb & _).
  { by apply list_elem_of_In. }
  assert (exists n c, cs !! n = Some c /\ k' = company_key n c) as (n & c & Hn & ->).
  { destruct Hid as [-> | ->]; eauto. }
  apply list_elem_of_fmap. exists (n, c). split; [done|].
  apply list_elem_of_In, filter_In. split.
  - apply list_elem_of_In, list_elem_of_lookup. exists n.
    by rewrite enumerate_from_lookup, Hn.
  - by apply bool_decide_eq_true_2.
Qed.

(** X16: [resolve_duplicates] never returns more records than it was given. *)
Theorem resolve_duplicates_length (cs result : list UnifiedCompany)
    (ms : list CompanyMatch) (auto_merge : bool) :
  resolve_duplicates self cs auto_merge = Some (result, ms) ->
  (length result <= length cs)%nat.
Proof. apply resolve_duplicates_length_lemma. Qed.

Lemma non_duplicates_In (cs : list UnifiedCompany) (n i : nat) (c : UnifiedCompany)
    (merge_groups : list (pystr * Z)) :
  cs !! i = Some c ->
  dict_get (company_key (n + i) c) merge_groups = None ->
  In c (non_duplicates n cs merge_groups).
Proof.
  revert n i. induction cs as [|c0 cs IH]; intros n i Hi Hnone; [done|].
  destruct i as [|i]; cbn [non_duplicates].
  - injection Hi as ->. rewrite Nat.add_0_r in Hnone. rewrite Hnone. by left.
  - cbn in Hi. assert (In c (non_duplicates (S n) cs merge_groups)) as Hin.
    { apply (IH (S n) i Hi). by replace (S n + i)%nat with (n + S i)%nat by lia. }
    destruct (dict_get (company_key n c0) merge_groups); [done | by right].
Qed.

Lemma resolve_duplicates_keeps_lemma (cs result : list UnifiedCompany)
    (ms : list CompanyMatch) (auto_merge : bool) (i : nat) (c : UnifiedCompany) :
  resolve_duplicates self cs auto_merge = Some (result, ms) ->
  cs !! i = Some c ->
  (forall m, In m ms -> merges self m = true ->
     company_a_id m <> company_key i c /\ company_b_id m <> company_key i c) ->
  In c result.
Proof.
  unfold resolve_duplicates. intros Hrun Hi Hfree.
  assert (In c cs) as Hin by (by eapply list_elem_of_In, list_elem_of_lookup_2).
  destruct (find_duplicates self cs) as [ms'|] eqn:Hms; [|done].
  cbn [mbind option_bind] in Hrun.
  destruct ms' as [|m0 ms0] eqn:Ems; [by injection Hrun as <- _|]. rewrite <- Ems in *.
  destruct auto_merge; cbn [negb] in Hrun; [|by injection Hrun as <- _].
  destruct (merge_group_members _ _) as [merged|] eqn:Hmerged; [|done].
  cbn in Hrun. injection Hrun as <- <-. apply in_app_iff. right.
  apply (non_duplicates_In cs 0 i); [done|]. cbn [Nat.add].
  destruct (dict_get (company_key i c) (build_merge_groups self ms')) as [g|] eqn:Hg; [|done].
  assert (is_Some (dict_get (company_key i c) (build_merge_groups self ms'))) as Hsome
    by (by eexists).
  apply build_merge_groups_keys in Hsome as (m & Hm & Hmerges & Hid).
  destruct (Hfree m Hm Hmerges) as [Ha Hb]. by destruct Hid.
Qed.

(** X24: [resolve_duplicates] drops no record that stands outside the merge
    groups: a record whose identifier is named by no match that is exact and
    free of review is in the list that is returned. *)
Theorem resolve_duplicates_keeps_unmatched (cs result : list UnifiedCompany)
    (ms : list CompanyMatch) (auto_merge : bool) (i : nat) (c : UnifiedCompany) :
  resolve_duplicates self cs auto_merge = Some (result, ms) ->
  cs !! i = Some c ->
  (forall m, In m ms -> merges self m = true ->
     company_a_id m <> company_key i c /\ company_b_id m <> company_key i c) ->
  In c result.
Proof. apply resolve_duplicates_keeps_lemma. Qed.

End Counting.


Section ScoreFacts.
Context `{FuzzLib}.
Import CompanyNormalizer.
Local Open Scope Q_scope.




Lemma normalize_phone_empty (phone : pystr) : normalize_phone phone = [] <-> phone = [].
Proof.
  split; [|by intros ->]. intros Hn. destruct (decide (phone = [])) as [|Hne]; [done|].
  by apply normalize_phone_nonempty in Hne.
Qed.








End ScoreFacts.

Section RangeFacts.
Context `{FuzzLib}.
Hypothesis fuzz_ratio_range : forall a b, 0 <= fuzz_ratio a b <= 100.
Hypothesis fuzz_token_sort_ratio_range :
  forall a b, 0 <= fuzz_token_sort_ratio a b <= 100.

(** X18: with a library that returns percentages, the overall score and every
    field score that [calculate_company_similarity] returns lie between 0 and
    1, so the constructor of [CompanyMatch], which validates the score
    against these bounds, does not reject it. *)
Theorem calculate_company_similarity_range (c1 c2 : UnifiedCompany) (s : Q)
    (fs : list (pystr * Q)) :
  calculate_company_similarity c1 c2 = Some (s, fs) ->
  unit_score s /\ Forall (fun '(_, score) => unit_score score) fs
  /\ forall a b ty review, is_Some (new_CompanyMatch a b s fs ty review).
Proof.
  intros Hrun.
  pose proof (calculate_company_similarity_unit fuzz_ratio_range
                fuzz_token_sort_ratio_range c1 c2 s fs Hrun) as Hs.
  split; [done|]. split.
  - apply calculate_company_similarity_inv in Hrun as (d & Hd & -> & _).
    rewrite !Forall_cons. split_and!; [| | | | |done].
    + by eapply domain_score_unit.
    + by apply calculate_field_similarity_unit.
    + by apply phone_score_unit.
    + by apply email_score_unit.
    + by apply address_score_unit.
  - intros a b ty review. by apply new_CompanyMatch_total.
Qed.

End RangeFacts.


Section RecordInvariants.
Import CompanyNormalizer RecordNormalizer.



Lemma normalize_company_url_ok (company : UnifiedCompany) :
  url_has_host company -> url_ok (normalize_company company).
Proof.
  unfold url_has_host, url_ok, normalize_company. cbn [web_presence].
  destruct (web_presence company) as [w|]; [|done]. cbn [fmap option_fmap option_map].
  unfold normalize_web_presence. cbn [website_url].
  destruct (truthy (website_url w)) eqn:Htruthy; [|by rewrite Htruthy].
  intros Hhost _. cbn [of_opt default from_option]. unfold Datatypes.id.
  destruct (normalize_url_shape _ (Hhost eq_refl)) as (scheme & tail & Hs & ->).
  by apply scheme_slashes.
Qed.

End RecordInvariants.

Section Pipeline.
Context `{FuzzLib}.
Hypothesis fuzz_ratio_range : forall a b, 0 <= fuzz_ratio a b <= 100.
Hypothesis fuzz_token_sort_ratio_range :
  forall a b, 0 <= fuzz_token_sort_ratio a b <= 100.
Variable self : EntityResolver.
Import RecordNormalizer.

(** X20: the two steps of the pipeline compose: on records whose URLs have a
    host, the resolver returns on the output of [normalize_batch], although
    the normalized URLs are plain strings that no longer pass through
    [HttpUrl]; and it returns no more records than the pipeline was given. *)
Theorem resolve_normalized_returns (cs : list UnifiedCompany) (auto_merge : bool) :
  Forall url_has_host cs ->
  exists result ms,
    resolve_duplicates self (normalize_batch cs) auto_merge = Some (result, ms)
    /\ (length result <= length cs)%nat.
Proof.
  intros Hhost.
  assert (Forall url_ok (normalize_batch cs)) as Hok.
  { unfold normalize_batch. apply Forall_forall.
    intros c Hc%list_elem_of_In%in_map_iff. destruct Hc as (c0 & <- & Hc0).
    apply normalize_company_url_ok. rewrite Forall_forall in Hhost.
    by apply Hhost, list_elem_of_In. }
  assert (exists result ms,
             resolve_duplicates self (normalize_batch cs) auto_merge = Some (result, ms))
    as (result & ms & Hrun).
  { destruct auto_merge.
    - destruct (resolve_duplicates_returns_lemma fuzz_ratio_range
                  fuzz_token_sort_ratio_range self _ Hok) as (r & ms & _ & Hr). eauto.
    - destruct (find_duplicates_total fuzz_ratio_range fuzz_token_sort_ratio_range
                  self _ Hok) as [ms Hms].
      exists (normalize_batch cs), ms. unfold resolve_duplicates. rewrite Hms.
      cbn. by destruct ms. }
  exists result, ms. split; [done|].
  apply resolve_duplicates_length_lemma in Hrun.
  unfold normalize_batch in Hrun. by rewrite length_map in Hrun.
Qed.

End Pipeline.

Section MergeFacts.
Local Open Scope Q_scope.

Lemma set_union_list_spec (xs ys : list pystr) :
  NoDup (set_union_list xs ys)
  /\ forall x, In x (set_union_list xs ys) <-> In x xs \/ In x ys.
Proof.
  unfold set_union_list. split; [apply NoDup_remove_dups|].
  intros x. rewrite <- !list_elem_of_In, elem_of_remove_dups, elem_of_app. done.
Qed.

Lemma set_union_list_length (xs ys : list pystr) :
  (length (set_union_list xs ys) <= length xs + length ys)%nat.
Proof.
  unfold set_union_list. rewrite <- length_app.
  induction (xs ++ ys) as [|x l IH]; [done|].
  cbn [remove_dups]. destruct (decide_rel elem_of x l); cbn [length]; lia.
Qed.

(** X21: when both records have contacts, the merged record lists every
    e-mail address and every phone number of either record exactly once, and
    its address is the longer of the two addresses, the one of the first
    record when they are equally long. *)
Theorem merge_companies_contacts (c1 c2 : UnifiedCompany) (t1 t2 : ContactInfo) :
  contacts c1 = Some t1 -> contacts c2 = Some t2 ->
  exists t,
    contacts (merge_companies c1 c2) = Some t
    /\ NoDup (emails_public t)
    /\ (forall e, In e (emails_public t) <-> In e (emails_public t1) \/ In e (emails_public t2))
    /\ NoDup (phones_public t)
    /\ (forall p, In p (phones_public t) <-> In p (phones_public t1) \/ In p (phones_public t2))
    /\ (address_public t = address_public t1 \/ address_public t = address_public t2)
    /\ length (of_opt (address_public t))
       = Nat.max (length (of_opt (address_public t1))) (length (of_opt (address_public t2)))
    /\ (length (of_opt (address_public t1)) = length (of_opt (address_public t2)) ->
        of_opt (address_public t) = of_opt (address_public t1)).
Proof.
  intros H1 H2. unfold merge_companies. cbn [contacts]. rewrite H1, H2.
  eexists. split; [reflexivity|]. cbn [merge_contacts emails_public phones_public address_public].
  destruct (set_union_list_spec (emails_public t1) (emails_public t2)) as [? ?].
  destruct (set_union_list_spec (phones_public t1) (phones_public t2)) as [? ?].
  split_and!; try done.
  - repeat case_match; auto.
  - destruct (address_public t1) as [[|x a1]|], (address_public t2) as [[|y a2]|];
      cbn [truthy negb of_opt default from_option length]; try done;
      try (unfold Datatypes.id; cbn [length]; lia).
    unfold Datatypes.id. destruct (Nat.ltb_spec (length (x :: a1)) (length (y :: a2)));
      cbn [of_opt default from_option] in *; unfold Datatypes.id in *; cbn [length] in *; lia.
  - destruct (address_public t1) as [[|x a1]|], (address_public t2) as [[|y a2]|];
      cbn [truthy negb of_opt default from_option length]; try done.
    unfold Datatypes.id. intros Hlen.
    destruct (Nat.ltb_spec (length (x :: a1)) (length (y :: a2))); [|done].
    cbn [length] in *. lia.
Qed.

(** X22: merging keeps the record within the bounds of the schema although
    its assignments are not validated: the confidence of the merged record,
    the mean of the two, lies between 0 and 1 when both do; and when both
    records have business metadata, the merged keywords are at most 50, each
    once, all taken from the two records, and none of them is lost when the
    two records have no more than 50 keywords together. *)
Theorem merge_companies_bounds (c1 c2 : UnifiedCompany) :
  unit_score (confidence_score c1) -> unit_score (confidence_score c2) ->
  unit_score (confidence_score (merge_companies c1 c2))
  /\ forall b1 b2,
       business_meta c1 = Some b1 -> business_meta c2 = Some b2 ->
       exists b,
         business_meta (merge_companies c1 c2) = Some b
         /\ (length (keywords b) <= 50)%nat
         /\ NoDup (keywords b)
         /\ (forall k, In k (keywords b) -> In k (keywords b1) \/ In k (keywords b2))
         /\ ((length (keywords b1) + length (keywords b2) <= 50)%nat ->
             forall k, In k (keywords b1) \/ In k (keywords b2) -> In k (keywords b)).
Proof.
  unfold unit_score. intros [Ha0 Ha1] [Hb0 Hb1]. split.
  - cbn [merge_companies confidence_score].
    set (a := confidence_score c1) in *. set (b := confidence_score c2) in *.
    assert ((a + b) / 2 == (1 # 2) * a + (1 # 2) * b) as -> by field. split; lra.
  - intros b1 b2 H1 H2. unfold merge_companies. cbn [business_meta]. rewrite H1, H2.
    eexists. split; [reflexivity|]. cbn [merge_business_meta keywords].
    destruct (set_union_list_spec (keywords b1) (keywords b2)) as [Hnd Hin].
    split_and!.
    + rewrite length_take. lia.
    + eapply sublist_NoDup; [done | apply sublist_take].
    + intros k Hk. apply Hin. apply list_elem_of_In.
      eapply sublist_subseteq; [apply sublist_take | by apply list_elem_of_In].
    + intros Hlen k Hk. rewrite take_ge; [by apply Hin|].
      pose proof (set_union_list_length (keywords b1) (keywords b2)). lia.
Qed.

End MergeFacts.

Section SelfSimilarity.
Context `{FuzzLib}.
Import CompanyNormalizer.
Local Open Scope Q_scope.

(** The comparators of the library give 100 for two equal strings. *)
Hypothesis fuzz_ratio_same : forall a, fuzz_ratio a a = 100%Z.
Hypothesis fuzz_token_sort_ratio_same : forall a, fuzz_token_sort_ratio a a = 100%Z.



End SelfSimilarity.

Section SinglePair.
Context `{FuzzLib}.
Variable self : EntityResolver.

Lemma build_merge_groups_filter (ms : list CompanyMatch) (g : list (pystr * Z)) :
  fold_left (group_step self) ms g
  = fold_left (group_step self) (List.filter (merges self) ms) g.
Proof.
  revert g. induction ms as [|m ms IH]; intros g; [done|].
  cbn [fold_left List.filter]. destruct (merges self m) eqn:Hm; [apply IH|].
  rewrite group_step_skips; [apply IH|].
  unfold merges in Hm. apply andb_false_iff in Hm as [Hm | Hm]; [by left|].
  right. by apply negb_false_iff.
Qed.

Lemma group_step_first (m : CompanyMatch) :
  merges self m = true -> company_a_id m <> company_b_id m ->
  group_step self [] m = [(company_a_id m, 0); (company_b_id m, 0)].
Proof.
  intros Hm Hne. unfold group_step. unfold merges in Hm. rewrite Hm.
  cbn. rewrite decide_False by done. done.
Qed.

Lemma build_company_index_miss (cs : list UnifiedCompany) (n : nat)
    (index : list (pystr * UnifiedCompany)) (k : pystr) :
  (forall p c, cs !! p = Some c -> company_key (n + p) c <> k) ->
  dict_get k (build_company_index n cs index) = dict_get k index.
Proof.
  revert n index. induction cs as [|c0 cs IH]; intros n index Hk; [done|].
  cbn [build_company_index]. rewrite IH.
  - apply dict_get_set_ne. intros ->. apply (Hk 0%nat c0); [done|].
    by rewrite Nat.add_0_r.
  - intros p c Hp. replace (S n + p)%nat with (n + S p)%nat by lia. by apply Hk.
Qed.

Lemma build_company_index_lookup (cs : list UnifiedCompany) (n : nat)
    (index : list (pystr * UnifiedCompany)) (i : nat) (c : UnifiedCompany) :
  cs !! i = Some c ->
  (forall p c', cs !! p = Some c' -> p <> i ->
     company_key (n + p) c' <> company_key (n + i) c) ->
  dict_get (company_key (n + i) c) (build_company_index n cs index) = Some c.
Proof.
  revert n index i. induction cs as [|c0 cs IH]; intros n index i Hi Hk; [done|].
  cbn [build_company_index]. destruct i as [|i].
  - injection Hi as ->. rewrite Nat.add_0_r in *. rewrite build_company_index_miss.
    + apply dict_get_set_eq.
    + intros p c' Hp. replace (S n + p)%nat with (n + S p)%nat by lia.
      by apply (Hk (S p)).
  - replace (n + S i)%nat with (S n + i)%nat in * by lia. apply IH; [done|].
    intros p c' Hp Hne. replace (S n + p)%nat with (n + S p)%nat by lia.
    apply (Hk (S p)); [done | lia].
Qed.

Lemma company_keys_distinct (cs : list UnifiedCompany) (p i : nat) (c' c : UnifiedCompany) :
  NoDup (company_keys cs) -> cs !! p = Some c' -> cs !! i = Some c ->
  p <> i -> company_key p c' <> company_key i c.
Proof.
  intros Hnd Hp Hi Hne Heq. apply Hne.
  apply (NoDup_lookup _ p i (company_key p c') Hnd); unfold company_keys.
  - by rewrite list_lookup_fmap, enumerate_from_lookup, Hp.
  - by rewrite list_lookup_fmap, enumerate_from_lookup, Hi, Heq.
Qed.

Lemma non_duplicates_filter (cs : list UnifiedCompany) (n : nat)
    (merge_groups : list (pystr * Z)) :
  non_duplicates n cs merge_groups
  = snd <$> List.filter
              (fun p => bool_decide (dict_get (company_key (fst p) (snd p)) merge_groups = None))
              (enumerate_from n cs).
Proof.
  revert n. induction cs as [|c cs IH]; intros n; [done|].
  cbn [non_duplicates enumerate_from List.filter fst snd].
  destruct (dict_get (company_key n c) merge_groups) eqn:Hg.
  - rewrite bool_decide_eq_false_2 by done. apply IH.
  - rewrite bool_decide_eq_true_2 by done. cbn. by rewrite IH.
Qed.

Lemma resolve_duplicates_single_pair_lemma (cs : list UnifiedCompany)
    (ms : list CompanyMatch) (m : CompanyMatch) :
  find_duplicates self cs = Some ms ->
  List.filter (merges self) ms = [m] ->
  NoDup (company_keys cs) ->
  exists i j c1 c2,
    (i < j)%nat /\ cs !! i = Some c1 /\ cs !! j = Some c2
    /\ company_a_id m = company_key i c1 /\ company_b_id m = company_key j c2
    /\ resolve_duplicates self cs true
       = Some (merge_companies c1 c2 :: others i j cs, ms).
Proof.
  intros Hms Hone Hnd.
  assert (In m ms /\ merges self m = true) as [Hin Hm].
  { apply filter_In. rewrite Hone. by left. }
  pose proof (find_duplicates_candidates self cs ms Hms) as Hcand.
  rewrite Forall_forall in Hcand.
  destruct (Hcand m) as (i & j & c1 & c2 & s & fs & Hij & H1 & H2 & _ & _ & _ & Ha & Hb & _).
  { by apply list_elem_of_In. }
  exists i, j, c1, c2. split_and!; try done.
  assert (company_key i c1 <> company_key j c2) as Hab
    by (apply (company_keys_distinct cs); [done..|lia]).
  unfold resolve_duplicates. rewrite Hms. cbn [mbind option_bind].
  destruct ms as [|m0 ms0] eqn:Ems; [done|]. rewrite <- Ems in *. cbn [negb].
  assert (build_merge_groups self ms
          = [(company_key i c1, 0); (company_key j c2, 0)]) as ->.
  { unfold build_merge_groups. rewrite build_merge_groups_filter, Hone. cbn [fold_left].
    rewrite group_step_first, Ha, Hb; congruence. }
  assert (dict_get (company_key i c1) (build_company_index 0 cs []) = Some c1) as Hi1.
  { apply (build_company_index_lookup cs 0 [] i c1 H1). intros p c' Hp Hne.
    by apply (company_keys_distinct cs). }
  assert (dict_get (company_key j c2) (build_company_index 0 cs []) = Some c2) as Hi2.
  { apply (build_company_index_lookup cs 0 [] j c2 H2). intros p c' Hp Hne.
    by apply (company_keys_distinct cs). }
  unfold merge_group_members. cbn [fold_leftM]. rewrite Hi1. cbn [mbind option_bind].
  cbn [dict_get dict_set]. rewrite Hi2. cbn [mbind option_bind dict_get].
  rewrite decide_True by done. cbn [dict_set]. rewrite decide_True by done.
  cbn [mbind option_bind dict_values List.map snd app]. do 3 f_equal.
  rewrite non_duplicates_filter. unfold others. f_equal.
  apply filter_ext_in. intros [p c] Hp. cbn [fst snd].
  apply list_elem_of_In, list_elem_of_lookup in Hp as [k Hk].
  rewrite enumerate_from_lookup in Hk. destruct (cs !! k) as [c'|] eqn:Hck; [|done].
  cbn in Hk. injection Hk as <- <-. cbn [dict_get].
  destruct (Nat.eqb_spec k i) as [-> | Hki].
  - rewrite H1 in Hck. injection Hck as <-. rewrite decide_True by done.
    by rewrite bool_decide_eq_false_2.
  - rewrite decide_False by (by apply (company_keys_distinct cs)).
    destruct (Nat.eqb_spec k j) as [-> | Hkj].
    + rewrite H2 in Hck. injection Hck as <-. rewrite decide_True by done.
      by rewrite bool_decide_eq_false_2.
    + rewrite decide_False by (by apply (company_keys_distinct cs)).
      by rewrite bool_decide_eq_true_2.
Qed.

(** X26: when the records have distinct identifiers and exactly one match is
    exact and free of review, [resolve_duplicates] replaces the two records of
    that match by one, their merge with the earlier record as the base; it
    comes first and the other records follow in their order. *)
Theorem resolve_duplicates_single_pair (cs : list UnifiedCompany)
    (ms : list CompanyMatch) (m : CompanyMatch) :
  find_duplicates self cs = Some ms ->
  List.filter (merges self) ms = [m] ->
  NoDup (company_keys cs) ->
  exists i j c1 c2,
    (i < j)%nat /\ cs !! i = Some c1 /\ cs !! j = Some c2
    /\ company_a_id m = company_key i c1 /\ company_b_id m = company_key j c2
    /\ resolve_duplicates self cs true
       = Some (merge_companies c1 c2 :: others i j cs, ms).
Proof. apply resolve_duplicates_single_pair_lemma. Qed.

End SinglePair.

Section OncePerPair.
Context `{FuzzLib}.
Variable self : EntityResolver.

Lemma find_duplicates_positions (cs : list UnifiedCompany) (ms : list CompanyMatch) :
  find_duplicates self cs = Some ms ->
  exists ps, NoDup ps /\ Forall2 (reports cs) ms ps.
Proof.
  rewrite find_duplicates_unfold.
  destruct (build_blocking_index 0 cs []) as [idx|] eqn:Hidx; [|done].
  cbn [mbind option_bind].
  destruct (fold_leftM (compare_step self) (index_pairs idx) (∅, [])) as [[pp ms']|] eqn:Hrun;
    [|done].
  cbn. intros [= <-].
  apply (fold_leftM_invariant
           (fun _ st => exists ps, NoDup ps /\ Forall2 (reports cs) (snd st) ps
                                   /\ forall p, p ∈ ps -> p ∈ fst st)) in Hrun.
  - destruct Hrun as (ps & Hnd & Hall & _). by exists ps.
  - exists []. split_and!; [constructor | constructor | by intros p ?%elem_of_nil].
  - intros _ [[i c1] [j c2]] [pp0 ms0] [pp1 ms1] (ps & Hnd & Hall & Hsub) Hin Hstep.
    cbn [fst snd] in *.
    apply (index_pairs_spec cs idx) in Hin as (Hij & H1 & H2 & Hkey); [|done].
    assert ((Nat.min i j, Nat.max i j) = (i, j)) as Hpair by (f_equal; lia).
    apply compare_pair_inv in Hstep. rewrite Hpair in Hstep.
    destruct Hstep
      as [(_ & -> & ->)
         | (Hnew & -> & s & fs & Hsim & [[_ ->] | (Hmin & m & -> & _ & Ha & Hb & _)])].
    + by exists ps.
    + exists ps. split_and!; [done | done |]. intros p Hp. apply elem_of_union. left. by apply Hsub.
    + exists (ps ++ [(i, j)]). split_and!.
      * apply NoDup_app. split_and!; [done | | apply NoDup_singleton].
        intros p Hp ->%list_elem_of_singleton. by apply Hnew, Hsub.
      * apply Forall2_app; [done|]. constructor; [|constructor].
        by exists c1, c2.
      * intros p [Hp | ->%list_elem_of_singleton]%elem_of_app; apply elem_of_union.
        -- left. by apply Hsub.
        -- right. by apply elem_of_singleton.
Qed.

(** X27: [find_duplicates] reports no pair twice: its matches belong to
    pairwise distinct pairs of positions of the input, and when the records
    have distinct identifiers no two matches name the same two
    identifiers. *)
Theorem find_duplicates_once (cs : list UnifiedCompany) (ms : list CompanyMatch) :
  find_duplicates self cs = Some ms ->
  (exists ps, NoDup ps /\ Forall2 (reports cs) ms ps)
  /\ (NoDup (company_keys cs) ->
      NoDup ((fun m => (company_a_id m, company_b_id m)) <$> ms)).
Proof.
  intros (ps & Hnd & Hall)%find_duplicates_positions. split; [by exists ps|].
  intros Hkeys. apply NoDup_alt. intros a b ids Ha Hb.
  rewrite list_lookup_fmap in Ha, Hb.
  destruct (ms !! a) as [ma|] eqn:Hma; [|done].
  destruct (ms !! b) as [mb|] eqn:Hmb; [|done].
  cbn in Ha, Hb. rewrite <- Hb in Ha. injection Ha as Ha1 Ha2.
  destruct (Forall2_lookup_l _ _ _ _ _ Hall Hma) as ([i j] & Hpa & c1 & c2 & _ & H1 & H2 & E1 & E2).
  destruct (Forall2_lookup_l _ _ _ _ _ Hall Hmb) as ([i' j'] & Hpb & c1' & c2' & _ & H1' & H2' & E1' & E2').
  cbn [fst snd] in *.
  assert (i = i') as <-.
  { destruct (decide (i = i')) as [|Hne]; [done|]. exfalso.
    apply (company_keys_distinct cs i i' c1 c1' Hkeys H1 H1' Hne). congruence. }
  assert (j = j') as <-.
  { destruct (decide (j = j')) as [|Hne]; [done|]. exfalso.
    apply (company_keys_distinct cs j j' c2 c2' Hkeys H2 H2' Hne). congruence. }
  by apply (NoDup_lookup ps a b (i, j)).
Qed.

End OncePerPair.

Section ExtraExamples.
Import Examples.
#[local] Existing Instance lev_fuzz.



Lemma chain_url_has_host : Forall url_has_host [chain_a; chain_b; chain_c].
Proof.
  repeat apply Forall_cons_2; [| | |apply Forall_nil_2];
    intros _; apply Exists_exists; exists (ch "w");
    (split; [apply list_elem_of_In; vm_compute; by left | done]).
Qed.


Lemma find_duplicates_sound_witness :
  exists ms,
    find_duplicates default_resolver [chain_a; chain_b; chain_c] = Some ms
    /\ Forall (candidate_of default_resolver [chain_a; chain_b; chain_c]) ms
    /\ ((length [chain_a; chain_b; chain_c] <= 1)%nat -> ms = []).
Proof.
  eexists. split; [vm_compute; reflexivity|].
  match goal with |- Forall _ ?ms /\ _ =>
    assert (find_duplicates default_resolver [chain_a; chain_b; chain_c] = Some ms)
      as Hrun by (vm_compute; reflexivity)
  end.
  exact (find_duplicates_sound default_resolver _ _ Hrun).
Defined.

Lemma resolve_duplicates_returns_witness :
  (forall a b, 0 <= lev_ratio a b <= 100)
  /\ (forall a b, 0 <= lev_token_sort_ratio a b <= 100)
  /\ Forall url_ok [chain_a; chain_b; chain_c]
  /\ exists result ms,
       find_duplicates default_resolver [chain_a; chain_b; chain_c] = Some ms
       /\ resolve_duplicates default_resolver [chain_a; chain_b; chain_c] true
          = Some (result, ms).
Proof.
  split; [exact lev_ratio_range|]. split; [exact lev_token_sort_ratio_range|].
  split; [exact chain_url_ok|].
  exact (resolve_duplicates_returns lev_ratio_range lev_token_sort_ratio_range
           default_resolver _ chain_url_ok).
Defined.

Lemma resolve_duplicates_no_exact_witness :
  exists ms,
    find_duplicates default_resolver [chain_a; chain_c] = Some ms
    /\ ms <> []
    /\ Forall (fun m => merges default_resolver m = false) ms
    /\ resolve_duplicates default_resolver [chain_a; chain_c] true
       = Some ([chain_a; chain_c], ms).
Proof.
  eexists. split; [vm_compute; reflexivity|]. split; [done|].
  match goal with |- Forall _ ?ms /\ _ =>
    assert (find_duplicates default_resolver [chain_a; chain_c] = Some ms)
      as Hrun by (vm_compute; reflexivity);
    assert (Forall (fun m => merges default_resolver m = false) ms)
      as Hnone by (repeat constructor)
  end.
  split; [exact Hnone|].
  exact (resolve_duplicates_no_exact default_resolver _ _ true Hrun Hnone).
Defined.

Lemma resolve_duplicates_length_witness :
  exists result ms,
    resolve_duplicates default_resolver [chain_a; chain_b; chain_c] true
    = Some (result, ms)
    /\ (length result <= length [chain_a; chain_b; chain_c])%nat.
Proof.
  eexists. eexists. split; [vm_compute; reflexivity|].
  eapply (resolve_duplicates_length default_resolver [chain_a; chain_b; chain_c] _ _ true).
  vm_compute; reflexivity.
Defined.

Lemma resolve_duplicates_keeps_unmatched_witness :
  exists result ms,
    resolve_duplicates default_resolver [chain_a; chain_b; name_only] true
    = Some (result, ms)
    /\ ms <> []
    /\ (forall m, In m ms -> merges default_resolver m = true ->
          company_a_id m <> company_key 2 name_only
          /\ company_b_id m <> company_key 2 name_only)
    /\ In name_only result.
Proof.
  eexists. eexists. split; [vm_compute; reflexivity|]. split; [done|].
  match goal with |- (forall m, In m ?ms -> _) /\ In _ ?result =>
    assert (resolve_duplicates default_resolver [chain_a; chain_b; name_only] true
            = Some (result, ms)) as Hrun by (vm_compute; reflexivity);
    assert (forall m, In m ms -> merges default_resolver m = true ->
              company_a_id m <> company_key 2 name_only
              /\ company_b_id m <> company_key 2 name_only) as Hfree
      by (intros m [<-|[]] _; split; by vm_compute)
  end.
  split; [exact Hfree|].
  exact (resolve_duplicates_keeps_unmatched default_resolver _ _ _ true 2 name_only
           Hrun eq_refl Hfree).
Defined.

Lemma resolve_duplicates_single_pair_witness :
  exists ms m,
    find_duplicates default_resolver [chain_a; chain_b; name_only] = Some ms
    /\ List.filter (merges default_resolver) ms = [m]
    /\ NoDup (company_keys [chain_a; chain_b; name_only])
    /\ exists i j c1 c2,
         (i < j)%nat /\ [chain_a; chain_b; name_only] !! i = Some c1
         /\ [chain_a; chain_b; name_only] !! j = Some c2
         /\ company_a_id m = company_key i c1 /\ company_b_id m = company_key j c2
         /\ resolve_duplicates default_resolver [chain_a; chain_b; name_only] true
            = Some (merge_companies c1 c2 :: others i j [chain_a; chain_b; name_only], ms).
Proof.
  eexists. eexists. split; [vm_compute; reflexivity|].
  split; [vm_compute; reflexivity|].
  assert (NoDup (company_keys [chain_a; chain_b; name_only])) as Hnd
    by (apply (bool_decide_unpack _); by vm_compute).
  split; [exact Hnd|].
  apply (resolve_duplicates_single_pair default_resolver [chain_a; chain_b; name_only]);
    [vm_compute; reflexivity | vm_compute; reflexivity | exact Hnd].
Defined.

Lemma find_duplicates_once_witness :
  exists ms,
    find_duplicates default_resolver [chain_a; chain_b; chain_c] = Some ms
    /\ (exists ps, NoDup ps /\ Forall2 (reports [chain_a; chain_b; chain_c]) ms ps)
    /\ NoDup (company_keys [chain_a; chain_b; chain_c])
    /\ NoDup ((fun m => (company_a_id m, company_b_id m)) <$> ms).
Proof.
  eexists. split; [vm_compute; reflexivity|].
  match goal with |- (exists ps, _ /\ Forall2 _ ?ms ps) /\ _ =>
    assert (find_duplicates default_resolver [chain_a; chain_b; chain_c] = Some ms)
      as Hrun by (vm_compute; reflexivity)
  end.
  assert (NoDup (company_keys [chain_a; chain_b; chain_c])) as Hnd
    by (apply (bool_decide_unpack _); by vm_compute).
  destruct (find_duplicates_once default_resolver _ _ Hrun) as [Hpos Hids].
  split; [exact Hpos|]. split; [exact Hnd|]. exact (Hids Hnd).
Defined.

Lemma calculate_company_similarity_range_witness :
  (forall a b, 0 <= lev_ratio a b <= 100)
  /\ (forall a b, 0 <= lev_token_sort_ratio a b <= 100)
  /\ exists s fs,
       calculate_company_similarity chain_a chain_c = Some (s, fs)
       /\ unit_score s /\ Forall (fun '(_, score) => unit_score score) fs
       /\ forall a b ty review, is_Some (new_CompanyMatch a b s fs ty review).
Proof.
  split; [exact lev_ratio_range|]. split; [exact lev_token_sort_ratio_range|].
  eexists. eexists. split; [vm_compute; reflexivity|].
  eapply (@calculate_company_similarity_range lev_fuzz lev_ratio_range
            lev_token_sort_ratio_range chain_a chain_c).
  vm_compute; reflexivity.
Defined.


Lemma resolve_normalized_returns_witness :
  (forall a b, 0 <= lev_ratio a b <= 100)
  /\ (forall a b, 0 <= lev_token_sort_ratio a b <= 100)
  /\ Forall url_has_host [chain_a; chain_b; chain_c]
  /\ exists result ms,
       resolve_duplicates default_resolver
         (RecordNormalizer.normalize_batch [chain_a; chain_b; chain_c]) true
       = Some (result, ms)
       /\ (length result <= length [chain_a; chain_b; chain_c])%nat.
Proof.
  split; [exact lev_ratio_range|]. split; [exact lev_token_sort_ratio_range|].
  split; [exact chain_url_has_host|].
  exact (resolve_normalized_returns lev_ratio_range lev_token_sort_ratio_range
           default_resolver _ true chain_url_has_host).
Defined.

Lemma merge_companies_contacts_witness :
  exists t1 t2 t,
    contacts chain_a = Some t1 /\ contacts chain_b = Some t2
    /\ contacts (merge_companies chain_a chain_b) = Some t
    /\ NoDup (emails_public t)
    /\ (forall e, In e (emails_public t) <-> In e (emails_public t1) \/ In e (emails_public t2))
    /\ NoDup (phones_public t)
    /\ (forall p, In p (phones_public t) <-> In p (phones_public t1) \/ In p (phones_public t2))
    /\ (address_public t = address_public t1 \/ address_public t = address_public t2)
    /\ length (of_opt (address_public t))
       = Nat.max (length (of_opt (address_public t1))) (length (of_opt (address_public t2)))
    /\ (length (of_opt (address_public t1)) = length (of_opt (address_public t2)) ->
        of_opt (address_public t) = of_opt (address_public t1)).
Proof.
  destruct (merge_companies_contacts chain_a chain_b _ _ eq_refl eq_refl) as (t & Ht).
  eexists. eexists. exists t. split; [reflexivity|]. split; [reflexivity|]. exact Ht.
Defined.

Lemma merge_companies_bounds_witness :
  unit_score (confidence_score (with_keywords chain_a [u "makina"; u "ankara"]))
  /\ unit_score (confidence_score (with_keywords chain_b [u "ankara"; u "sanayi"]))
  /\ unit_score (confidence_score
                   (merge_companies (with_keywords chain_a [u "makina"; u "ankara"])
                                    (with_keywords chain_b [u "ankara"; u "sanayi"])))
  /\ exists b,
       business_meta (merge_companies (with_keywords chain_a [u "makina"; u "ankara"])
                                      (with_keywords chain_b [u "ankara"; u "sanayi"]))
       = Some b
       /\ (length (keywords b) <= 50)%nat
       /\ NoDup (keywords b)
       /\ In (u "makina") (keywords b) /\ In (u "sanayi") (keywords b).
Proof.
  assert (unit_score 1%Q) as Hone by (split; discriminate).
  split; [exact Hone|]. split; [exact Hone|].
  destruct (merge_companies_bounds (with_keywords chain_a [u "makina"; u "ankara"])
              (with_keywords chain_b [u "ankara"; u "sanayi"]) Hone Hone)
    as [Hscore Hmeta].
  split; [exact Hscore|].
  destruct (Hmeta _ _ eq_refl eq_refl) as (b & Hb & Hlen & Hnd & _ & Hkept).
  exists b. split; [exact Hb|]. split; [exact Hlen|]. split; [exact Hnd|].
  split; apply Hkept; cbn; try lia; [left | right]; tauto.
Defined.



End ExtraExamples.
